(** * ELLIO Traefik forward-auth: a shallow embedding and its properties

    The Go packages [auth], [ipmatcher], [edl], [logs] and [api] are
    embedded as Rocq functions over explicit state.  Part I holds the
    definitions, one module per Go package; Part II holds the theorems.

    Conventions.
    - Go [int], [int64] and [time.Duration] are [Z]; where the code can
      leave the 64-bit range the wrap-around is written out ([wrap64]).
    - [time.Time] is [Z], nanoseconds since the zero instant, so that
      [IsZero t] is [t = 0].
    - Go strings are [string] (a sequence of bytes).
    - An [error] result is an [option] or a [result]; a run-time panic is
      [None].
    - Library code outside the repository ([net/netip], [go4.org/netipx],
      [net/textproto], [net]) is taken through the interface [NetIP] or as
      section variables. *)

From Stdlib Require Import ZArith Lia Bool List String Ascii QArith.
From stdpp Require Import base list strings gmap.
Import ListNotations.

Local Open Scope Z_scope.

(* ===================================================================== *)
(** * Part I: definitions                                                  *)
(* ===================================================================== *)

(** ** Machine integers, durations and instants *)

Definition max_int64 : Z := 2 ^ 63 - 1.
Definition min_int64 : Z := - 2 ^ 63.

Definition in_int64 (z : Z) : bool := (min_int64 <=? z) && (z <=? max_int64).

(** Two's complement wrap-around of 64-bit signed arithmetic. *)
Definition wrap64 (z : Z) : Z := (z + 2 ^ 63) mod 2 ^ 64 - 2 ^ 63.

(** [time.Duration]: a count of nanoseconds. *)
Definition Duration := Z.
Definition Nanosecond : Duration := 1.
Definition Millisecond : Duration := 1000000.
Definition Second : Duration := 1000000000.
Definition Minute : Duration := 60 * Second.
Definition Hour : Duration := 60 * Minute.

(** [time.Time]: nanoseconds since the zero instant. *)
Definition Time := Z.

Definition IsZero (t : Time) : bool := t =? 0.

(** [Time.Sub] saturates at the largest and the smallest duration. *)
Definition Sub (t u : Time) : Duration :=
  Z.max min_int64 (Z.min max_int64 (t - u)).

(** [time.Since(t)] read at the instant [now]. *)
Definition Since (now t : Time) : Duration := Sub now t.

(** Errors carry their message. *)
Definition error := string.

Inductive result (A : Type) :=
| Ok (a : A)
| Err (e : error).
Arguments Ok {A} a.
Arguments Err {A} e.

(** [utils.MinDuration], [utils.MinInt64], [utils.MinInt]. *)
Definition MinDuration (a b : Duration) : Duration := if a <? b then a else b.
Definition MinInt64 (a b : Z) : Z := if a <? b then a else b.
Definition MinInt (a b : Z) : Z := if a <? b then a else b.

(** ** Go string helpers *)

Module strs.

Definition bytes (l : list nat) : string :=
  string_of_list_ascii (map ascii_of_nat l).

(** The UTF-8 encodings of the code points for which [unicode.IsSpace]
    holds. *)
Definition space_encodings : list string :=
  map bytes
    [ [9]; [10]; [11]; [12]; [13]; [32];
      [194; 133]; [194; 160];
      [225; 154; 128];
      [226; 128; 128]; [226; 128; 129]; [226; 128; 130]; [226; 128; 131];
      [226; 128; 132]; [226; 128; 133]; [226; 128; 134]; [226; 128; 135];
      [226; 128; 136]; [226; 128; 137]; [226; 128; 138];
      [226; 128; 168]; [226; 128; 169]; [226; 128; 175];
      [226; 129; 159];
      [227; 128; 128] ]%nat.

(** [strings.HasPrefix]. *)
Definition HasPrefix (s p : string) : bool := String.prefix p s.

Fixpoint drop_bytes (n : nat) (s : string) : string :=
  match n, s with
  | O, _ => s
  | S n', String _ s' => drop_bytes n' s'
  | S _, EmptyString => EmptyString
  end.

Definition leading_space (encs : list string) (s : string) : option nat :=
  match List.filter (fun e => String.prefix e s) encs with
  | e :: _ => Some (String.length e)
  | [] => None
  end.

Fixpoint trim_left (fuel : nat) (encs : list string) (s : string) : string :=
  match fuel with
  | O => s
  | S fuel' =>
      match leading_space encs s with
      | Some k => trim_left fuel' encs (drop_bytes k s)
      | None => s
      end
  end.

Fixpoint rev_onto (s acc : string) : string :=
  match s with
  | EmptyString => acc
  | String c s' => rev_onto s' (String c acc)
  end.

Definition rev_string (s : string) : string := rev_onto s EmptyString.

(** [strings.TrimSpace]: strip leading, then trailing, white space. *)
Definition TrimSpace (s : string) : string :=
  let l := trim_left (String.length s) space_encodings s in
  rev_string
    (trim_left (String.length l) (map rev_string space_encodings)
       (rev_string l)).

(** [strings.Split(s, sep)] for a one-byte separator: always at least one
    part. *)
Fixpoint split_go (sep : ascii) (cur : string) (s : string) : list string :=
  match s with
  | EmptyString => [rev_string cur]
  | String c s' =>
      if Ascii.eqb c sep then rev_string cur :: split_go sep EmptyString s'
      else split_go sep (String c cur) s'
  end.

Definition Split (s : string) (sep : ascii) : list string :=
  split_go sep EmptyString s.

(** [strings.Contains]. *)
Fixpoint Contains (s sub : string) : bool :=
  String.prefix sub s
  || match s with
     | EmptyString => false
     | String _ s' => Contains s' sub
     end.

Definition newline : string := String (ascii_of_nat 10) EmptyString.

Definition is_empty (s : string) : bool :=
  match s with EmptyString => true | _ => false end.

End strs.

(** ** The [net/netip] and [netipx] interface *)

(** What the repository uses of [net/netip]: addresses, prefixes and their
    parsers.  [ParseAddr] rejects the empty string. *)
Class NetIP := {
  Addr : Type;
  Prefix : Type;
  ParseAddr : string -> option Addr;
  ParsePrefix : string -> option Prefix;
  PrefixContains : Prefix -> Addr -> bool;
  AddrEqb : Addr -> Addr -> bool;
  ParseAddr_empty : ParseAddr EmptyString = None
}.

Module netipx.
Section WithNetIP.
Context {netip : NetIP}.

(** What an [IPSetBuilder] has been given: whole prefixes ([AddPrefix]) and
    single addresses ([Add]). *)
Inductive Item :=
| ItemPrefix (p : Prefix)
| ItemAddr (a : Addr).

Definition IPSetBuilder := list Item.
Definition IPSet := list Item.

Definition AddPrefix (p : Prefix) (b : IPSetBuilder) : IPSetBuilder :=
  b ++ [ItemPrefix p].

Definition Add (a : Addr) (b : IPSetBuilder) : IPSetBuilder :=
  b ++ [ItemAddr a].

(** [IPSetBuilder.IPSet]: the items given so far; the builder only
    reports an error for an invalid item, which the parsers never return. *)
Definition Build (b : IPSetBuilder) : option IPSet := Some b.

Definition item_covers (ip : Addr) (it : Item) : bool :=
  match it with
  | ItemPrefix p => PrefixContains p ip
  | ItemAddr a => AddrEqb a ip
  end.

(** [IPSet.Contains]. *)
Definition Contains (s : IPSet) (ip : Addr) : bool :=
  existsb (item_covers ip) s.

End WithNetIP.
End netipx.

(** ** Package [ipmatcher] *)

Module ipmatcher.
Section WithNetIP.
Context {netip : NetIP}.

Record Matcher := {
  ipset : netipx.IPSet;
  count : Z
}.

Definition New : Matcher := {| ipset := []; count := 0 |}.

Definition Contains (m : Matcher) (ip : Addr) : bool :=
  netipx.Contains (ipset m) ip.

Definition Update (s : netipx.IPSet) (n : Z) (m : Matcher) : Matcher :=
  {| ipset := s; count := n |}.

Definition Count (m : Matcher) : Z := count m.

End WithNetIP.
End ipmatcher.

(** ** Package [logs]: access events *)

Module event.

Record AccessEvent := {
  Outcome : string;
  Reason : string;
  StatusCode : Z;
  DeviceID : string;
  ClientIP : string;
  PolicyMode : string
}.

(** [NewAccessEvent], restricted to the fields the decision determines. *)
Definition NewAccessEvent (sourceIP deviceID edlMode : string)
    (allowed : bool) (responseCode : Z) : AccessEvent :=
  let reason :=
    if negb allowed then
      if String.eqb edlMode "allowlist" then "not_in_allowlist"
      else if String.eqb edlMode "blocklist" then "in_blocklist"
      else "in_allowlist"
    else
      if String.eqb edlMode "allowlist" then "in_allowlist"
      else if String.eqb edlMode "blocklist" then "not_in_blocklist"
      else "in_allowlist" in
  {| Outcome := if allowed then "allowed" else "blocked";
     Reason := reason;
     StatusCode := responseCode;
     DeviceID := deviceID;
     ClientIP := sourceIP;
     PolicyMode := edlMode |}%string.

End event.

(** ** Package [auth]: the access handler *)

Module auth.
Section WithNetIP.
Context {netip : NetIP}.

(** [textproto.CanonicalMIMEHeaderKey] and [net.SplitHostPort]. *)
Variable CanonicalMIMEHeaderKey : string -> string.
Variable SplitHostPort : string -> option (string * string).

Definition StatusOK : Z := 200.
Definition StatusBadRequest : Z := 400.
Definition StatusForbidden : Z := 403.

Record Handler := {
  matcher : ipmatcher.Matcher;
  isBlocklist : bool;
  deploymentEnabled : bool;
  logShipper : bool;          (* whether a shipper has been attached *)
  deviceID : string;
  ipHeaderOverride : string
}.

Definition NewHandler (m : ipmatcher.Matcher) (edlMode : string)
    (enabled : bool) : Handler :=
  {| matcher := m;
     isBlocklist := String.eqb edlMode "blocklist";
     deploymentEnabled := enabled;
     logShipper := false;
     deviceID := EmptyString;
     ipHeaderOverride := EmptyString |}.

Definition SetLogShipper (h : Handler) : Handler :=
  {| matcher := matcher h; isBlocklist := isBlocklist h;
     deploymentEnabled := deploymentEnabled h; logShipper := true;
     deviceID := deviceID h; ipHeaderOverride := ipHeaderOverride h |}.

Definition SetDeviceID (id : string) (h : Handler) : Handler :=
  {| matcher := matcher h; isBlocklist := isBlocklist h;
     deploymentEnabled := deploymentEnabled h; logShipper := logShipper h;
     deviceID := id; ipHeaderOverride := ipHeaderOverride h |}.

Definition SetIPHeaderOverride (headerName : string) (h : Handler) : Handler :=
  {| matcher := matcher h; isBlocklist := isBlocklist h;
     deploymentEnabled := deploymentEnabled h; logShipper := logShipper h;
     deviceID := deviceID h; ipHeaderOverride := headerName |}.

Record Request := {
  Header : gmap string (list string);
  RemoteAddr : string
}.

(** [http.Header.Get]: the first value stored under the canonical key. *)
Definition Get (h : gmap string (list string)) (key : string) : string :=
  match h !! CanonicalMIMEHeaderKey key with
  | Some (v :: _) => v
  | _ => EmptyString
  end.

(** The first comma-separated value of a header, trimmed. *)
Definition first_value (v : string) : option string :=
  match strs.Split v ","%char with
  | p :: _ => Some (strs.TrimSpace p)
  | [] => None
  end.

Definition from_header (r : Request) (name : string) : option string :=
  let v := Get (Header r) name in
  if strs.is_empty v then None else first_value v.

Definition extractClientIP (h : Handler) (r : Request) : string :=
  let override :=
    if strs.is_empty (ipHeaderOverride h) then None
    else from_header r (ipHeaderOverride h) in
  match override with
  | Some ip => ip
  | None =>
      match from_header r "X-Forwarded-For" with
      | Some ip => ip
      | None =>
          let xri := Get (Header r) "X-Real-IP" in
          if negb (strs.is_empty xri) then strs.TrimSpace xri
          else
            match SplitHostPort (RemoteAddr r) with
            | Some (host, _) => host
            | None => RemoteAddr r
            end
      end
  end.

(** [evaluateAccess]: [None] is the invalid-address error. *)
Definition evaluateAccess (h : Handler) (clientIP : string) : option bool :=
  if negb (deploymentEnabled h) then Some true
  else
    match ParseAddr clientIP with
    | None => None
    | Some addr =>
        let inList := ipmatcher.Contains (matcher h) addr in
        Some (negb (Bool.eqb (isBlocklist h) inList))
    end.

(** The policy mode as the handler reports it in its events. *)
Inductive Mode := Allowlist | Blocklist.

Definition mode (h : Handler) : Mode :=
  if isBlocklist h then Blocklist else Allowlist.

Definition mode_name (h : Handler) : string :=
  if negb (isBlocklist h) then "allowlist" else "blocklist".

Definition sendAccessEvent (h : Handler) (clientIP : string)
    (allowed : bool) : event.AccessEvent :=
  let responseCode := if negb allowed then StatusForbidden else StatusOK in
  event.NewAccessEvent clientIP (deviceID h) (mode_name h) allowed
    responseCode.

Inductive ResultLabel := LabelAllowed | LabelDenied | LabelInvalid.

Record Response := {
  status : Z;
  body : string;
  label : ResultLabel;
  emitted : option event.AccessEvent
}.

(** [serveForbidden]: [page] is the content of [/static/403.html] when the
    file can be opened. *)
Definition serveForbidden (page : option string) (r : Request) : string :=
  let accept := Get (Header r) "Accept" in
  if strs.Contains accept "text/html" then
    match page with
    | Some html => html
    | None => "Forbidden" ++ strs.newline
    end
  else "Forbidden" ++ strs.newline.

Definition ServeHTTP (h : Handler) (page : option string) (r : Request)
    : Response :=
  let clientIP := extractClientIP h r in
  if strs.is_empty clientIP then
    {| status := StatusBadRequest;
       body := "Unable to determine client IP" ++ strs.newline;
       label := LabelInvalid;
       emitted := None |}
  else
    match evaluateAccess h clientIP with
    | None =>
        {| status := StatusBadRequest;
           body := "Invalid IP address" ++ strs.newline;
           label := LabelInvalid;
           emitted := None |}
    | Some true =>
        {| status := StatusOK;
           body := EmptyString;
           label := LabelAllowed;
           emitted := None |}
    | Some false =>
        {| status := StatusForbidden;
           body := serveForbidden page r;
           label := LabelDenied;
           emitted :=
             if logShipper h then Some (sendAccessEvent h clientIP false)
             else None |}
    end.

(** The same handler under the other policy mode. *)
Definition flip_mode (h : Handler) : Handler :=
  {| matcher := matcher h;
     isBlocklist := negb (isBlocklist h);
     deploymentEnabled := deploymentEnabled h;
     logShipper := logShipper h;
     deviceID := deviceID h;
     ipHeaderOverride := ipHeaderOverride h |}.

End WithNetIP.
End auth.

(** ** Package [edl]: the parser and the updater *)

Module edl.
Section WithNetIP.
Context {netip : NetIP}.

(** [bufio.MaxScanTokenSize]. *)
Definition MaxScanTokenSize : Z := 64 * 1024.

Definition ErrTooLong : error := "bufio.Scanner: token too long".

Definition LF : ascii := ascii_of_nat 10.
Definition CR : ascii := ascii_of_nat 13.

(** The bytes before each line feed, and the bytes after the last one when
    there are any. *)
Fixpoint raw_lines (cur : string) (s : string) : list string :=
  match s with
  | EmptyString => if strs.is_empty cur then [] else [strs.rev_string cur]
  | String c s' =>
      if Ascii.eqb c LF then strs.rev_string cur :: raw_lines EmptyString s'
      else raw_lines (String c cur) s'
  end.

(** [dropCR] of [bufio.ScanLines]. *)
Definition dropCR (line : string) : string :=
  match strs.rev_string line with
  | String c rest => if Ascii.eqb c CR then strs.rev_string rest else line
  | EmptyString => line
  end.

(** The tokens [scanner.Scan] yields before it stops, and [scanner.Err]:
    a line that does not fit the scanner's buffer ends the scan with
    [ErrTooLong].  (A final line of exactly [MaxScanTokenSize] bytes without
    a line feed is still returned when the reader reports the end of input
    together with its last bytes; the model takes the reader that reports
    it separately.) *)
Fixpoint scan_lines (raws : list string) : list string * option error :=
  match raws with
  | [] => ([], None)
  | raw :: rest =>
      if MaxScanTokenSize <=? Z.of_nat (String.length raw) then
        ([], Some ErrTooLong)
      else
        let '(toks, err) := scan_lines rest in
        (dropCR raw :: toks, err)
  end.

Definition Scan (text : string) : list string * option error :=
  scan_lines (raw_lines EmptyString text).

(** The loop of [parseEDL] over the scanned lines. *)
Fixpoint parse_lines (lines : list string) (b : netipx.IPSetBuilder)
    (count : Z) : netipx.IPSetBuilder * Z :=
  match lines with
  | [] => (b, count)
  | text :: rest =>
      let line := strs.TrimSpace text in
      if strs.is_empty line || strs.HasPrefix line "#" then
        parse_lines rest b count
      else
        match ParsePrefix line with
        | Some prefix => parse_lines rest (netipx.AddPrefix prefix b) (count + 1)
        | None =>
            match ParseAddr line with
            | Some addr => parse_lines rest (netipx.Add addr b) (count + 1)
            | None => parse_lines rest b count
            end
        end
  end.

Definition parseEDL (text : string) : result (netipx.IPSet * Z) :=
  let '(lines, err) := Scan text in
  let '(b, count) := parse_lines lines [] 0 in
  match err with
  | Some e => Err e
  | None =>
      match netipx.Build b with
      | Some ipset => Ok (ipset, count)
      | None => Err "IPSet"
      end
  end.

(** The parser as the specification describes it, one line at a time:
    trim the white space; skip the empty line and the line that starts
    with [#]; take the line as a prefix, or failing that as a single
    address; skip the line that is neither. *)
Definition accepted (text : string) : option netipx.Item :=
  let line := strs.TrimSpace text in
  if strs.is_empty line then None
  else if strs.HasPrefix line "#" then None
  else
    match ParsePrefix line with
    | Some prefix => Some (netipx.ItemPrefix prefix)
    | None =>
        match ParseAddr line with
        | Some addr => Some (netipx.ItemAddr addr)
        | None => None
        end
    end.

(** The accepted entries of a text, in the order of its lines. *)
Definition accepted_entries (text : string) : list netipx.Item :=
  omap accepted (map dropCR (raw_lines EmptyString text)).

(** Every line fits the scanner's buffer. *)
Definition lines_fit (text : string) : Prop :=
  Forall (fun raw => Z.of_nat (String.length raw) < MaxScanTokenSize)
    (raw_lines EmptyString text).

Record Updater := {
  matcher : ipmatcher.Matcher;
  lastUpdate : Time;
  lastError : option error;
  updateCount : Z
}.

Definition NewUpdater (m : ipmatcher.Matcher) : Updater :=
  {| matcher := m; lastUpdate := 0; lastError := None; updateCount := 0 |}.

(** [updateNow]: [fetched] is what [FetchWithRetry] returned, [now] the
    clock when the update is recorded. *)
Definition updateNow (now : Time) (fetched : result (netipx.IPSet * Z))
    (u : Updater) : Updater * option error :=
  match fetched with
  | Err e =>
      ({| matcher := matcher u;
          lastUpdate := lastUpdate u;
          lastError := Some e;
          updateCount := updateCount u |}, Some e)
  | Ok (ipset, count) =>
      ({| matcher := ipmatcher.Update ipset count (matcher u);
          lastUpdate := now;
          lastError := None;
          updateCount := wrap64 (updateCount u + 1) |}, None)
  end.

Definition GetStatus (u : Updater) : Time * option error * Z * Z :=
  (lastUpdate u, lastError u, updateCount u, ipmatcher.Count (matcher u)).

End WithNetIP.
End edl.

(** ** Package [auth]: the readiness endpoint *)

Module health.
Section WithNetIP.
Context {netip : NetIP}.

Definition StatusOK : Z := 200.
Definition StatusServiceUnavailable : Z := 503.

(** [HealthHandler.Ready], answered at the instant [now]. *)
Definition Ready (now : Time) (u : edl.Updater) : Z * string :=
  let '(lastUpdate, _, _, entryCount) := edl.GetStatus u in
  if IsZero lastUpdate || (entryCount =? 0) then
    (StatusServiceUnavailable, "Not ready - EDL not yet loaded"%string)
  else if Since now lastUpdate >? 2 * Hour then
    (StatusServiceUnavailable, "Not ready - EDL data is stale"%string)
  else (StatusOK, "Ready"%string).

End WithNetIP.
End health.

(** ** Package [logs]: the leaky bucket *)

(** The two floating-point expressions of the bucket are not computed
    here.  [accrued elapsed rate] stands for the [float64] value of
    [elapsed.Seconds() * float64(rate)], which is a rational number;
    [int64_out_of_range] is what the conversion to [int64] yields for a
    value outside the 64-bit range (the language leaves it to the
    implementation); [wait_for needed rate] is the duration computed by
    [WaitTime]. *)
Class Float64 := {
  accrued : Duration -> Z -> Q;
  int64_out_of_range : Q -> Z;
  wait_for : Z -> Z -> Duration
}.

Module LeakyBucket.
Section WithFloat.
Context {float64 : Float64}.

Record t := {
  capacity : Z;
  tokens : Z;
  refillRate : Z;
  lastRefill : Time
}.

Definition NewLeakyBucket (now : Time) (capacity refillRate : Z) : t :=
  {| capacity := capacity;
     tokens := capacity;
     refillRate := refillRate;
     lastRefill := now |}.

(** The conversion [int64(x)] of a float: the fraction is discarded. *)
Definition truncate (x : Q) : Z := Z.quot (Qnum x) (Zpos (Qden x)).

Definition to_int64 (x : Q) : Z :=
  if in_int64 (truncate x) then truncate x else int64_out_of_range x.

Definition tokensToAdd (now : Time) (lb : t) : Z :=
  to_int64 (accrued (Sub now (lastRefill lb)) (refillRate lb)).

Definition refill (now : Time) (lb : t) : t :=
  let tokensToAdd := tokensToAdd now lb in
  if tokensToAdd >? 0 then
    {| capacity := capacity lb;
       tokens := MinInt64 (capacity lb) (wrap64 (tokens lb + tokensToAdd));
       refillRate := refillRate lb;
       lastRefill := now |}
  else lb.

Definition Allow (now : Time) (n : Z) (lb : t) : bool * t :=
  let lb := refill now lb in
  if tokens lb >=? n then
    (true,
     {| capacity := capacity lb;
        tokens := wrap64 (tokens lb - n);
        refillRate := refillRate lb;
        lastRefill := lastRefill lb |})
  else (false, lb).

Definition AllowN (now : Time) (n : Z) (lb : t) : bool * t := Allow now n lb.


Definition WaitTime (now : Time) (n : Z) (lb : t) : Duration * t :=
  let lb := refill now lb in
  if tokens lb >=? n then (0, lb)
  else
    let tokensNeeded := wrap64 (n - tokens lb) in
    (wait_for tokensNeeded (refillRate lb), lb).



End WithFloat.
End LeakyBucket.

(** ** Package [logs]: the ring buffer *)

Module RingBuffer.
Section WithEvent.
(** Events are held by reference; [nil] is the nil reference. *)
Context {E : Type} (nil : E).

Record t := {
  buffer : list E;
  capacity : Z;
  head : Z;
  tail : Z;
  size : Z
}.

(** [make] panics on a negative length. *)
Definition NewRingBuffer (capacity : Z) : option t :=
  if capacity <? 0 then None
  else
    Some {| buffer := replicate (Z.to_nat capacity) nil;
            capacity := capacity;
            head := 0;
            tail := 0;
            size := 0 |}.

(** Indexing panics out of range, and so does a remainder by zero. *)
Definition load (b : list E) (i : Z) : option E :=
  if i <? 0 then None else b !! Z.to_nat i.

Definition store (b : list E) (i : Z) (x : E) : option (list E) :=
  if (0 <=? i) && (i <? Z.of_nat (length b)) then Some (<[Z.to_nat i := x]> b)
  else None.

Definition remainder (a b : Z) : option Z :=
  if b =? 0 then None else Some (Z.rem a b).

Definition Add (event : E) (rb : t) : option (bool * t) :=
  if size rb >=? capacity rb then Some (false, rb)
  else
    buffer' ← store (buffer rb) (tail rb) event;
    tail' ← remainder (tail rb + 1) (capacity rb);
    Some (true,
          {| buffer := buffer';
             capacity := capacity rb;
             head := head rb;
             tail := tail';
             size := size rb + 1 |}).

(** The four statements shared by [Get], [Drain] and [DrainAll]: read the
    head slot, clear it, advance the head, shrink the size. *)
Definition take (rb : t) : option (E * t) :=
  event ← load (buffer rb) (head rb);
  buffer' ← store (buffer rb) (head rb) nil;
  head' ← remainder (head rb + 1) (capacity rb);
  Some (event,
        {| buffer := buffer';
           capacity := capacity rb;
           head := head';
           tail := tail rb;
           size := size rb - 1 |}).

Definition Get (rb : t) : option (option E * t) :=
  if size rb =? 0 then Some (None, rb)
  else '(event, rb') ← take rb; Some (Some event, rb').

(** [for i := 0; i < count; i++]. *)
Fixpoint drain_loop (count : nat) (events : list E) (rb : t)
    : option (list E * t) :=
  match count with
  | O => Some (events, rb)
  | S count' =>
      '(event, rb') ← take rb;
      drain_loop count' (events ++ [event]) rb'
  end.

Definition Drain (maxItems : Z) (rb : t) : option (list E * t) :=
  if size rb =? 0 then Some ([], rb)
  else
    let count := if size rb >? maxItems then maxItems else size rb in
    if count <? 0 then None        (* [make] with a negative capacity *)
    else drain_loop (Z.to_nat count) [] rb.

(** [for rb.size > 0]: the size drops by one each turn, so [size] turns
    are all the loop can make. *)
Fixpoint drain_while (fuel : nat) (events : list E) (rb : t)
    : option (list E * t) :=
  if size rb >? 0 then
    match fuel with
    | O => None
    | S fuel' =>
        '(event, rb') ← take rb;
        drain_while fuel' (events ++ [event]) rb'
    end
  else Some (events, rb).

Definition DrainAll (rb : t) : option (list E * t) :=
  if size rb =? 0 then Some ([], rb)
  else drain_while (Z.to_nat (size rb)) [] rb.

Definition Size (rb : t) : Z := size rb.
Definition Capacity (rb : t) : Z := capacity rb.
Definition IsFull (rb : t) : bool := size rb >=? capacity rb.
Definition IsEmpty (rb : t) : bool := size rb =? 0.

(** *** The queue a buffer stands for *)

(** The slots from [head] on, [size] of them, wrapping around. *)
Definition slot (rb : t) (i : nat) : E :=
  default nil (buffer rb !! Z.to_nat ((head rb + Z.of_nat i) mod capacity rb)).

Definition contents (rb : t) : list E :=
  map (slot rb) (seq 0 (Z.to_nat (size rb))).

(** The shape every buffer built by [NewRingBuffer] keeps. *)
Definition well_formed (rb : t) : Prop :=
  Z.of_nat (length (buffer rb)) = capacity rb
  /\ 0 <= size rb <= capacity rb
  /\ (capacity rb = 0 \/ 0 <= head rb < capacity rb)
  /\ tail rb = (head rb + size rb) mod capacity rb.

(** *** Sequences of operations *)

Inductive op :=
| OpAdd (event : E)
| OpGet
| OpDrain (maxItems : Z)
| OpDrainAll
| OpSize.

(** What a run has observed so far: the successful [Add]s and the items
    handed out by [Get], [Drain] and [DrainAll]. *)
Record tally := {
  added : Z;
  returned : Z
}.

Definition step (o : op) (st : t * tally) : option (t * tally) :=
  let '(rb, c) := st in
  match o with
  | OpAdd event =>
      '(ok, rb') ← Add event rb;
      Some (rb', {| added := added c + (if ok : bool then 1 else 0);
                    returned := returned c |})
  | OpGet =>
      '(ev, rb') ← Get rb;
      Some (rb', {| added := added c;
                    returned := returned c
                                + (match ev with Some _ => 1 | None => 0 end) |})
  | OpDrain maxItems =>
      '(events, rb') ← Drain maxItems rb;
      Some (rb', {| added := added c;
                    returned := returned c + Z.of_nat (length events) |})
  | OpDrainAll =>
      '(events, rb') ← DrainAll rb;
      Some (rb', {| added := added c;
                    returned := returned c + Z.of_nat (length events) |})
  | OpSize => Some (rb, c)
  end.

Fixpoint run (ops : list op) (st : t * tally) : option (t * tally) :=
  match ops with
  | [] => Some st
  | o :: rest => st' ← step o st; run rest st'
  end.

(** An operation the code can complete: [Drain] needs a count that is not
    negative. *)
Definition runnable (o : op) : Prop :=
  match o with
  | OpDrain maxItems => 0 <= maxItems
  | _ => True
  end.

(** What every run keeps: the shape of the buffer, its capacity, and the
    size as the difference of the two counts. *)
Definition accounted (cap : Z) (st : t * tally) : Prop :=
  well_formed (fst st)
  /\ capacity (fst st) = cap
  /\ Size (fst st) = added (snd st) - returned (snd st).

End WithEvent.
End RingBuffer.

(** ** Package [logs]: the log shipper *)

(** The [TokenProvider] interface. *)
Class TokenProvider := {
  GetToken : string;
  GetLogsURL : string
}.

Module LogShipper.
Section WithWorld.
Context {float64 : Float64} {provider : TokenProvider} {E : Type} (nil : E).

(** [eventsToJSONL] and [compressPayload], [None] being their error. *)
Variable eventsToJSONL : list E -> option string.
Variable compressPayload : string -> option string.

(** What becomes of the [k]-th request: [None] is a 2xx response, an
    error is a request that could not be made or sent, or a response
    outside 2xx.  The arguments are the body and whether it travels
    gzip-encoded. *)
Variable post : nat -> string -> bool -> option error.

Definition maxRetries : Z := 5.
Definition initialBackoff : Duration := 1 * Second.
Definition maxBackoff : Duration := 30 * Second.
Definition circuitBreakerThreshold : Z := 10.
Definition circuitBreakerTimeout : Duration := 60 * Second.

Definition wrap32 (z : Z) : Z := (z + 2 ^ 31) mod 2 ^ 32 - 2 ^ 31.

Record ShipperMetrics := {
  EventsShipped : Z;
  EventsDropped : Z;
  ShippingErrors : Z;
  BatchesSent : Z
}.

(** The shipper, together with the part of the world it acts on: the
    clock, the POSTs made and the calls of [time.Sleep]. *)
Record t := {
  bucket : LeakyBucket.t;
  buffer : RingBuffer.t (E := E);
  batchSize : Z;
  failureCount : Z;
  circuitOpen : bool;
  lastFailure : Time;
  metrics : ShipperMetrics;
  clock : Time;
  posts : nat;
  slept : list Duration
}.

Definition with_breaker (count : Z) (open : bool) (last : Time) (s : t) : t :=
  {| bucket := bucket s; buffer := buffer s; batchSize := batchSize s;
     failureCount := count; circuitOpen := open; lastFailure := last;
     metrics := metrics s; clock := clock s; posts := posts s;
     slept := slept s |}.

Definition with_bucket (b : LeakyBucket.t) (s : t) : t :=
  {| bucket := b; buffer := buffer s; batchSize := batchSize s;
     failureCount := failureCount s; circuitOpen := circuitOpen s;
     lastFailure := lastFailure s; metrics := metrics s; clock := clock s;
     posts := posts s; slept := slept s |}.

Definition with_buffer (b : RingBuffer.t) (s : t) : t :=
  {| bucket := bucket s; buffer := b; batchSize := batchSize s;
     failureCount := failureCount s; circuitOpen := circuitOpen s;
     lastFailure := lastFailure s; metrics := metrics s; clock := clock s;
     posts := posts s; slept := slept s |}.

Definition with_metrics (m : ShipperMetrics) (s : t) : t :=
  {| bucket := bucket s; buffer := buffer s; batchSize := batchSize s;
     failureCount := failureCount s; circuitOpen := circuitOpen s;
     lastFailure := lastFailure s; metrics := m; clock := clock s;
     posts := posts s; slept := slept s |}.

(** [time.Sleep]: a duration that is not positive returns at once. *)
Definition Sleep (d : Duration) (s : t) : t :=
  {| bucket := bucket s; buffer := buffer s; batchSize := batchSize s;
     failureCount := failureCount s; circuitOpen := circuitOpen s;
     lastFailure := lastFailure s; metrics := metrics s;
     clock := clock s + Z.max 0 d; posts := posts s; slept := slept s ++ [d] |}.

Definition posted (s : t) : t :=
  {| bucket := bucket s; buffer := buffer s; batchSize := batchSize s;
     failureCount := failureCount s; circuitOpen := circuitOpen s;
     lastFailure := lastFailure s; metrics := metrics s; clock := clock s;
     posts := S (posts s); slept := slept s |}.

Definition dropped (n : Z) (s : t) : t :=
  with_metrics
    {| EventsShipped := EventsShipped (metrics s);
       EventsDropped := wrap64 (EventsDropped (metrics s) + n);
       ShippingErrors := ShippingErrors (metrics s);
       BatchesSent := BatchesSent (metrics s) |} s.

Definition isCircuitOpen (s : t) : bool * t :=
  if negb (circuitOpen s) then (false, s)
  else if Since (clock s) (lastFailure s) >? circuitBreakerTimeout then
    (false, with_breaker 0 false (lastFailure s) s)
  else (true, s).

Definition recordFailure (s : t) : t :=
  let count := wrap32 (failureCount s + 1) in
  with_breaker count
    (if count >=? circuitBreakerThreshold then true else circuitOpen s)
    (clock s) s.

Definition recordSuccess (s : t) : t :=
  with_breaker 0 false (lastFailure s) s.

Definition isRetryableError (_ : error) : bool := true.

Definition send (payload : string) (s : t) : option error * t :=
  if strs.is_empty GetLogsURL then (Some "logs URL not available"%string, s)
  else if strs.is_empty GetToken then
    (Some "access token not available"%string, s)
  else
    let '(body, gzip) :=
      if 1024 <? Z.of_nat (String.length payload) then
        match compressPayload payload with
        | Some compressed => (compressed, true)
        | None => (payload, false)
        end
      else (payload, false) in
    (post (posts s) body gzip, posted s).

(** The loop of [sendWithRetry], with [left] turns to go. *)
Fixpoint retry (left : nat) (attempt : Z) (backoff : Duration)
    (lastErr : option error) (payload : string) (s : t) : option error * t :=
  match left with
  | O => (lastErr, s)
  | S left' =>
      let '(backoff, s) :=
        if attempt >? 0 then
          (MinDuration (wrap64 (backoff * 2)) maxBackoff, Sleep backoff s)
        else (backoff, s) in
      match send payload s with
      | (None, s) => (None, s)
      | (Some err, s) =>
          if negb (isRetryableError err) then (Some err, s)
          else retry left' (attempt + 1) backoff (Some err) payload s
      end
  end.

Definition sendWithRetry (payload : string) (s : t) : option error * t :=
  retry (Z.to_nat maxRetries) 0 initialBackoff None payload s.

(** [for _, event := range events]: back into the overflow buffer, or
    counted as dropped. *)
Fixpoint rebuffer (events : list E) (s : t) : option t :=
  match events with
  | [] => Some s
  | event :: rest =>
      '(ok, b) ← RingBuffer.Add event (buffer s);
      rebuffer rest
        (if ok : bool then with_buffer b s else dropped 1 (with_buffer b s))
  end.

(** [shipBatch]; [None] is a panic of the ring buffer. *)
Definition shipBatch (events : list E) (s : t) : option t :=
  let '(open, s) := isCircuitOpen s in
  if open then rebuffer events s
  else
    let '(waitTime, b) := LeakyBucket.WaitTime (clock s) 1 (bucket s) in
    let s := with_bucket b s in
    let s := if waitTime >? 0 then Sleep waitTime s else s in
    let '(ok, b) := LeakyBucket.Allow (clock s) 1 (bucket s) in
    let s := with_bucket b s in
    if negb ok then rebuffer events s
    else
      match eventsToJSONL events with
      | None => Some (dropped (Z.of_nat (length events)) s)
      | Some payload =>
          match sendWithRetry payload s with
          | (Some err, s) =>
              let s := recordFailure s in
              let s :=
                with_metrics
                  {| EventsShipped := EventsShipped (metrics s);
                     EventsDropped := EventsDropped (metrics s);
                     ShippingErrors := wrap64 (ShippingErrors (metrics s) + 1);
                     BatchesSent := BatchesSent (metrics s) |} s in
              rebuffer events s
          | (None, s) =>
              let s := recordSuccess s in
              Some
                (with_metrics
                   {| EventsShipped :=
                        wrap64 (EventsShipped (metrics s)
                                + Z.of_nat (length events));
                      EventsDropped := EventsDropped (metrics s);
                      ShippingErrors := ShippingErrors (metrics s);
                      BatchesSent := wrap64 (BatchesSent (metrics s) + 1) |} s)
          end
      end.

(** The pauses between the attempts of [sendWithRetry]. *)
Definition backoffs : list Duration :=
  [1 * Second; 2 * Second; 4 * Second; 8 * Second].

(** The shipper as the attempt of index [j] finds it, the attempts before
    it having failed: each was followed by its pause. *)
Fixpoint before_attempt (payload : string) (j : nat) (s : t) : t :=
  match j with
  | O => s
  | S j' =>
      Sleep (nth j' backoffs 0) (snd (send payload (before_attempt payload j' s)))
  end.


(** The room left in the overflow buffer. *)
Definition room (s : t) : nat :=
  Z.to_nat (RingBuffer.capacity (buffer s) - RingBuffer.size (buffer s)).



End WithWorld.
End LogShipper.

(** ** Package [api]: the token manager *)

Module api.

Record BootstrapResponse := {
  AccessToken : string;
  ExpiresIn : Z;
  ConfigURL : string;
  LogsURL : string
}.

(** What [BootstrapClient.Bootstrap] returns: a response, a
    [PermanentError] (HTTP 410) or any other error. *)
Inductive BootstrapResult :=
| Bootstrapped (resp : BootstrapResponse)
| PermanentError (message : string)
| OtherError (message : string).

Definition IsPermanentError (r : BootstrapResult) : bool :=
  match r with PermanentError _ => true | _ => false end.

Record TokenManager := {
  currentToken : string;
  tokenExpiry : Time;
  configURL : string;
  logsURL : string;
  deploymentDeleted : bool
}.

Definition NewTokenManager : TokenManager :=
  {| currentToken := EmptyString; tokenExpiry := 0;
     configURL := EmptyString; logsURL := EmptyString;
     deploymentDeleted := false |}.

Definition latch (tm : TokenManager) : TokenManager :=
  {| currentToken := currentToken tm; tokenExpiry := tokenExpiry tm;
     configURL := configURL tm; logsURL := logsURL tm;
     deploymentDeleted := true |}.

Definition store (now : Time) (resp : BootstrapResponse) (tm : TokenManager)
    : TokenManager :=
  {| currentToken := AccessToken resp;
     tokenExpiry := now + wrap64 (ExpiresIn resp * Second);
     configURL := ConfigURL resp;
     logsURL := LogsURL resp;
     deploymentDeleted := deploymentDeleted tm |}.

Definition Initialize (now : Time) (r : BootstrapResult) (tm : TokenManager)
    : TokenManager * option error :=
  match r with
  | Bootstrapped resp => (store now resp tm, None)
  | PermanentError msg =>
      (latch tm, Some ("initial bootstrap failed: permanent error: " ++ msg))
  | OtherError msg => (tm, Some ("initial bootstrap failed: " ++ msg))
  end%string.

Definition refresh (now : Time) (r : BootstrapResult) (tm : TokenManager)
    : TokenManager * option error :=
  match r with
  | Bootstrapped resp => (store now resp tm, None)
  | PermanentError msg => (latch tm, Some ("permanent error: " ++ msg))
  | OtherError msg => (tm, Some ("token refresh failed: " ++ msg))
  end%string.

Definition IsDeploymentDeleted (tm : TokenManager) : bool :=
  deploymentDeleted tm.

(** [GetTokenWithMinValidity]: [r] is what the bootstrap call returns if
    the refresh is made. *)
Definition GetTokenWithMinValidity (now : Time) (minValidity : Duration)
    (r : BootstrapResult) (tm : TokenManager)
    : TokenManager * (string * option error) :=
  let timeRemaining := Sub (tokenExpiry tm) now in
  if timeRemaining >? minValidity then (tm, (currentToken tm, None))
  else
    let '(tm', err) := refresh now r tm in
    (tm', (currentToken tm', err)).

Definition ForceRefresh (now : Time) (r : BootstrapResult) (tm : TokenManager)
    : TokenManager * option error :=
  refresh now r tm.

(** One firing of the timer in the goroutine of [StartRefreshLoop]: the
    manager afterwards, and whether the loop goes on. *)
Definition fire (now : Time) (r : BootstrapResult) (tm : TokenManager)
    : TokenManager * bool :=
  if deploymentDeleted tm then (tm, false)
  else (fst (refresh now r tm), true).

(** [StartRefreshLoop]: the goroutine does not enter the loop when the
    deployment is deleted; otherwise it serves the firings in turn until
    it returns. *)
Fixpoint loop (firings : list (Time * BootstrapResult)) (tm : TokenManager)
    : TokenManager :=
  match firings with
  | [] => tm
  | (now, r) :: rest =>
      let '(tm', go_on) := fire now r tm in
      if go_on then loop rest tm' else tm'
  end.

Definition StartRefreshLoop (firings : list (Time * BootstrapResult))
    (tm : TokenManager) : TokenManager :=
  if deploymentDeleted tm then tm else loop firings tm.

(** The operations that act on a manager.  [OpLoop] stands for a refresh
    loop that is already running and serves further firings, so that the
    calls of other operations may fall between its firings. *)
Inductive op :=
| OpInitialize (now : Time) (r : BootstrapResult)
| OpRefresh (now : Time) (r : BootstrapResult)
| OpStartRefreshLoop (firings : list (Time * BootstrapResult))
| OpLoop (firings : list (Time * BootstrapResult))
| OpGetTokenWithMinValidity (now : Time) (minValidity : Duration)
    (r : BootstrapResult)
| OpForceRefresh (now : Time) (r : BootstrapResult).

Definition apply (o : op) (tm : TokenManager) : TokenManager :=
  match o with
  | OpInitialize now r => fst (Initialize now r tm)
  | OpRefresh now r => fst (refresh now r tm)
  | OpStartRefreshLoop firings => StartRefreshLoop firings tm
  | OpLoop firings => loop firings tm
  | OpGetTokenWithMinValidity now d r =>
      fst (GetTokenWithMinValidity now d r tm)
  | OpForceRefresh now r => fst (ForceRefresh now r tm)
  end.

Definition run (ops : list op) (tm : TokenManager) : TokenManager :=
  fold_left (fun tm o => apply o tm) ops tm.

End api.

(** ** Instances to run the model on

    A dotted-quad IPv4 fragment of [net/netip], exact arithmetic for the
    floating-point expressions, and a token provider that holds a token
    and a URL.  They serve to evaluate the definitions on concrete inputs;
    the theorems of Part II hold for every instance. *)

Module sample.

Definition digit (c : ascii) : option Z :=
  let n := Z.of_nat (nat_of_ascii c) in
  if (48 <=? n) && (n <=? 57) then Some (n - 48) else None.

Fixpoint decimal (acc : Z) (s : string) : option Z :=
  match s with
  | EmptyString => Some acc
  | String c s' => d ← digit c; decimal (10 * acc + d) s'
  end.

(** A decimal field: one to three digits, no leading zero, at most [max]. *)
Definition field (max : Z) (s : string) : option Z :=
  match s with
  | EmptyString => None
  | String c rest =>
      if Ascii.eqb c "0" && negb (strs.is_empty rest) then None
      else if (3 <? String.length s)%nat then None
      else v ← decimal 0 s; if v <=? max then Some v else None
  end.

Definition parse_ipv4 (s : string) : option Z :=
  match strs.Split s "." with
  | [a; b; c; d] =>
      a ← field 255 a; b ← field 255 b; c ← field 255 c; d ← field 255 d;
      Some (((a * 256 + b) * 256 + c) * 256 + d)
  | _ => None
  end.

Definition parse_prefix4 (s : string) : option (Z * Z) :=
  match strs.Split s "/" with
  | [ip; bits] => ip ← parse_ipv4 ip; bits ← field 32 bits; Some (ip, bits)
  | _ => None
  end.

Definition prefix4_contains (p : Z * Z) (ip : Z) : bool :=
  Z.shiftr ip (32 - snd p) =? Z.shiftr (fst p) (32 - snd p).

Definition ipv4 : NetIP :=
  {| Addr := Z;
     Prefix := Z * Z;
     ParseAddr := parse_ipv4;
     ParsePrefix := parse_prefix4;
     PrefixContains := prefix4_contains;
     AddrEqb := Z.eqb;
     ParseAddr_empty := eq_refl |}.

(** [elapsed * rate / 10^9] and [needed / rate] seconds, computed without
    rounding. *)
Definition exact : Float64 :=
  {| accrued := fun elapsed rate => (inject_Z (elapsed * rate) / inject_Z Second)%Q;
     int64_out_of_range := fun _ => min_int64;
     wait_for := fun needed rate => Z.quot (needed * Second) rate |}.

Definition provider : TokenProvider :=
  {| GetToken := "token"; GetLogsURL := "https://logs.example/ingest" |}.

(** Header names are taken as they are, and the remote address is split
    at its first colon. *)
Definition canonical (key : string) : string := key.

Definition split_host_port (hostport : string) : option (string * string) :=
  match strs.Split hostport ":" with
  | [host; port] => Some (host, port)
  | _ => None
  end.

(** The set [10.0.0.0/8], a handler for it in each mode, and a request
    that carries its client address in [X-Forwarded-For]. *)
Definition ten_slash_eight : ipmatcher.Matcher (netip := ipv4) :=
  ipmatcher.Update (netip := ipv4) [netipx.ItemPrefix (netip := ipv4) (167772160, 8)] 1
    (ipmatcher.New (netip := ipv4)).

Definition handler (edlMode : string) (enabled : bool)
    : auth.Handler (netip := ipv4) :=
  auth.NewHandler (netip := ipv4) ten_slash_eight edlMode enabled.

Definition request (forwarded : string) : auth.Request :=
  {| auth.Header := {[ "X-Forwarded-For"%string := [forwarded] ]};
     auth.RemoteAddr := "192.0.2.1:4711" |}.

Definition serve (h : auth.Handler (netip := ipv4)) (r : auth.Request)
    : auth.Response :=
  auth.ServeHTTP (netip := ipv4) canonical split_host_port h None r.


(** Some instant of the year 2026, in nanoseconds since the zero instant. *)
Definition an_instant : Time := 63900000000 * Second.

(** A ring buffer of two slots for events named by strings, the empty
    name standing for the nil reference. *)
Definition two_slots : RingBuffer.t (E := string) :=
  {| RingBuffer.buffer := [EmptyString; EmptyString];
     RingBuffer.capacity := 2;
     RingBuffer.head := 0;
     RingBuffer.tail := 0;
     RingBuffer.size := 0 |}.

Definition no_tally : RingBuffer.tally :=
  {| RingBuffer.added := 0; RingBuffer.returned := 0 |}.

Definition ring_ops : list (RingBuffer.op (E := string)) :=
  [RingBuffer.OpAdd "a"; RingBuffer.OpAdd "b"; RingBuffer.OpAdd "c";
   RingBuffer.OpDrain 1; RingBuffer.OpAdd "d"; RingBuffer.OpSize]%string.

(** The buffer and the counts after [ring_ops]. *)
Definition two_slots_later : RingBuffer.t (E := string) :=
  {| RingBuffer.buffer := ["d"; "b"]%string;
     RingBuffer.capacity := 2;
     RingBuffer.head := 1;
     RingBuffer.tail := 1;
     RingBuffer.size := 2 |}.

Definition tally_later : RingBuffer.tally :=
  {| RingBuffer.added := 3; RingBuffer.returned := 1 |}.

(** A bucket of 1000 tokens refilled at 100 tokens a second. *)
Definition bucket : LeakyBucket.t :=
  LeakyBucket.NewLeakyBucket an_instant 1000 100.

(** The same bucket with ten tokens left. *)
Definition drained_bucket : LeakyBucket.t :=
  {| LeakyBucket.capacity := 1000;
     LeakyBucket.tokens := 10;
     LeakyBucket.refillRate := 100;
     LeakyBucket.lastRefill := an_instant |}.


(** A shipper that has just been made, and the endpoints it may face: one
    that answers every POST with an error, one that accepts every POST. *)
Definition shipper : LogShipper.t (E := string) :=
  {| LogShipper.bucket := bucket;
     LogShipper.buffer := two_slots;
     LogShipper.batchSize := 100;
     LogShipper.failureCount := 0;
     LogShipper.circuitOpen := false;
     LogShipper.lastFailure := 0;
     LogShipper.metrics :=
       {| LogShipper.EventsShipped := 0; LogShipper.EventsDropped := 0;
          LogShipper.ShippingErrors := 0; LogShipper.BatchesSent := 0 |};
     LogShipper.clock := an_instant;
     LogShipper.posts := 0;
     LogShipper.slept := [] |}.

Definition failing (k : nat) (body : string) (gzip : bool) : option error :=
  Some "server error: "%string.

Definition accepting (k : nat) (body : string) (gzip : bool) : option error :=
  None.

Definition jsonl (events : list string) : option string :=
  Some (String.concat strs.newline events).

Definition gzip (payload : string) : option string := Some payload.

Definition send_all (endpoint : nat -> string -> bool -> option error)
    (payload : string) (s : LogShipper.t (E := string))
    : option error * LogShipper.t (E := string) :=
  LogShipper.sendWithRetry (provider := provider) gzip endpoint payload s.

Definition ship (endpoint : nat -> string -> bool -> option error)
    (events : list string) (s : LogShipper.t (E := string))
    : option (LogShipper.t (E := string)) :=
  LogShipper.shipBatch (float64 := exact) (provider := provider) jsonl gzip endpoint
    events s.

(** The shipper after [n] shipments of one event to the failing
    endpoint. *)
Fixpoint after_failures (n : nat) : LogShipper.t (E := string) :=
  match n with
  | O => shipper
  | S n' =>
      default (after_failures n') (ship failing ["e"%string] (after_failures n'))
  end.

(** A manager whose bootstrap was answered 410. *)
Definition gone : api.TokenManager :=
  fst (api.Initialize an_instant (api.PermanentError "gone") api.NewTokenManager).

Definition fresh_token : api.BootstrapResponse :=
  {| api.AccessToken := "token";
     api.ExpiresIn := 3600;
     api.ConfigURL := "https://control.example/config";
     api.LogsURL := "https://logs.example/ingest" |}.

Definition manager_ops : list api.op :=
  [api.OpInitialize an_instant (api.Bootstrapped fresh_token);
   api.OpForceRefresh (an_instant + Minute) (api.Bootstrapped fresh_token);
   api.OpStartRefreshLoop
     [(an_instant + Hour, api.Bootstrapped fresh_token);
      (an_instant + 2 * Hour, api.OtherError "bootstrap failed: ")];
   api.OpLoop [(an_instant + 150 * Minute, api.Bootstrapped fresh_token)];
   api.OpGetTokenWithMinValidity (an_instant + 3 * Hour) Minute
     (api.Bootstrapped fresh_token);
   api.OpRefresh (an_instant + 4 * Hour) (api.OtherError "bootstrap failed: ")].



(** An updater whose only update, at the instant [at], fetched [body]. *)
Definition updated (at_time : Time) (body : string) : edl.Updater (netip := ipv4) :=
  fst (edl.updateNow (netip := ipv4) at_time (edl.parseEDL (netip := ipv4) body)
         (edl.NewUpdater (netip := ipv4) (ipmatcher.New (netip := ipv4)))).


End sample.

(** ** Package [utils]: the environment *)

(** [os.Getenv] and the parsers of [strconv] and [time]. *)
Class Env := {
  Getenv : string -> string;
  Atoi : string -> option Z;
  ParseInt : string -> option Z;
  ParseDuration : string -> option Duration;
  ParseBool : string -> option bool
}.

Module utils.
Section WithEnv.
Context {env : Env}.

Definition GetEnv (key defaultValue : string) : string :=
  if negb (strs.is_empty (Getenv key)) then Getenv key else defaultValue.

Definition GetEnvAsInt (key : string) (defaultValue : Z) : Z :=
  let strVal := GetEnv key EmptyString in
  if strs.is_empty strVal then defaultValue
  else match Atoi strVal with Some intVal => intVal | None => defaultValue end.

Definition GetEnvAsInt64 (key : string) (defaultValue : Z) : Z :=
  let strVal := GetEnv key EmptyString in
  if strs.is_empty strVal then defaultValue
  else match ParseInt strVal with Some intVal => intVal | None => defaultValue end.

Definition GetEnvAsDuration (key : string) (defaultValue : Duration)
    : Duration :=
  let strVal := GetEnv key EmptyString in
  if strs.is_empty strVal then defaultValue
  else
    match ParseDuration strVal with
    | Some duration => duration
    | None => defaultValue
    end.

Definition GetEnvAsBool (key : string) (defaultValue : bool) : bool :=
  let strVal := GetEnv key EmptyString in
  if strs.is_empty strVal then defaultValue
  else match ParseBool strVal with Some boolVal => boolVal | None => defaultValue end.

End WithEnv.
End utils.

(** ** Package [api]: the bootstrap client and the config client *)

(** The body of a response as its reader delivers it: the bytes read, and
    the error that ends the reading when it is not the end of the body. *)
Record Body := {
  read : string;
  failure : option error
}.

(** What [http.Client.Do] comes to: no response, or a response with its
    status and body. *)
Inductive Exchange :=
| NoResponse (e : error)
| Response (status : Z) (body : Body).

Module client.

Record BootstrapClaims := {
  Issuer : string;
  WorkspaceID : string;
  DeploymentID : string;
  ComponentType : string
}.

Record BootstrapRequest := {
  ReqBootstrapToken : string;
  ReqComponentType : string;
  ReqComponentVersion : string;
  ReqMachineID : string;
  ReqScopes : list string
}.

Record EDLConfig := {
  Purpose : string;
  UpdateFrequencySeconds : Z;
  Combined : list string;
  Enabled : bool
}.

Record ErrorResponse := {
  Error : string;
  Code : string
}.

(** The control plane and the libraries the two clients go through: the
    JWT parser without verification (the claims it has filled in, and its
    error), the protected machine identifier, [http.NewRequestWithContext]
    (method and URL), [http.Client.Do] (method, URL, bearer token and
    request body), and the JSON codecs. *)
Class ControlPlane := {
  ParseUnverified : string -> BootstrapClaims * option error;
  ProtectedID : string -> result string;
  NewRequest : string -> string -> option error;
  Do : string -> string -> string -> string -> Exchange;
  marshalRequest : BootstrapRequest -> result string;
  decodeBootstrapResponse : Body -> result api.BootstrapResponse;
  decodeErrorResponse : string -> option ErrorResponse;
  decodeEDLConfig : string -> result EDLConfig
}.

Section WithControlPlane.
Context {plane : ControlPlane}.

Definition StatusOK : Z := 200.
Definition StatusForbidden : Z := 403.
Definition StatusNotFound : Z := 404.
Definition StatusGone : Z := 410.

(** [strings.TrimSuffix]. *)
Definition TrimSuffix (s suffix : string) : string :=
  if String.prefix (strs.rev_string suffix) (strs.rev_string s) then
    String.substring 0 (String.length s - String.length suffix) s
  else s.

(** [io.ReadAll(io.LimitReader(body, 1024))], its error dropped. *)
Definition limited (body : Body) : string :=
  String.substring 0 1024 (read body).

Definition parseBootstrapToken (token : string)
    : result (string * string * string) :=
  match ParseUnverified token with
  | (_, Some e) => Err ("failed to parse bootstrap token: " ++ e)
  | (claims, None) =>
      if strs.is_empty (Issuer claims) then
        Err "bootstrap token missing issuer"
      else if strs.is_empty (ComponentType claims) then
        Err "bootstrap token missing component_type"
      else if strs.is_empty (DeploymentID claims) then
        Err "bootstrap token missing deployment_id"
      else Ok (Issuer claims, ComponentType claims, DeploymentID claims)
  end%string.

(** The first half of [Bootstrap]: the URL and the body of the request,
    or the error that ends the call before any request is sent. *)
Definition bootstrapRequest (bootstrapToken : string)
    : result (string * string) :=
  match parseBootstrapToken bootstrapToken with
  | Err e => Err e
  | Ok (issuer, componentType, deploymentID) =>
      match ProtectedID deploymentID with
      | Err e => Err ("failed to get protected machine ID: " ++ e)
      | Ok machineID =>
          let bootstrapURL := TrimSuffix issuer "/" ++ "/api/v1/edl/bootstrap" in
          let req :=
            {| ReqBootstrapToken := bootstrapToken;
               ReqComponentType := componentType;
               ReqComponentVersion := "1.0.0";
               ReqMachineID := machineID;
               ReqScopes := ["edl_config"; "edl_logs"] |} in
          match marshalRequest req with
          | Err e => Err ("failed to marshal bootstrap request: " ++ e)
          | Ok body =>
              match NewRequest "POST" bootstrapURL with
              | Some e => Err ("failed to create bootstrap request: " ++ e)
              | None => Ok (bootstrapURL, body)
              end
          end
      end
  end%string.

(** [BootstrapClient.Bootstrap]. *)
Definition Bootstrap (bootstrapToken : string) : api.BootstrapResult :=
  match bootstrapRequest bootstrapToken with
  | Err e => api.OtherError e
  | Ok (bootstrapURL, body) =>
      match Do "POST" bootstrapURL EmptyString body with
      | NoResponse e => api.OtherError ("bootstrap request failed: " ++ e)
      | Response status respBody =>
          if negb (Z.eqb status StatusOK) then
            if Z.eqb status StatusGone then
              api.PermanentError (limited respBody)
            else api.OtherError ("bootstrap failed: " ++ limited respBody)
          else
            match decodeBootstrapResponse respBody with
            | Err e =>
                api.OtherError ("failed to decode bootstrap response: " ++ e)
            | Ok bootstrapResp => api.Bootstrapped bootstrapResp
            end
      end
  end%string.

(** What [GetEDLConfig] returns: a config, a [PermanentError], or any
    other error. *)
Inductive ConfigResult :=
| Config (c : EDLConfig)
| ConfigGone (message : string)
| ConfigError (e : error).

(** The config returned for a deployment that is disabled or deleted. *)
Definition allow_all : EDLConfig :=
  {| Purpose := "disabled";
     UpdateFrequencySeconds := 0;
     Combined := [];
     Enabled := false |}.

Definition disabled_code (body : string) : bool :=
  match decodeErrorResponse body with
  | Some errResp =>
      String.eqb (Code errResp) "DEPLOYMENT_DISABLED"
      || String.eqb (Code errResp) "DEPLOYMENT_DELETED"
  | None => false
  end.

(** [ConfigClient.GetEDLConfig], on the manager as the client reads it. *)
Definition GetEDLConfig (tm : api.TokenManager) : ConfigResult :=
  let configURL := api.configURL tm in
  if strs.is_empty configURL then ConfigError "config URL not available"
  else
    match NewRequest "GET" configURL with
    | Some e => ConfigError ("failed to create config request: " ++ e)
    | None =>
        let token := api.currentToken tm in
        if strs.is_empty token then ConfigError "no access token available"
        else
          match Do "GET" configURL token EmptyString with
          | NoResponse e => ConfigError ("config request failed: " ++ e)
          | Response status respBody =>
              match failure respBody with
              | Some e => ConfigError ("failed to read response body: " ++ e)
              | None =>
                  let bodyBytes := read respBody in
                  if Z.eqb status StatusNotFound || Z.eqb status StatusForbidden
                     || Z.eqb status StatusGone then
                    if disabled_code bodyBytes then Config allow_all
                    else if Z.eqb status StatusGone then ConfigGone bodyBytes
                    else ConfigError ("config request failed: " ++ bodyBytes)
                  else if negb (Z.eqb status StatusOK) then
                    ConfigError ("config request failed: " ++ bodyBytes)
                  else
                    match decodeEDLConfig bodyBytes with
                    | Err e =>
                        ConfigError ("failed to decode config response: " ++ e)
                    | Ok config =>
                        Config {| Purpose := Purpose config;
                                  UpdateFrequencySeconds :=
                                    UpdateFrequencySeconds config;
                                  Combined := Combined config;
                                  Enabled := true |}
                    end
              end
          end
    end%string.

End WithControlPlane.
End client.

(** ** Package [config] *)

Module config.
Section WithControlPlane.
Context {env : Env} {plane : client.ControlPlane}.

Record Config := {
  BootstrapToken : string;
  EDLURL : string;
  EDLMode : string;
  UpdateFrequency : Duration;
  Port : string;
  MetricsPort : string;
  LogLevel : string;
  MaxRetryAttempts : Z;
  RetryDelay : Duration;
  TokenManager : option api.TokenManager;    (* [None] is the nil pointer *)
  DeploymentEnabled : bool;
  LogBatchSize : Z;
  LogFlushInterval : Duration;
  LeakyBucketCapacity : Z;
  LeakyBucketRefillRate : Z;
  LogBufferSize : Z;
  DeviceID : string;
  IPHeaderOverride : string
}.

Definition LoadFromEnv : Config :=
  {| BootstrapToken := utils.GetEnv "ELLIO_BOOTSTRAP" "";
     EDLURL := EmptyString;
     EDLMode := EmptyString;
     UpdateFrequency := 0;
     Port := utils.GetEnv "PORT" "8080";
     MetricsPort := utils.GetEnv "METRICS_PORT" "9090";
     LogLevel := utils.GetEnv "LOG_LEVEL" "info";
     MaxRetryAttempts := utils.GetEnvAsInt "MAX_RETRY_ATTEMPTS" 3;
     RetryDelay := utils.GetEnvAsDuration "RETRY_DELAY" (30 * Second);
     TokenManager := None;
     DeploymentEnabled := false;
     LogBatchSize := utils.GetEnvAsInt "LOG_BATCH_SIZE" 100;
     LogFlushInterval := utils.GetEnvAsDuration "LOG_FLUSH_INTERVAL" (10 * Second);
     LeakyBucketCapacity := utils.GetEnvAsInt64 "LEAKY_BUCKET_CAPACITY" 1000;
     LeakyBucketRefillRate := utils.GetEnvAsInt64 "LEAKY_BUCKET_REFILL_RATE" 100;
     LogBufferSize := utils.GetEnvAsInt "LOG_BUFFER_SIZE" 10000;
     DeviceID := EmptyString;
     IPHeaderOverride := utils.GetEnv "IP_HEADER_OVERRIDE" "" |}.

(** The assignments to the four fields of the policy, to the token
    manager and to the device identifier. *)
Definition with_policy (enabled : bool) (mode : string) (period : Duration)
    (url : string) (cfg : Config) : Config :=
  {| BootstrapToken := BootstrapToken cfg; EDLURL := url; EDLMode := mode;
     UpdateFrequency := period; Port := Port cfg;
     MetricsPort := MetricsPort cfg; LogLevel := LogLevel cfg;
     MaxRetryAttempts := MaxRetryAttempts cfg;
     RetryDelay := RetryDelay cfg; TokenManager := TokenManager cfg;
     DeploymentEnabled := enabled; LogBatchSize := LogBatchSize cfg;
     LogFlushInterval := LogFlushInterval cfg;
     LeakyBucketCapacity := LeakyBucketCapacity cfg;
     LeakyBucketRefillRate := LeakyBucketRefillRate cfg;
     LogBufferSize := LogBufferSize cfg; DeviceID := DeviceID cfg;
     IPHeaderOverride := IPHeaderOverride cfg |}.

Definition with_manager (tm : api.TokenManager) (cfg : Config) : Config :=
  {| BootstrapToken := BootstrapToken cfg; EDLURL := EDLURL cfg;
     EDLMode := EDLMode cfg; UpdateFrequency := UpdateFrequency cfg;
     Port := Port cfg; MetricsPort := MetricsPort cfg;
     LogLevel := LogLevel cfg;
     MaxRetryAttempts := MaxRetryAttempts cfg; RetryDelay := RetryDelay cfg;
     TokenManager := Some tm; DeploymentEnabled := DeploymentEnabled cfg;
     LogBatchSize := LogBatchSize cfg;
     LogFlushInterval := LogFlushInterval cfg;
     LeakyBucketCapacity := LeakyBucketCapacity cfg;
     LeakyBucketRefillRate := LeakyBucketRefillRate cfg;
     LogBufferSize := LogBufferSize cfg; DeviceID := DeviceID cfg;
     IPHeaderOverride := IPHeaderOverride cfg |}.

Definition with_device (id : string) (cfg : Config) : Config :=
  {| BootstrapToken := BootstrapToken cfg; EDLURL := EDLURL cfg;
     EDLMode := EDLMode cfg; UpdateFrequency := UpdateFrequency cfg;
     Port := Port cfg; MetricsPort := MetricsPort cfg;
     LogLevel := LogLevel cfg;
     MaxRetryAttempts := MaxRetryAttempts cfg; RetryDelay := RetryDelay cfg;
     TokenManager := TokenManager cfg;
     DeploymentEnabled := DeploymentEnabled cfg;
     LogBatchSize := LogBatchSize cfg;
     LogFlushInterval := LogFlushInterval cfg;
     LeakyBucketCapacity := LeakyBucketCapacity cfg;
     LeakyBucketRefillRate := LeakyBucketRefillRate cfg;
     LogBufferSize := LogBufferSize cfg; DeviceID := id;
     IPHeaderOverride := IPHeaderOverride cfg |}.

Definition setDeploymentDisabled (cfg : Config) : Config :=
  with_policy false "disabled" (1 * Hour) EmptyString cfg.

Definition applyEDLConfig (edlConfig : client.EDLConfig) (cfg : Config)
    : Config :=
  if negb (client.Enabled edlConfig) then setDeploymentDisabled cfg
  else
    let mode :=
      if String.eqb (client.Purpose edlConfig) "allowlist" then "allowlist"
      else "blocklist" in
    let period := wrap64 (client.UpdateFrequencySeconds edlConfig * Second) in
    let period := if period <=? 0 then 5 * Minute else period in
    let url :=
      match client.Combined edlConfig with
      | first :: _ => first
      | [] => EDLURL cfg
      end in
    with_policy true mode period url cfg.

(** [parseBootstrapToken] of the package: the device identifier, from
    the deployment the parser has read in the token; the error of the
    parser is dropped. *)
Definition parseBootstrapToken (cfg : Config) : Config :=
  let claims := fst (client.ParseUnverified (BootstrapToken cfg)) in
  match client.ProtectedID (client.DeploymentID claims) with
  | Ok machineID => with_device machineID cfg
  | Err _ => with_device "unknown" cfg
  end.

(** [api.IsPermanentError] on the error that [Initialize] returns: the
    error is made by [errors.New] from the message of the bootstrap
    error, and the assertion of the type [*PermanentError] fails on
    it. *)
Definition wrapped_is_permanent (_ : error) : bool := false.

(** [InitializeServices] at the instant [now]: the config afterwards and
    the error returned.  [firings] are the firings of the refresh loop
    that the goroutine started by [StartRefreshLoop] serves before the
    config client reads the manager. *)
Definition InitializeServices (now : Time)
    (firings : list (Time * api.BootstrapResult)) (cfg : Config)
    : Config * option error :=
  if strs.is_empty (BootstrapToken cfg) then
    (cfg, Some "ELLIO_BOOTSTRAP token is required"%string)
  else
    let cfg := parseBootstrapToken cfg in
    let '(tm, err) :=
      api.Initialize now (client.Bootstrap (BootstrapToken cfg))
        api.NewTokenManager in
    let cfg := with_manager tm cfg in
    match err with
    | Some e =>
        if wrapped_is_permanent e then (setDeploymentDisabled cfg, None)
        else (cfg, Some ("failed to bootstrap: " ++ e)%string)
    | None =>
        let tm := api.StartRefreshLoop firings tm in
        let cfg := with_manager tm cfg in
        match client.GetEDLConfig tm with
        | client.ConfigGone _ => (setDeploymentDisabled cfg, None)
        | client.ConfigError e =>
            (cfg, Some ("failed to fetch EDL config: " ++ e)%string)
        | client.Config edlConfig => (applyEDLConfig edlConfig cfg, None)
        end
    end.

(** [Load]. *)
Definition Load (now : Time) (firings : list (Time * api.BootstrapResult))
    : result Config :=
  match InitializeServices now firings LoadFromEnv with
  | (_, Some e) => Err e
  | (cfg, None) => Ok cfg
  end.

(** The two policies a configuration comes out of the startup with. *)
Definition disabled_policy (cfg : Config) : Prop :=
  DeploymentEnabled cfg = false
  /\ EDLMode cfg = "disabled"%string
  /\ UpdateFrequency cfg = 1 * Hour
  /\ EDLURL cfg = EmptyString.

Definition enabled_policy (cfg : Config) : Prop :=
  DeploymentEnabled cfg = true
  /\ (EDLMode cfg = "allowlist"%string \/ EDLMode cfg = "blocklist"%string)
  /\ 0 < UpdateFrequency cfg <= max_int64.

Inductive DeploymentState :=
| DeploymentActive
| DeploymentDisabled
| DeploymentDeleted.

Definition IsActive (s : DeploymentState) : bool :=
  match s with DeploymentActive => true | _ => false end.

Definition AllowsAllTraffic (s : DeploymentState) : bool :=
  match s with DeploymentActive => false | _ => true end.

Definition GetDeploymentState (cfg : Config) : DeploymentState :=
  if negb (DeploymentEnabled cfg) then
    match TokenManager cfg with
    | Some tm =>
        if api.IsDeploymentDeleted tm then DeploymentDeleted
        else DeploymentDisabled
    | None => DeploymentDisabled
    end
  else DeploymentActive.

End WithControlPlane.
End config.

(** ** Package [main]: the handler of the process *)

Module main.
Section WithNetIP.
Context {netip : NetIP}.

(** [initAuthHandler], the shipper itself left aside: whether one is
    attached to the handler.  A nil token manager makes [GetLogsURL]
    panic. *)
Definition initAuthHandler (cfg : config.Config) (matcher : ipmatcher.Matcher)
    : option auth.Handler :=
  let handler :=
    auth.NewHandler matcher (config.EDLMode cfg) (config.DeploymentEnabled cfg) in
  let handler :=
    if negb (strs.is_empty (config.IPHeaderOverride cfg)) then
      auth.SetIPHeaderOverride (config.IPHeaderOverride cfg) handler
    else handler in
  tm ← config.TokenManager cfg;
  if negb (strs.is_empty (api.logsURL tm)) then
    Some (auth.SetDeviceID (config.DeviceID cfg) (auth.SetLogShipper handler))
  else Some handler.

End WithNetIP.
End main.

(** ** Package [edl]: the fetcher *)

Module fetcher.
Section WithNetIP.
Context {netip : NetIP}.

(** [http.NewRequestWithContext] for the URL of the list; the exchange of
    the attempt of index [k]; and the context: [Done k] is what
    [ctx.Err()] returns when the context is done before the wait that
    precedes the attempt of index [k] is over. *)
Variable NewRequest : string -> option error.
Variable Do : nat -> string -> Exchange.
Variable Done : nat -> option error.

Definition StatusOK : Z := 200.

(** [parseEDL] on the body of a response: a reader that fails ends the
    scan, and [scanner.Err] reports its error unless a line has been too
    long before. *)
Definition parseEDL (body : Body) : result (netipx.IPSet * Z) :=
  match edl.parseEDL (read body), failure body with
  | Err e, _ => Err e
  | Ok _, Some e => Err e
  | Ok parsed, None => Ok parsed
  end.

(** [fetch], called for the attempt of index [k]. *)
Definition fetch (cfg : config.Config) (k : nat)
    : result (netipx.IPSet * Z) :=
  match NewRequest (config.EDLURL cfg) with
  | Some e => Err e
  | None =>
      match Do k (config.EDLURL cfg) with
      | NoResponse e => Err e
      | Response status body =>
          if negb (status =? StatusOK) then
            Err ("unexpected status: " ++ client.limited body)%string
          else parseEDL body
      end
  end.

(** The three values [FetchWithRetry] returns; [None] is nil. *)
Record Fetched := {
  ipset : option netipx.IPSet;
  count : Z;
  err : option error
}.

(** The loop of [FetchWithRetry] from the attempt of index [attempt] on,
    with [left] turns to go; [waited] are the delays that have run to
    their end. *)
Fixpoint attempts (cfg : config.Config) (left attempt : nat)
    (lastErr : option error) (waited : list Duration)
    : Fetched * list Duration :=
  match left with
  | O => ({| ipset := None; count := 0; err := lastErr |}, waited)
  | S left' =>
      let delay := wrap64 (config.RetryDelay cfg * Z.of_nat attempt) in
      let cancelled := if (0 <? attempt)%nat then Done attempt else None in
      match cancelled with
      | Some e => ({| ipset := None; count := 0; err := Some e |}, waited)
      | None =>
          let waited :=
            if (0 <? attempt)%nat then waited ++ [delay] else waited in
          match fetch cfg attempt with
          | Ok (ipset, count) =>
              ({| ipset := Some ipset; count := count; err := None |}, waited)
          | Err e => attempts cfg left' (S attempt) (Some e) waited
          end
      end
  end.

Definition FetchWithRetry (cfg : config.Config) : Fetched * list Duration :=
  attempts cfg (Z.to_nat (config.MaxRetryAttempts cfg)) 0 None [].

(** The delays before the attempts of index 1 to [k]. *)
Definition delays (cfg : config.Config) (k : nat) : list Duration :=
  map (fun i => wrap64 (config.RetryDelay cfg * Z.of_nat i)) (seq 1 k).

End WithNetIP.
End fetcher.

(** ** Package [edl]: the start of the updater and its loop *)

Module updater.
Section WithNetIP.
Context {netip : NetIP}.

(** [Updater.Start]: the updater afterwards, the error returned, and
    whether the update loop has been started.  [fetched] is what
    [FetchWithRetry] returns if it is called. *)
Definition Start (cfg : config.Config) (now : Time)
    (fetched : result (netipx.IPSet * Z)) (u : edl.Updater)
    : edl.Updater * option error * bool :=
  if negb (config.DeploymentEnabled cfg) then (u, None, false)
  else
    match edl.updateNow now fetched u with
    | (u', Some e) => (u', Some ("initial EDL fetch failed: " ++ e)%string, false)
    | (u', None) => (u', None, true)
    end.

(** [runUpdateLoop]: each tick of the ticker calls [updateNow] and drops
    its error. *)
Fixpoint runUpdateLoop (ticks : list (Time * result (netipx.IPSet * Z)))
    (u : edl.Updater) : edl.Updater :=
  match ticks with
  | [] => u
  | (now, fetched) :: rest => runUpdateLoop rest (fst (edl.updateNow now fetched u))
  end.



End WithNetIP.
End updater.

(** ** The slots of the ring buffer *)

Module slots.
Section WithEvent.
Context {E : Type} (nil : E).

(** The slot of index [i] holds an event of the queue. *)
Definition live (rb : RingBuffer.t (E := E)) (i : Z) : Prop :=
  exists j,
    0 <= j < RingBuffer.size rb
    /\ i = (RingBuffer.head rb + j) mod RingBuffer.capacity rb.

(** Every slot outside the queue holds the nil reference. *)
Definition vacated (rb : RingBuffer.t (E := E)) : Prop :=
  forall i,
    0 <= i < RingBuffer.capacity rb ->
    ~ live rb i ->
    RingBuffer.buffer rb !! Z.to_nat i = Some nil.

End WithEvent.
End slots.

(** ** Runs of requests to the leaky bucket *)

Module rate.
Section WithFloat.
Context {float64 : Float64}.






End WithFloat.
End rate.

(** ** Package [logs]: the shipper's channel, its worker and its stop *)

Module worker.
Section WithWorld.
Context {float64 : Float64} {provider : TokenProvider} {E : Type} (nil : E).
Variable eventsToJSONL : list E -> option string.
Variable compressPayload : string -> option string.
Variable post : nat -> string -> bool -> option error.


(** The capacity of [eventChan]. *)
Definition chanCapacity : Z := 1000.


(** A shipper with its channel and its goroutine: the events in the
    channel, oldest first; whether the channel is closed and the context
    cancelled; and of [processEvents] its batch and whether it has yet to
    return. *)
Record t := {
  shipper : LogShipper.t (E := E);
  flushInterval : Duration;
  eventChan : list E;
  closed : bool;
  cancelled : bool;
  batch : list E;
  running : bool
}.

Definition with_shipper (s : LogShipper.t) (st : t) : t :=
  {| shipper := s; flushInterval := flushInterval st;
     eventChan := eventChan st; closed := closed st;
     cancelled := cancelled st; batch := batch st; running := running st |}.

Definition with_chan (events : list E) (st : t) : t :=
  {| shipper := shipper st; flushInterval := flushInterval st;
     eventChan := events; closed := closed st;
     cancelled := cancelled st; batch := batch st; running := running st |}.

Definition with_batch (events : list E) (st : t) : t :=
  {| shipper := shipper st; flushInterval := flushInterval st;
     eventChan := eventChan st; closed := closed st;
     cancelled := cancelled st; batch := events; running := running st |}.

Definition with_running (on : bool) (st : t) : t :=
  {| shipper := shipper st; flushInterval := flushInterval st;
     eventChan := eventChan st; closed := closed st;
     cancelled := cancelled st; batch := batch st; running := on |}.



(** [Start]: the goroutine of [processEvents] makes its ticker and its
    batch; [time.NewTicker] panics on an interval that is not positive,
    [make] on a negative capacity. *)
Definition Start (st : t) : option t :=
  if flushInterval st <=? 0 then None
  else if LogShipper.batchSize (shipper st) <? 0 then None
  else Some (with_running true (with_batch [] st)).

(** [SendEvent]: into the channel when it has room; otherwise into the
    overflow buffer, or counted as dropped.  A send on a closed channel
    panics. *)
Definition SendEvent (event : E) (st : t) : option t :=
  if closed st then None
  else if Z.of_nat (length (eventChan st)) <? chanCapacity then
    Some (with_chan (eventChan st ++ [event]) st)
  else
    '(ok, b) ← RingBuffer.Add event (LogShipper.buffer (shipper st));
    Some (with_shipper
            (if ok : bool then LogShipper.with_buffer b (shipper st)
             else LogShipper.dropped 1 (LogShipper.with_buffer b (shipper st)))
            st).

(** [s.shipBatch(events)] from the goroutine. *)
Definition ship (events : list E) (st : t) : option t :=
  s ← LogShipper.shipBatch eventsToJSONL compressPayload post events
        (shipper st);
  Some (with_shipper s st).

(** [if len(batch) > 0 { s.shipBatch(batch) }]. *)
Definition ship_pending (st : t) : option t :=
  if (0 <? length (batch st))%nat then
    st ← ship (batch st) st; Some (with_batch [] st)
  else Some st.

Definition processBufferedEvents (st : t) : option t :=
  '(events, b) ← RingBuffer.Drain nil (LogShipper.batchSize (shipper st))
                   (LogShipper.buffer (shipper st));
  let st := with_shipper (LogShipper.with_buffer b (shipper st)) st in
  if (0 <? length events)%nat then ship events st else Some st.

(** The case the [select] of [processEvents] takes. *)
Inductive choice :=
| Cancelled         (* [<-s.ctx.Done()] *)
| Received          (* [<-s.eventChan] *)
| Ticked.           (* [<-ticker.C] *)

(** One turn of the loop of [processEvents].  A case that is not ready is
    not taken, and a goroutine that has returned takes none. *)
Definition turn (c : choice) (st : t) : option t :=
  if negb (running st) then Some st
  else
    match c with
    | Cancelled =>
        if cancelled st then
          st ← ship_pending st; Some (with_running false st)
        else Some st
    | Received =>
        match eventChan st with
        | event :: rest =>
            let st := with_batch (batch st ++ [event]) (with_chan rest st) in
            if Z.of_nat (length (batch st))
               >=? LogShipper.batchSize (shipper st) then
              st ← ship (batch st) st; Some (with_batch [] st)
            else Some st
        | [] =>
            if closed st then
              st ← ship_pending st; Some (with_running false st)
            else Some st
        end
    | Ticked => st ← ship_pending st; processBufferedEvents st
    end.

Fixpoint run (choices : list choice) (st : t) : option t :=
  match choices with
  | [] => Some st
  | c :: rest => st ← turn c st; run rest st
  end.

(** The loop of [flushBuffer]: a batch size that is negative makes the
    slice expression panic; [None] is that panic, one of the ring buffer,
    or a loop that [fuel] turns do not end. *)
Fixpoint flush_loop (fuel : nat) (events : list E) (st : t) : option t :=
  if (0 <? length events)%nat then
    match fuel with
    | O => None
    | S fuel' =>
        let batchSize :=
          MinInt (Z.of_nat (length events)) (LogShipper.batchSize (shipper st)) in
        if batchSize <? 0 then None
        else
          st ← ship (firstn (Z.to_nat batchSize) events) st;
          flush_loop fuel' (skipn (Z.to_nat batchSize) events) st
    end
  else Some st.

Definition flushBuffer (st : t) : option t :=
  '(events, b) ← RingBuffer.DrainAll nil (LogShipper.buffer (shipper st));
  flush_loop (length events) events
    (with_shipper (LogShipper.with_buffer b (shipper st)) st).

(** [Stop]: [choices] are the turns the goroutine takes in the ten
    seconds that [Stop] waits for it.  Closing a closed channel panics. *)
Definition Stop (choices : list choice) (st : t) : option (t * option error) :=
  if closed st then None
  else
    let st :=
      {| shipper := shipper st; flushInterval := flushInterval st;
         eventChan := eventChan st; closed := true; cancelled := true;
         batch := batch st; running := running st |} in
    st ← run choices st;
    if running st then
      Some (st, Some "timeout waiting for log shipper to stop"%string)
    else st ← flushBuffer st; Some (st, None).

(** The events the shipper has settled: shipped, dropped, or held in the
    overflow buffer; and those on their way: in the channel or in the
    batch of the goroutine. *)
Definition settled (st : t) : Z :=
  LogShipper.EventsShipped (LogShipper.metrics (shipper st))
  + LogShipper.EventsDropped (LogShipper.metrics (shipper st))
  + RingBuffer.size (LogShipper.buffer (shipper st)).

Definition on_the_way (st : t) : Z :=
  Z.of_nat (length (eventChan st)) + Z.of_nat (length (batch st)).

(** What sending leaves alone: the batch size, the overflow buffer and
    the metrics. *)
Definition untouched (s s' : LogShipper.t (E := E)) : Prop :=
  LogShipper.batchSize s' = LogShipper.batchSize s
  /\ LogShipper.buffer s' = LogShipper.buffer s
  /\ LogShipper.metrics s' = LogShipper.metrics s.

(** What every shipper made by [NewLogShipper] keeps. *)
Definition sound (st : t) : Prop :=
  RingBuffer.well_formed (LogShipper.buffer (shipper st))
  /\ 1 <= LogShipper.batchSize (shipper st)
  /\ 0 < flushInterval st
  /\ Z.of_nat (length (batch st)) < LogShipper.batchSize (shipper st)
  /\ Z.of_nat (length (eventChan st)) <= chanCapacity
  /\ (running st = false -> batch st = []).

(** What a shipment keeps of a shipper: the shape of its buffer, its
    settings and its flags; the events settled grow by [moved]. *)
Definition carried (moved : Z) (st st' : t) : Prop :=
  RingBuffer.well_formed (LogShipper.buffer (shipper st'))
  /\ LogShipper.batchSize (shipper st') = LogShipper.batchSize (shipper st)
  /\ flushInterval st' = flushInterval st
  /\ closed st' = closed st
  /\ cancelled st' = cancelled st
  /\ wrap64 (settled st') = wrap64 (settled st + moved).

(** What the goroutine keeps: the invariant, the flags, and the number
    of events in all, settled or on their way; it takes events from the
    front of the channel, and does not start again once it has
    returned. *)
Definition conserved (st st' : t) : Prop :=
  sound st'
  /\ closed st' = closed st
  /\ cancelled st' = cancelled st
  /\ wrap64 (settled st' + on_the_way st')
     = wrap64 (settled st + on_the_way st)
  /\ (exists k, eventChan st' = skipn k (eventChan st))
  /\ (running st' = true -> running st = true).

End WithWorld.
End worker.

(** ** Package [main]: the process, from its start to its requests *)

Module process.
Section WithNetIP.
Context {netip : NetIP}.
Variable CanonicalMIMEHeaderKey : string -> string.
Variable SplitHostPort : string -> option (string * string).


(** The handler and the updater of the process.  The two hold the same
    matcher: the handler reads the set the updater has stored last. *)
Record t := {
  handler : auth.Handler;
  updater : edl.Updater
}.

Definition shared (h : auth.Handler) (u : edl.Updater) : t :=
  {| handler :=
       {| auth.matcher := edl.matcher u;
          auth.isBlocklist := auth.isBlocklist h;
          auth.deploymentEnabled := auth.deploymentEnabled h;
          auth.logShipper := auth.logShipper h;
          auth.deviceID := auth.deviceID h;
          auth.ipHeaderOverride := auth.ipHeaderOverride h |};
     updater := u |}.


(** The ticks of the update loop, which is started for an enabled
    deployment only. *)
Definition ticks (cfg : config.Config)
    (updates : list (Time * result (netipx.IPSet * Z))) (p : t) : t :=
  if config.DeploymentEnabled cfg then
    shared (handler p) (updater.runUpdateLoop updates (updater p))
  else p.

Definition serve (p : t) (page : option string) (r : auth.Request)
    : auth.Response :=
  auth.ServeHTTP CanonicalMIMEHeaderKey SplitHostPort (handler p) page r.

End WithNetIP.
End process.

(** ** A control plane and an environment to run the model on *)

Module scenario.

Definition claims : client.BootstrapClaims :=
  {| client.Issuer := "https://control.example/";
     client.WorkspaceID := "w-1";
     client.DeploymentID := "d-1";
     client.ComponentType := "traefik_forward_auth" |}.

Definition no_claims : client.BootstrapClaims :=
  {| client.Issuer := EmptyString;
     client.WorkspaceID := EmptyString;
     client.DeploymentID := EmptyString;
     client.ComponentType := EmptyString |}.

Definition whole (text : string) : Body :=
  {| read := text; failure := None |}.

Definition listed : client.EDLConfig :=
  {| client.Purpose := "allowlist";
     client.UpdateFrequencySeconds := 300;
     client.Combined := ["https://edl.example/list"%string];
     client.Enabled := false |}.

Definition second_token : api.BootstrapResponse :=
  {| api.AccessToken := "token-2";
     api.ExpiresIn := 3600;
     api.ConfigURL := "https://control.example/config";
     api.LogsURL := "https://logs.example/ingest" |}.

(** A control plane that knows one bootstrap token, issues
    [sample.fresh_token] for it, and answers the config request with
    the status [config_status]. *)
Definition plane (config_status : Z) : client.ControlPlane :=
  {| client.ParseUnverified := fun token =>
       if String.eqb token "bootstrap.jwt" then (claims, None)
       else (no_claims, Some "token is malformed"%string);
     client.ProtectedID := fun app => Ok ("machine-of-" ++ app)%string;
     client.NewRequest := fun _ _ => None;
     client.Do := fun method url bearer _ =>
       if String.eqb method "POST" then
         if String.eqb url "https://control.example/api/v1/edl/bootstrap" then
           Response 200 (whole "{}")
         else NoResponse "no such host"%string
       else if String.eqb bearer "token" then
         Response config_status (whole "{}")
       else Response 401 (whole "unauthorized");
     client.marshalRequest := fun _ => Ok "{}"%string;
     client.decodeBootstrapResponse := fun _ => Ok sample.fresh_token;
     client.decodeErrorResponse := fun _ => None;
     client.decodeEDLConfig := fun _ => Ok listed |}.

(** An environment that sets the bootstrap token and nothing else. *)
Definition env : Env :=
  {| Getenv := fun key =>
       if String.eqb key "ELLIO_BOOTSTRAP" then "bootstrap.jwt"%string
       else EmptyString;
     Atoi := sample.decimal 0;
     ParseInt := sample.decimal 0;
     ParseDuration := fun _ => None;
     ParseBool := fun _ => None |}.

Definition loaded (config_status : Z) : result config.Config :=
  config.Load (env := env) (plane := plane config_status) sample.an_instant [].

(** The two-slot buffer after [sample.ring_ops] and a [Drain] of one
    event. *)
Definition two_slots_drained : RingBuffer.t (E := string) :=
  {| RingBuffer.buffer := ["d"; ""]%string;
     RingBuffer.capacity := 2;
     RingBuffer.head := 0;
     RingBuffer.tail := 1;
     RingBuffer.size := 1 |}.

Definition tally_drained : RingBuffer.tally :=
  {| RingBuffer.added := 3; RingBuffer.returned := 2 |}.


(** The sample shipper with its channel, before [Start]; and the same
    with its goroutine running and two events in the channel. *)
Definition sender : worker.t (E := string) :=
  {| worker.shipper := sample.shipper;
     worker.flushInterval := 10 * Second;
     worker.eventChan := [];
     worker.closed := false;
     worker.cancelled := false;
     worker.batch := [];
     worker.running := false |}.

Definition busy : worker.t (E := string) :=
  worker.with_running true (worker.with_chan ["a"; "b"]%string sender).

Definition work (choices : list worker.choice) (st : worker.t (E := string))
    : option (worker.t (E := string)) :=
  worker.run (float64 := sample.exact) (provider := sample.provider)
    EmptyString sample.jsonl sample.gzip sample.accepting choices st.

Definition stop (choices : list worker.choice) (st : worker.t (E := string))
    : option (worker.t (E := string) * option error) :=
  worker.Stop (float64 := sample.exact) (provider := sample.provider)
    EmptyString sample.jsonl sample.gzip sample.accepting choices st.

(** The configuration the startup leaves. *)
Definition started (config_status : Z) : config.Config :=
  fst (config.InitializeServices (plane := plane config_status)
         sample.an_instant [] (config.LoadFromEnv (env := env))).

(** A token provider whose manager holds no logs URL. *)
Definition no_url : TokenProvider :=
  {| GetToken := "token"; GetLogsURL := EmptyString |}.


End scenario.

(* ===================================================================== *)
(** * Part II: theorems                                                    *)
(* ===================================================================== *)

(** ** The access handler *)

Module auth_props.
Section WithNetIP.
Context {netip : NetIP}.
Variable CanonicalMIMEHeaderKey : string -> string.
Variable SplitHostPort : string -> option (string * string).

Local Abbreviation extractClientIP :=
  (auth.extractClientIP CanonicalMIMEHeaderKey SplitHostPort).
Local Abbreviation ServeHTTP :=
  (auth.ServeHTTP CanonicalMIMEHeaderKey SplitHostPort).

Lemma is_empty_true (s : string) : strs.is_empty s = true <-> s = EmptyString.
Proof. destruct s; simpl; split; congruence. Qed.

Lemma parsed_not_empty (s : string) (addr : Addr) :
  ParseAddr s = Some addr -> strs.is_empty s = false.
Proof.
  intros Hp. destruct s; simpl; [|reflexivity].
  rewrite ParseAddr_empty in Hp. discriminate.
Qed.


(** [NewHandler] reads the mode off the configured string; every string
    but [blocklist] makes an allowlist. *)
Lemma NewHandler_mode (m : ipmatcher.Matcher) (edlMode : string)
    (enabled : bool) :
  auth.mode (auth.NewHandler m edlMode enabled)
  = if String.eqb edlMode "blocklist" then auth.Blocklist else auth.Allowlist.
Proof. reflexivity. Qed.

(** [evaluateAccess] on an address that parses, deployment enabled. *)
Lemma evaluateAccess_enabled (h : auth.Handler) (clientIP : string)
    (addr : Addr) :
  auth.deploymentEnabled h = true ->
  ParseAddr clientIP = Some addr ->
  auth.evaluateAccess h clientIP
  = Some (xorb (auth.isBlocklist h)
               (ipmatcher.Contains (auth.matcher h) addr)).
Proof.
  intros He Hp. unfold auth.evaluateAccess. rewrite He, Hp. simpl.
  destruct (auth.isBlocklist h), (ipmatcher.Contains _ _); reflexivity.
Qed.

Lemma evaluateAccess_disabled (h : auth.Handler) (clientIP : string) :
  auth.deploymentEnabled h = false ->
  auth.evaluateAccess h clientIP = Some true.
Proof. intros He. unfold auth.evaluateAccess. rewrite He. reflexivity. Qed.


(** C9. With the deployment enabled and the set fixed, the handler under
    the other mode takes the opposite decision for every address: at
    [evaluateAccess], and in the status code of the response. *)
Theorem flip_mode_complements (h : auth.Handler) (page : option string)
    (r : auth.Request) (clientIP : string) (addr : Addr) :
  auth.deploymentEnabled h = true ->
  ParseAddr clientIP = Some addr ->
  (exists allowed,
      auth.evaluateAccess h clientIP = Some allowed
      /\ auth.evaluateAccess (auth.flip_mode h) clientIP = Some (negb allowed))
  /\ (extractClientIP h r = clientIP ->
      (auth.status (ServeHTTP h page r) = 200
       <-> auth.status (ServeHTTP (auth.flip_mode h) page r) = 403)
      /\ (auth.status (ServeHTTP h page r) = 403
          <-> auth.status (ServeHTTP (auth.flip_mode h) page r) = 200)).
Proof.
  intros He Hp.
  assert (He' : auth.deploymentEnabled (auth.flip_mode h) = true) by exact He.
  pose proof (evaluateAccess_enabled h clientIP addr He Hp) as E1.
  pose proof (evaluateAccess_enabled (auth.flip_mode h) clientIP addr He' Hp)
    as E2.
  cbn [auth.flip_mode auth.isBlocklist auth.matcher] in E2.
  split.
  - eexists. split; [exact E1|]. rewrite E2.
    destruct (auth.isBlocklist h), (ipmatcher.Contains _ _); reflexivity.
  - intros Hx. unfold auth.ServeHTTP.
    replace (extractClientIP (auth.flip_mode h) r) with clientIP
      by (rewrite <- Hx; reflexivity).
    rewrite Hx, (parsed_not_empty _ _ Hp), E1, E2.
    destruct (auth.isBlocklist h), (ipmatcher.Contains _ _); simpl;
      unfold auth.StatusOK, auth.StatusForbidden; split; split; intros;
      (reflexivity || discriminate).
Qed.

(** C10. With the deployment not enabled, [evaluateAccess] answers
    [true] for every string, whatever [ParseAddr] makes of it; so every
    request with a non-empty client IP string is answered 200 and counted
    as allowed, never 400. *)
Theorem disabled_allows_unparsed (h : auth.Handler) :
  auth.deploymentEnabled h = false ->
  (forall clientIP, auth.evaluateAccess h clientIP = Some true)
  /\ (forall page r,
         extractClientIP h r <> EmptyString ->
         auth.status (ServeHTTP h page r) = 200
         /\ auth.label (ServeHTTP h page r) = auth.LabelAllowed
         /\ auth.status (ServeHTTP h page r) <> 400).
Proof.
  intros He. split.
  - intros clientIP. apply evaluateAccess_disabled, He.
  - intros page r Hne. unfold auth.ServeHTTP.
    destruct (strs.is_empty (extractClientIP h r)) eqn:Hemp.
    + apply is_empty_true in Hemp. contradiction.
    + rewrite (evaluateAccess_disabled h _ He). simpl.
      unfold auth.StatusOK. repeat split; lia.
Qed.

End WithNetIP.
End auth_props.

(** The handler on concrete requests: [10.0.0.0/8] as a blocklist denies
    [10.1.2.3] and as an allowlist admits it; a disabled deployment
    admits a client string that is no address. *)


Example blocklist_denies_address :
  auth.status (sample.serve (sample.handler "blocklist" true)
                 (sample.request "10.1.2.3")) = 403.
Proof. vm_compute. reflexivity. Qed.

Example allowlist_admits_address :
  auth.status (sample.serve (sample.handler "allowlist" true)
                 (sample.request "10.1.2.3")) = 200.
Proof. vm_compute. reflexivity. Qed.

Example enabled_rejects_garbage :
  auth.status (sample.serve (sample.handler "allowlist" true)
                 (sample.request "not-an-ip")) = 400.
Proof. vm_compute. reflexivity. Qed.

Lemma flip_mode_complements_witness :
  auth.deploymentEnabled (sample.handler "allowlist" true) = true
  /\ ParseAddr (NetIP := sample.ipv4) "10.1.2.3" = Some 167838211
  /\ exists allowed,
      auth.evaluateAccess (sample.handler "allowlist" true) "10.1.2.3"
      = Some allowed
      /\ auth.evaluateAccess
           (auth.flip_mode (sample.handler "allowlist" true)) "10.1.2.3"
         = Some (negb allowed).
Proof.
  split; [reflexivity|]. split; [vm_compute; reflexivity|].
  exact (proj1 (auth_props.flip_mode_complements (netip := sample.ipv4)
                  sample.canonical sample.split_host_port
                  (sample.handler "allowlist" true) None
                  (sample.request "10.1.2.3") "10.1.2.3" 167838211
                  eq_refl eq_refl)).
Defined.

Lemma disabled_allows_unparsed_witness :
  auth.deploymentEnabled (sample.handler "disabled" false) = false
  /\ ParseAddr (NetIP := sample.ipv4) "not-an-ip" = None
  /\ auth.evaluateAccess (sample.handler "disabled" false) "not-an-ip"
     = Some true.
Proof.
  split; [reflexivity|]. split; [vm_compute; reflexivity|].
  exact (proj1 (auth_props.disabled_allows_unparsed (netip := sample.ipv4)
                  sample.canonical sample.split_host_port
                  (sample.handler "disabled" false) eq_refl) "not-an-ip").
Defined.

(** ** The readiness endpoint *)

Module health_props.
Section WithNetIP.
Context {netip : NetIP}.

(** C4, as the code has it.  [Ready] answers 200 with the body [Ready]
    exactly when the time of the last update is set, the entry count of
    the matcher is not zero and the last update is at most two hours old;
    in every other case it answers 503. *)
Theorem ready_iff_loaded_nonempty_fresh (now : Time) (u : edl.Updater) :
  (health.Ready now u = (200, "Ready"%string)
   <-> IsZero (edl.lastUpdate u) = false
       /\ ipmatcher.Count (edl.matcher u) <> 0
       /\ Since now (edl.lastUpdate u) <= 2 * Hour)
  /\ (health.Ready now u <> (200, "Ready"%string)
      -> fst (health.Ready now u) = 503).
Proof.
  unfold health.Ready, edl.GetStatus.
  destruct (IsZero (edl.lastUpdate u)) eqn:Hz; simpl.
  - split; [split; [discriminate | intros [? _]; discriminate] | reflexivity].
  - destruct (Z.eqb_spec (ipmatcher.Count (edl.matcher u)) 0) as [H0 | H0].
    + split; [split; [discriminate | intros (_ & ? & _); contradiction]
             | reflexivity].
    + destruct (Z.gtb_spec (Since now (edl.lastUpdate u)) (2 * Hour)) as [Hs | Hs].
      * split; [split; [discriminate | intros (_ & _ & ?); lia] | reflexivity].
      * split; [split; [intros _; repeat split; auto | reflexivity]
               | intros Hc; contradiction Hc; reflexivity].
Qed.

End WithNetIP.
End health_props.

(** C4, as it is stated, fails in both directions.  An update that
    completed one minute ago with an empty list leaves the endpoint at
    503; an update with entries that completed exactly two hours ago
    still gives 200. *)
Lemma ready_counterexample :
  (let u := sample.updated sample.an_instant "# nothing listed" in
   let now := sample.an_instant + Minute in
   edl.updateCount u = 1
   /\ IsZero (edl.lastUpdate u) = false
   /\ Since now (edl.lastUpdate u) < 2 * Hour
   /\ health.Ready now u = (503, "Not ready - EDL not yet loaded"%string))
  /\ (let u := sample.updated sample.an_instant "10.0.0.0/8" in
      let now := sample.an_instant + 2 * Hour in
      ~ Since now (edl.lastUpdate u) < 2 * Hour
      /\ health.Ready now u = (200, "Ready"%string)).
Proof.
  split; cbv zeta.
  - repeat split; vm_compute; reflexivity.
  - split; [vm_compute; discriminate | vm_compute; reflexivity].
Qed.

(** ** The EDL parser *)

Module edl_props.
Section WithNetIP.
Context {netip : NetIP}.

Lemma scan_lines_fit (raws : list string) :
  Forall (fun raw => Z.of_nat (String.length raw) < edl.MaxScanTokenSize) raws ->
  edl.scan_lines raws = (map edl.dropCR raws, None).
Proof.
  induction 1 as [| raw rest Hraw _ IH]; simpl; [reflexivity|].
  destruct (Z.leb_spec edl.MaxScanTokenSize (Z.of_nat (String.length raw)));
    [lia|].
  rewrite IH. reflexivity.
Qed.

Lemma parse_lines_cons (text : string) (rest : list string)
    (b : netipx.IPSetBuilder) (count : Z) :
  edl.parse_lines (text :: rest) b count
  = match edl.accepted text with
    | Some item => edl.parse_lines rest (b ++ [item]) (count + 1)
    | None => edl.parse_lines rest b count
    end.
Proof.
  simpl. unfold edl.accepted.
  destruct (strs.is_empty (strs.TrimSpace text)); simpl; [reflexivity|].
  destruct (strs.HasPrefix (strs.TrimSpace text) "#"); simpl; [reflexivity|].
  destruct (ParsePrefix (strs.TrimSpace text)); [reflexivity|].
  destruct (ParseAddr (strs.TrimSpace text)); reflexivity.
Qed.

(** The loop adds the accepted entries in order and counts them. *)
Lemma parse_lines_accepted (lines : list string) :
  forall (b : netipx.IPSetBuilder) (count : Z),
    edl.parse_lines lines b count
    = (b ++ omap edl.accepted lines,
       count + Z.of_nat (length (omap edl.accepted lines))).
Proof.
  induction lines as [| text rest IH]; intros b count.
  - simpl. rewrite app_nil_r, Z.add_0_r. reflexivity.
  - rewrite parse_lines_cons. cbn [omap list_omap].
    destruct (edl.accepted text) as [item|]; rewrite IH; [|reflexivity].
    rewrite <- app_assoc. cbn [app length]. f_equal. lia.
Qed.


End WithNetIP.
End edl_props.



(** ** Shared arithmetic and tactics *)

(** Split a goal along its conjunctions, unfolding nothing. *)
Ltac conjs := repeat match goal with |- _ /\ _ => split end.


Lemma wrap64_add_l (a b : Z) : wrap64 (wrap64 a + b) = wrap64 (a + b).
Proof.
  unfold wrap64.
  replace ((a + 2 ^ 63) mod 2 ^ 64 - 2 ^ 63 + b + 2 ^ 63)
    with ((a + 2 ^ 63) mod 2 ^ 64 + b) by lia.
  rewrite Z.add_mod_idemp_l by lia. do 2 f_equal. lia.
Qed.

(** ** The ring buffer *)

Module ring_props.
Section WithEvent.
Context {E : Type} (nil : E).

Local Abbreviation t := (RingBuffer.t (E := E)).
Local Abbreviation contents := (RingBuffer.contents nil).
Local Abbreviation well_formed := (RingBuffer.well_formed (E := E)).

Lemma wrap_index (h c i : Z) :
  0 <= h < c -> 0 <= i <= c ->
  (h + i) mod c = if h + i <? c then h + i else h + i - c.
Proof.
  intros Hh Hi. destruct (Z.ltb_spec (h + i) c).
  - apply Z.mod_small. lia.
  - symmetry. apply (Z.mod_unique _ _ 1); lia.
Qed.

Lemma rem_next (h c : Z) :
  0 <= h < c -> Z.rem (h + 1) c = (h + 1) mod c.
Proof. intros Hh. apply Z.rem_mod_nonneg; lia. Qed.

Lemma new_well_formed (cap : Z) (rb : t) :
  RingBuffer.NewRingBuffer nil cap = Some rb ->
  well_formed rb /\ contents rb = [] /\ RingBuffer.capacity rb = cap
  /\ RingBuffer.size rb = 0.
Proof.
  unfold RingBuffer.NewRingBuffer. destruct (Z.ltb_spec cap 0); [discriminate|].
  intros [= <-]. unfold RingBuffer.well_formed, RingBuffer.contents. simpl.
  rewrite length_replicate. repeat split; try lia.
Qed.

Lemma contents_length (rb : t) :
  length (contents rb) = Z.to_nat (RingBuffer.size rb).
Proof. unfold RingBuffer.contents. rewrite length_map, length_seq. reflexivity. Qed.

(** [Add] on a buffer with room appends at the back of the queue. *)
Lemma add_room (event : E) (rb : t) :
  well_formed rb ->
  RingBuffer.size rb < RingBuffer.capacity rb ->
  exists rb',
    RingBuffer.Add event rb = Some (true, rb')
    /\ well_formed rb'
    /\ contents rb' = contents rb ++ [event]
    /\ RingBuffer.capacity rb' = RingBuffer.capacity rb
    /\ RingBuffer.size rb' = RingBuffer.size rb + 1.
Proof.
  destruct rb as [buf cap hd tl sz].
  unfold RingBuffer.well_formed, RingBuffer.Add; simpl.
  intros (Hlen & Hsz & Hhd & Htl) Hroom.
  destruct Hhd as [Hc | Hhd]; [lia|].
  destruct (Z.geb_spec sz cap) as [? | _]; [lia|].
  assert (Htl' : 0 <= tl < cap) by (subst tl; apply Z.mod_pos_bound; lia).
  unfold RingBuffer.store, RingBuffer.remainder. rewrite Hlen.
  destruct (Z.leb_spec 0 tl); [|lia].
  destruct (Z.ltb_spec tl cap); [|lia]. simpl.
  destruct (Z.eqb_spec cap 0); [lia|]. simpl.
  eexists. split; [reflexivity|].
  unfold RingBuffer.well_formed, RingBuffer.contents; simpl.
  rewrite length_insert.
  split; [|split; [|split]]; try lia.
  - repeat split; try lia.
    rewrite rem_next by lia. subst tl.
    rewrite Z.add_mod_idemp_l by lia. f_equal. lia.
  - replace (Z.to_nat (sz + 1)) with (S (Z.to_nat sz)) by lia.
    rewrite seq_S, map_app. simpl. f_equal.
    + apply map_ext_in. intros i Hi. apply in_seq in Hi.
      unfold RingBuffer.slot; simpl.
      rewrite list_lookup_insert_ne; [reflexivity|].
      subst tl. rewrite !wrap_index by lia.
      destruct (Z.ltb_spec (hd + sz) cap), (Z.ltb_spec (hd + Z.of_nat i) cap);
        lia.
    + f_equal. unfold RingBuffer.slot; simpl.
      rewrite Z2Nat.id by lia. rewrite <- Htl.
      rewrite list_lookup_insert_eq by lia. reflexivity.
Qed.

Lemma add_full (event : E) (rb : t) :
  RingBuffer.capacity rb <= RingBuffer.size rb ->
  RingBuffer.Add event rb = Some (false, rb).
Proof.
  intros Hfull. unfold RingBuffer.Add.
  destruct (Z.geb_spec (RingBuffer.size rb) (RingBuffer.capacity rb)); [reflexivity | lia].
Qed.

(** Taking the head slot removes the front of the queue. *)
Lemma take_front (rb : t) :
  well_formed rb ->
  0 < RingBuffer.size rb ->
  exists event rb',
    RingBuffer.take nil rb = Some (event, rb')
    /\ well_formed rb'
    /\ contents rb = event :: contents rb'
    /\ RingBuffer.capacity rb' = RingBuffer.capacity rb
    /\ RingBuffer.size rb' = RingBuffer.size rb - 1.
Proof.
  destruct rb as [buf cap hd tl sz].
  unfold RingBuffer.well_formed, RingBuffer.take; simpl.
  intros (Hlen & Hsz & Hhd & Htl) Hpos.
  destruct Hhd as [Hc | Hhd]; [lia|].
  unfold RingBuffer.load, RingBuffer.store, RingBuffer.remainder.
  rewrite Hlen.
  destruct (Z.ltb_spec hd 0); [lia|].
  destruct (lookup_lt_is_Some_2 buf (Z.to_nat hd)) as [x Hx]; [lia|].
  rewrite Hx. simpl.
  destruct (Z.leb_spec 0 hd); [|lia].
  destruct (Z.ltb_spec hd cap); [|lia]. simpl.
  destruct (Z.eqb_spec cap 0); [lia|]. simpl.
  exists x. eexists. split; [reflexivity|].
  unfold RingBuffer.well_formed, RingBuffer.contents; simpl.
  rewrite length_insert. rewrite rem_next by lia.
  assert (Hh' : 0 <= (hd + 1) mod cap < cap) by (apply Z.mod_pos_bound; lia).
  split; [|split; [|split]]; try lia.
  - repeat split; try lia.
    rewrite Z.add_mod_idemp_l by lia. subst tl. f_equal. lia.
  - replace (Z.to_nat sz) with (S (Z.to_nat (sz - 1))) by lia.
    cbn [seq map]. f_equal.
    + unfold RingBuffer.slot; simpl. rewrite Z.add_0_r, Z.mod_small by lia.
      rewrite Hx. reflexivity.
    + rewrite <- seq_shift, map_map. apply map_ext_in. intros i Hi.
      apply in_seq in Hi. unfold RingBuffer.slot; simpl.
      rewrite Z.add_mod_idemp_l by lia.
      replace (hd + 1 + Z.of_nat i) with (hd + Z.of_nat (S i)) by lia.
      rewrite list_lookup_insert_ne; [reflexivity|].
      rewrite wrap_index by lia.
      destruct (Z.ltb_spec (hd + Z.of_nat (S i)) cap); lia.
Qed.

Lemma drain_loop_prefix (count : nat) :
  forall (events : list E) (rb : t),
    well_formed rb ->
    Z.of_nat count <= RingBuffer.size rb ->
    exists rb',
      RingBuffer.drain_loop nil count events rb
      = Some (events ++ firstn count (contents rb), rb')
      /\ well_formed rb'
      /\ contents rb' = skipn count (contents rb)
      /\ RingBuffer.capacity rb' = RingBuffer.capacity rb
      /\ RingBuffer.size rb' = RingBuffer.size rb - Z.of_nat count.
Proof.
  induction count as [| count IH]; intros events rb Hwf Hle.
  - exists rb. simpl. rewrite app_nil_r. conjs; auto; lia.
  - assert (Hpos : 0 < RingBuffer.size rb) by lia.
    destruct (take_front rb Hwf Hpos) as (event & rb1 & Ht & Hwf1 & Hc & Hcap & Hsz).
    assert (Hle1 : Z.of_nat count <= RingBuffer.size rb1) by lia.
    destruct (IH (events ++ [event]) rb1 Hwf1 Hle1)
      as (rb' & Hd & Hwf' & Hc' & Hcap' & Hsz').
    exists rb'. cbn [RingBuffer.drain_loop]. rewrite Ht. simpl.
    rewrite Hd, Hc. cbn [firstn skipn]. rewrite <- app_assoc. simpl.
    conjs; auto; lia.
Qed.

Lemma drain_while_all (fuel : nat) :
  forall (events : list E) (rb : t),
    well_formed rb ->
    RingBuffer.size rb <= Z.of_nat fuel ->
    exists rb',
      RingBuffer.drain_while nil fuel events rb
      = Some (events ++ contents rb, rb')
      /\ well_formed rb'
      /\ contents rb' = []
      /\ RingBuffer.capacity rb' = RingBuffer.capacity rb
      /\ RingBuffer.size rb' = 0.
Proof.
  assert (Hnone : forall rb : t,
             well_formed rb -> RingBuffer.size rb <= 0 ->
             contents rb = [] /\ RingBuffer.size rb = 0).
  { intros rb Hwf Hle. pose proof Hwf as (_ & Hsz & _).
    assert (Hz : RingBuffer.size rb = 0) by lia. split; [|exact Hz].
    unfold RingBuffer.contents. rewrite Hz. reflexivity. }
  induction fuel as [| fuel IH]; intros events rb Hwf Hle.
  - assert (Hle0 : RingBuffer.size rb <= 0) by lia.
    destruct (Hnone rb Hwf Hle0) as [Hc Hz].
    exists rb. simpl. rewrite Hz, Hc, app_nil_r. simpl. auto.
  - cbn [RingBuffer.drain_while].
    destruct (Z.gtb_spec (RingBuffer.size rb) 0) as [Hpos | Hnpos].
    + assert (Hpos' : 0 < RingBuffer.size rb) by lia.
      destruct (take_front rb Hwf Hpos')
        as (event & rb1 & Ht & Hwf1 & Hc & Hcap & Hsz).
      assert (Hle1 : RingBuffer.size rb1 <= Z.of_nat fuel) by lia.
      destruct (IH (events ++ [event]) rb1 Hwf1 Hle1)
        as (rb' & Hd & Hwf' & Hc' & Hcap' & Hsz').
      exists rb'. rewrite Ht. simpl. rewrite Hd, Hc, <- app_assoc. simpl.
      conjs; auto; lia.
    + assert (Hle0 : RingBuffer.size rb <= 0) by lia.
      destruct (Hnone rb Hwf Hle0) as [Hc Hz].
      exists rb. rewrite Hc, app_nil_r. auto.
Qed.

(** [Drain] hands out the front of the queue, oldest first. *)
Lemma drain_front (maxItems : Z) (rb : t) :
  well_formed rb ->
  0 <= maxItems ->
  let k := Z.to_nat (Z.min maxItems (RingBuffer.size rb)) in
  exists rb',
    RingBuffer.Drain nil maxItems rb = Some (firstn k (contents rb), rb')
    /\ well_formed rb'
    /\ contents rb' = skipn k (contents rb)
    /\ RingBuffer.capacity rb' = RingBuffer.capacity rb
    /\ RingBuffer.size rb' = RingBuffer.size rb - Z.of_nat k.
Proof.
  intros Hwf Hmax k. pose proof Hwf as (_ & Hsz & _).
  unfold RingBuffer.Drain.
  destruct (Z.eqb_spec (RingBuffer.size rb) 0) as [Hz | Hnz].
  - exists rb. subst k. rewrite Hz, Z.min_r by lia. simpl.
    unfold RingBuffer.contents. rewrite Hz. simpl. conjs; auto; lia.
  - set (count := if RingBuffer.size rb >? maxItems then maxItems
                  else RingBuffer.size rb).
    assert (Hcount : count = Z.min maxItems (RingBuffer.size rb)).
    { subst count. destruct (Z.gtb_spec (RingBuffer.size rb) maxItems); lia. }
    destruct (Z.ltb_spec count 0); [lia|].
    rewrite Hcount. fold k.
    assert (Hk : Z.of_nat k <= RingBuffer.size rb) by lia.
    destruct (drain_loop_prefix k [] rb Hwf Hk) as (rb' & Hd & Hrest).
    exists rb'. rewrite Hd. simpl. exact (conj eq_refl Hrest).
Qed.

Lemma drain_all_front (rb : t) :
  well_formed rb ->
  exists rb',
    RingBuffer.DrainAll nil rb = Some (contents rb, rb')
    /\ well_formed rb'
    /\ contents rb' = []
    /\ RingBuffer.capacity rb' = RingBuffer.capacity rb
    /\ RingBuffer.size rb' = 0.
Proof.
  intros Hwf. pose proof Hwf as (_ & Hsz & _). unfold RingBuffer.DrainAll.
  destruct (Z.eqb_spec (RingBuffer.size rb) 0) as [Hz | Hnz].
  - exists rb. unfold RingBuffer.contents. rewrite Hz. simpl.
    conjs; auto.
  - assert (Hf : RingBuffer.size rb <= Z.of_nat (Z.to_nat (RingBuffer.size rb)))
      by lia.
    destruct (drain_while_all (Z.to_nat (RingBuffer.size rb)) [] rb Hwf Hf)
      as (rb' & Hd & Hrest).
    exists rb'. rewrite Hd. simpl. exact (conj eq_refl Hrest).
Qed.

Lemma get_front (rb : t) :
  well_formed rb ->
  exists ev rb',
    RingBuffer.Get nil rb = Some (ev, rb')
    /\ well_formed rb'
    /\ RingBuffer.capacity rb' = RingBuffer.capacity rb
    /\ match ev with
       | Some event =>
           contents rb = event :: contents rb'
           /\ RingBuffer.size rb' = RingBuffer.size rb - 1
       | None => rb' = rb /\ RingBuffer.size rb = 0
       end.
Proof.
  intros Hwf. pose proof Hwf as (_ & Hsz & _). unfold RingBuffer.Get.
  destruct (Z.eqb_spec (RingBuffer.size rb) 0) as [Hz | Hnz].
  - exists None, rb. auto.
  - assert (Hpos : 0 < RingBuffer.size rb) by lia.
    destruct (take_front rb Hwf Hpos) as (event & rb1 & Ht & Hwf1 & Hc & Hcap & Hs).
    exists (Some event), rb1. rewrite Ht. simpl. auto.
Qed.

Lemma step_accounted (cap : Z) (o : RingBuffer.op) (st : t * RingBuffer.tally) :
  RingBuffer.runnable o ->
  RingBuffer.accounted cap st ->
  exists st', RingBuffer.step nil o st = Some st' /\ RingBuffer.accounted cap st'.
Proof.
  destruct st as [rb c]. unfold RingBuffer.accounted, RingBuffer.Size. simpl.
  intros Hrun (Hwf & Hcap & Hacc).
  destruct o as [event | | maxItems | |]; simpl in *.
  - destruct (Z.lt_ge_cases (RingBuffer.size rb) (RingBuffer.capacity rb))
      as [Hroom | Hfull].
    + destruct (add_room event rb Hwf Hroom) as (rb' & Ha & Hwf' & _ & Hc' & Hs').
      rewrite Ha. simpl. eexists. split; [reflexivity|]. simpl.
      conjs; auto; lia.
    + rewrite (add_full event rb Hfull). simpl. eexists.
      split; [reflexivity|]. simpl. conjs; auto; lia.
  - destruct (get_front rb Hwf) as (ev & rb' & Hg & Hwf' & Hc' & Hev).
    rewrite Hg. simpl. eexists. split; [reflexivity|]. simpl.
    destruct ev as [event|]; destruct Hev as [He1 He2]; subst;
      conjs; auto; lia.
  - destruct (drain_front maxItems rb Hwf Hrun) as (rb' & Hd & Hwf' & _ & Hc' & Hs').
    rewrite Hd. simpl. eexists. split; [reflexivity|]. simpl.
    rewrite length_firstn, contents_length.
    conjs; auto; lia.
  - destruct (drain_all_front rb Hwf) as (rb' & Hd & Hwf' & _ & Hc' & Hs').
    rewrite Hd. simpl. eexists. split; [reflexivity|]. simpl.
    rewrite contents_length. pose proof Hwf as (_ & Hsz & _).
    conjs; auto; lia.
  - eexists. split; [reflexivity|]. simpl. auto.
Qed.

Lemma run_accounted (cap : Z) (ops : list RingBuffer.op) :
  forall st : t * RingBuffer.tally,
    Forall RingBuffer.runnable ops ->
    RingBuffer.accounted cap st ->
    exists st', RingBuffer.run nil ops st = Some st' /\ RingBuffer.accounted cap st'.
Proof.
  induction ops as [| o rest IH]; intros st Hall Hacc.
  - exists st. auto.
  - inversion Hall as [| ? ? Ho Hrest]; subst.
    destruct (step_accounted cap o st Ho Hacc) as (st1 & Hs & Hacc1).
    destruct (IH st1 Hrest Hacc1) as (st' & Hr & Hacc').
    exists st'. simpl. rewrite Hs. simpl. auto.
Qed.

(** A negative count makes [Drain] return at once on the empty buffer and
    panic on any other. *)
Lemma drain_negative (maxItems : Z) (rb : t) :
  well_formed rb ->
  maxItems < 0 ->
  RingBuffer.Drain nil maxItems rb
  = if RingBuffer.size rb =? 0 then Some ([], rb) else None.
Proof.
  intros (_ & Hsz & _) Hneg. unfold RingBuffer.Drain.
  destruct (Z.eqb_spec (RingBuffer.size rb) 0); [reflexivity|].
  destruct (Z.gtb_spec (RingBuffer.size rb) maxItems); [|lia].
  destruct (Z.ltb_spec maxItems 0); [reflexivity | lia].
Qed.

Lemma step_reached (cap : Z) (o : RingBuffer.op)
    (st st' : t * RingBuffer.tally) :
  RingBuffer.accounted cap st ->
  RingBuffer.step nil o st = Some st' ->
  RingBuffer.accounted cap st'.
Proof.
  intros Hacc Hstep.
  assert (Hcases : RingBuffer.runnable o
                   \/ exists maxItems, o = RingBuffer.OpDrain maxItems
                                       /\ maxItems < 0).
  { destruct o as [event | | maxItems | |]; simpl; auto.
    destruct (Z.lt_ge_cases maxItems 0); [right; eauto | left; lia]. }
  destruct Hcases as [Hrun | (maxItems & -> & Hneg)].
  - destruct (step_accounted cap o st Hrun Hacc) as (st1 & Hs1 & Hacc1).
    congruence.
  - destruct st as [rb c]. destruct Hacc as (Hwf & Hcap & Hsize).
    simpl in Hwf, Hcap, Hsize, Hstep.
    rewrite (drain_negative maxItems rb Hwf Hneg) in Hstep.
    destruct (RingBuffer.size rb =? 0); [|discriminate].
    simpl in Hstep. injection Hstep as <-.
    unfold RingBuffer.accounted. simpl. conjs; auto. lia.
Qed.

Lemma run_reached (cap : Z) (ops : list RingBuffer.op) :
  forall st st' : t * RingBuffer.tally,
    RingBuffer.accounted cap st ->
    RingBuffer.run nil ops st = Some st' ->
    RingBuffer.accounted cap st'.
Proof.
  induction ops as [| o rest IH]; intros st st' Hacc Hrun; simpl in Hrun.
  - congruence.
  - destruct (RingBuffer.step nil o st) as [st1|] eqn:Hs; [|discriminate].
    simpl in Hrun. exact (IH st1 st' (step_reached cap o st st1 Hacc Hs) Hrun).
Qed.

(** C7. In every state [rb] that a sequence of operations reaches from a
    buffer made by [NewRingBuffer]: the size is the number of successful
    [Add]s minus the number of items handed out by [Get] and by the
    drains ([Drain], [DrainAll]), and it does not exceed the capacity;
    [Add] on the full buffer returns [false] and leaves it as it is,
    while [Add] with room puts the event at the back of the queue;
    [Drain] takes the first [min maxItems size] items off the front of
    the queue and returns them in that order, oldest first; and every
    further sequence of operations runs to its end, as long as no
    [Drain] in it is given a negative count. *)
Theorem ring_buffer_fifo_accounting (cap : Z) (rb0 rb : t)
    (ops : list RingBuffer.op) (c : RingBuffer.tally) :
  RingBuffer.NewRingBuffer nil cap = Some rb0 ->
  RingBuffer.run nil ops
    (rb0, {| RingBuffer.added := 0; RingBuffer.returned := 0 |})
  = Some (rb, c) ->
  RingBuffer.Size rb = RingBuffer.added c - RingBuffer.returned c
  /\ RingBuffer.Size rb <= RingBuffer.Capacity rb
  /\ RingBuffer.Capacity rb = cap
  /\ (forall event,
         RingBuffer.Size rb = RingBuffer.Capacity rb ->
         RingBuffer.Add event rb = Some (false, rb))
  /\ (forall event,
         RingBuffer.Size rb < RingBuffer.Capacity rb ->
         exists rb',
           RingBuffer.Add event rb = Some (true, rb')
           /\ contents rb' = contents rb ++ [event])
  /\ (forall maxItems,
         0 <= maxItems ->
         let k := Z.to_nat (Z.min maxItems (RingBuffer.Size rb)) in
         exists rb',
           RingBuffer.Drain nil maxItems rb
           = Some (firstn k (contents rb), rb')
           /\ contents rb' = skipn k (contents rb)
           /\ RingBuffer.Size rb' = RingBuffer.Size rb - Z.of_nat k)
  /\ (forall more,
         Forall RingBuffer.runnable more ->
         exists st', RingBuffer.run nil more (rb, c) = Some st').
Proof.
  intros Hnew Hrun.
  destruct (new_well_formed cap rb0 Hnew) as (Hwf0 & _ & Hcap0 & Hsz0).
  assert (Hacc0 : RingBuffer.accounted cap
                    (rb0, {| RingBuffer.added := 0; RingBuffer.returned := 0 |})).
  { unfold RingBuffer.accounted, RingBuffer.Size. simpl. conjs; auto; lia. }
  pose proof (run_reached cap ops _ _ Hacc0 Hrun) as Hreached.
  destruct Hreached as (Hwf & Hcap & Hacc).
  simpl in Hwf, Hcap, Hacc.
  pose proof Hwf as (_ & Hsz & _).
  unfold RingBuffer.Size, RingBuffer.Capacity in *.
  conjs; auto; try lia.
  - intros event Hfull. apply add_full. lia.
  - intros event Hroom.
    destruct (add_room event rb Hwf Hroom) as (rb' & Ha & _ & Hc & _).
    exists rb'. auto.
  - intros maxItems Hmax.
    destruct (drain_front maxItems rb Hwf Hmax) as (rb' & Hd & _ & Hc & _ & Hs).
    exists rb'. auto.
  - intros more Hmore.
    destruct (run_accounted cap more (rb, c) Hmore) as (st' & Hr & _).
    { unfold RingBuffer.accounted, RingBuffer.Size. simpl. auto. }
    exists st'. exact Hr.
Qed.

End WithEvent.
End ring_props.

(** Two slots: the third [Add] is refused, [Drain 1] then hands out the
    oldest event, later events wrap around, and every count agrees. *)
Lemma ring_buffer_fifo_accounting_witness :
  RingBuffer.NewRingBuffer EmptyString 2 = Some sample.two_slots
  /\ RingBuffer.run EmptyString sample.ring_ops
       (sample.two_slots, sample.no_tally)
     = Some (sample.two_slots_later, sample.tally_later)
  /\ RingBuffer.Size sample.two_slots_later
     = RingBuffer.added sample.tally_later
       - RingBuffer.returned sample.tally_later.
Proof.
  assert (Hnew : RingBuffer.NewRingBuffer EmptyString 2 = Some sample.two_slots)
    by reflexivity.
  assert (Hrun : RingBuffer.run EmptyString sample.ring_ops
                   (sample.two_slots, sample.no_tally)
                 = Some (sample.two_slots_later, sample.tally_later))
    by (vm_compute; reflexivity).
  split; [exact Hnew|]. split; [exact Hrun|].
  exact (proj1 (ring_props.ring_buffer_fifo_accounting EmptyString 2
                  sample.two_slots sample.two_slots_later sample.ring_ops
                  sample.tally_later Hnew Hrun)).
Defined.

Example ring_refuses_third_and_drains_in_order :
  RingBuffer.run EmptyString
    [RingBuffer.OpAdd "a"%string; RingBuffer.OpAdd "b"%string;
     RingBuffer.OpAdd "c"%string]
    (sample.two_slots, sample.no_tally)
  = Some ({| RingBuffer.buffer := ["a"; "b"]%string;
             RingBuffer.capacity := 2; RingBuffer.head := 0;
             RingBuffer.tail := 0; RingBuffer.size := 2 |},
          {| RingBuffer.added := 2; RingBuffer.returned := 0 |})
  /\ (rb ← fst <$> RingBuffer.run EmptyString sample.ring_ops
              (sample.two_slots, sample.no_tally);
      fst <$> RingBuffer.Drain EmptyString 5 rb)
     = Some ["b"; "d"]%string.
Proof. split; vm_compute; reflexivity. Qed.

(** A negative count makes [Drain] on a buffer that holds something
    panic. *)
Example drain_negative_panics :
  (rb ← fst <$> RingBuffer.run EmptyString sample.ring_ops
             (sample.two_slots, sample.no_tally);
   RingBuffer.Drain EmptyString (-1) rb) = None.
Proof. vm_compute. reflexivity. Qed.

(** ** The leaky bucket *)

Module bucket_props.
Section WithFloat.
Context {float64 : Float64}.

Local Abbreviation t := LeakyBucket.t.









End WithFloat.
End bucket_props.



Example short_intervals_keep_their_fraction :
  LeakyBucket.refill (float64 := sample.exact) (sample.an_instant + 9 * Millisecond)
    sample.drained_bucket
  = sample.drained_bucket
  /\ LeakyBucket.tokens
       (LeakyBucket.refill (float64 := sample.exact)
          (sample.an_instant + 35 * Millisecond)
          (LeakyBucket.refill (float64 := sample.exact)
             (sample.an_instant + 9 * Millisecond) sample.drained_bucket))
     = 13.
Proof. split; vm_compute; reflexivity. Qed.

(** ** The log shipper *)

Module shipper_props.
Section WithWorld.
Context {float64 : Float64} {provider : TokenProvider} {E : Type} (nil : E).
Variable eventsToJSONL : list E -> option string.
Variable compressPayload : string -> option string.
Variable post : nat -> string -> bool -> option error.

Local Abbreviation t := (LogShipper.t (E := E)).
Local Abbreviation send := (LogShipper.send compressPayload post).
Local Abbreviation retry := (LogShipper.retry compressPayload post).
Local Abbreviation sendWithRetry :=
  (LogShipper.sendWithRetry compressPayload post).
Local Abbreviation before_attempt :=
  (LogShipper.before_attempt compressPayload post).
Local Abbreviation shipBatch :=
  (LogShipper.shipBatch eventsToJSONL compressPayload post).

Lemma send_slept (payload : string) (s : t) :
  LogShipper.slept (snd (send payload s)) = LogShipper.slept s
  /\ LogShipper.clock (snd (send payload s)) = LogShipper.clock s
  /\ (LogShipper.posts (snd (send payload s)) <= S (LogShipper.posts s))%nat.
Proof.
  unfold LogShipper.send.
  destruct (strs.is_empty GetLogsURL); [simpl; auto|].
  destruct (strs.is_empty GetToken); [simpl; auto|].
  destruct (1024 <? Z.of_nat (String.length payload));
    [destruct (compressPayload payload)|]; simpl; auto.
Qed.

Lemma before_attempt_slept (payload : string) (s : t) (j : nat) :
  (j <= 4)%nat ->
  LogShipper.slept (before_attempt payload j s)
  = LogShipper.slept s ++ firstn j LogShipper.backoffs
  /\ (LogShipper.posts (before_attempt payload j s) <= LogShipper.posts s + j)%nat.
Proof.
  induction j as [| j IH]; intros Hj.
  - simpl. rewrite app_nil_r. split; [reflexivity | lia].
  - destruct IH as [IHs IHp]; [lia|].
    cbn [LogShipper.before_attempt LogShipper.Sleep LogShipper.slept
         LogShipper.posts].
    destruct (send_slept payload (before_attempt payload j s)) as (Hs & _ & Hp).
    rewrite Hs, IHs, <- app_assoc. split; [|lia].
    f_equal.
    destruct j as [|[|[|[|j]]]]; try reflexivity. lia.
Qed.

Lemma retry_first (left : nat) (b : Duration) (lastErr : option error)
    (payload : string) (s : t) :
  retry (S left) 0 b lastErr payload s
  = match send payload s with
    | (None, s') => (None, s')
    | (Some err, s') => retry left 1 b (Some err) payload s'
    end.
Proof. reflexivity. Qed.

Lemma retry_later (left : nat) (attempt : Z) (b : Duration)
    (lastErr : option error) (payload : string) (s : t) :
  0 < attempt ->
  retry (S left) attempt b lastErr payload s
  = match send payload (LogShipper.Sleep b s) with
    | (None, s') => (None, s')
    | (Some err, s') =>
        retry left (attempt + 1)
          (MinDuration (wrap64 (b * 2)) LogShipper.maxBackoff) (Some err)
          payload s'
    end.
Proof.
  intros Hpos. cbn [LogShipper.retry].
  destruct (Z.gtb_spec attempt 0); [reflexivity | lia].
Qed.

Lemma before_attempt_next (payload : string) (s s' : t) (j : nat)
    (r : option error) (b : Duration) :
  send payload (before_attempt payload j s) = (r, s') ->
  nth j LogShipper.backoffs 0 = b ->
  LogShipper.Sleep b s' = before_attempt payload (S j) s.
Proof.
  intros Hs Hb. cbn [LogShipper.before_attempt]. rewrite Hs, Hb. reflexivity.
Qed.

Lemma retry_schedule (payload : string) (s : t) :
  exists k : nat,
    (k < 5)%nat
    /\ sendWithRetry payload s = send payload (before_attempt payload k s)
    /\ (forall j : nat,
           (j < k)%nat ->
           fst (send payload (before_attempt payload j s)) <> None)
    /\ (fst (send payload (before_attempt payload k s)) = None \/ k = 4%nat).
Proof.
  unfold LogShipper.sendWithRetry.
  change (Z.to_nat LogShipper.maxRetries) with 5%nat.
  rewrite retry_first.
  change s with (before_attempt payload 0 s) at 1.
  destruct (send payload (before_attempt payload 0 s)) as [[e0|] s0] eqn:E0.
  2:{ exists 0%nat. rewrite E0. repeat split; auto; intros; lia. }
  rewrite retry_later by lia.
  match goal with
  | |- context [LogShipper.Sleep ?b s0] =>
      rewrite (before_attempt_next payload s s0 0 _ b E0 eq_refl)
  end.
  destruct (send payload (before_attempt payload 1 s)) as [[e1|] s1] eqn:E1.
  2:{ exists 1%nat. rewrite E1. repeat split; auto; try lia.
      intros j Hj. assert (j = 0%nat) as -> by lia. rewrite E0. discriminate. }
  rewrite retry_later by lia.
  match goal with
  | |- context [LogShipper.Sleep ?b s1] =>
      rewrite (before_attempt_next payload s s1 1 _ b E1 eq_refl)
  end.
  destruct (send payload (before_attempt payload 2 s)) as [[e2|] s2] eqn:E2.
  2:{ exists 2%nat. rewrite E2. repeat split; auto; try lia.
      intros j Hj. destruct j as [|[|j]]; [rewrite E0 | rewrite E1 | lia];
        discriminate. }
  rewrite retry_later by lia.
  match goal with
  | |- context [LogShipper.Sleep ?b s2] =>
      rewrite (before_attempt_next payload s s2 2 _ b E2 eq_refl)
  end.
  destruct (send payload (before_attempt payload 3 s)) as [[e3|] s3] eqn:E3.
  2:{ exists 3%nat. rewrite E3. repeat split; auto; try lia.
      intros j Hj.
      destruct j as [|[|[|j]]]; [rewrite E0 | rewrite E1 | rewrite E2 | lia];
        discriminate. }
  rewrite retry_later by lia.
  match goal with
  | |- context [LogShipper.Sleep ?b s3] =>
      rewrite (before_attempt_next payload s s3 3 _ b E3 eq_refl)
  end.
  exists 4%nat.
  destruct (send payload (before_attempt payload 4 s)) as [[e4|] s4] eqn:E4;
    (repeat split; auto; try lia;
     intros j Hj;
     destruct j as [|[|[|[|j]]]];
     [rewrite E0 | rewrite E1 | rewrite E2 | rewrite E3 | lia];
     discriminate).
Qed.








(** C3, as the code has it.  [sendWithRetry] makes at most five attempts.
    The attempt of index [k] at which it stops is the first that
    succeeds, or the fifth; its result, error included, is the result of
    that attempt.  Before the attempts of index 1 to 4 it sleeps 1 s,
    2 s, 4 s and 8 s, so the pauses made are the first [k] of these four,
    none longer than [maxBackoff], and no attempt posts more than once.
    Every error counts as retryable. *)
Theorem sendWithRetry_attempts_and_pauses (payload : string) (s : t) :
  exists k : nat,
    (k < 5)%nat
    /\ sendWithRetry payload s = send payload (before_attempt payload k s)
    /\ (forall j : nat,
           (j < k)%nat ->
           fst (send payload (before_attempt payload j s)) <> None)
    /\ (fst (send payload (before_attempt payload k s)) = None \/ k = 4%nat)
    /\ LogShipper.slept (snd (sendWithRetry payload s))
       = LogShipper.slept s
         ++ firstn k [1 * Second; 2 * Second; 4 * Second; 8 * Second]
    /\ Forall (fun d => d <= LogShipper.maxBackoff)
         (firstn k [1 * Second; 2 * Second; 4 * Second; 8 * Second])
    /\ (LogShipper.posts (snd (sendWithRetry payload s))
        <= LogShipper.posts s + S k)%nat
    /\ (forall err, LogShipper.isRetryableError err = true).
Proof.
  destruct (retry_schedule payload s) as (k & Hk & Hrun & Hfail & Hstop).
  exists k. conjs; auto.
  - rewrite Hrun.
    destruct (send_slept payload (before_attempt payload k s)) as (Hs & _ & _).
    rewrite Hs. apply before_attempt_slept. lia.
  - apply Forall_take.
    repeat constructor; unfold LogShipper.maxBackoff, Second; lia.
  - rewrite Hrun.
    destruct (send_slept payload (before_attempt payload k s)) as (_ & _ & Hp).
    destruct (before_attempt_slept payload s k) as [_ Hq]; lia.
Qed.



End WithWorld.
End shipper_props.

(** C3, as it is stated, fails when every attempt fails: five POSTs go
    out with four pauses between them, of 1 s, 2 s, 4 s and 8 s; there
    is no pause of 16 s: the pauses are four, not five. *)
Lemma sendWithRetry_counterexample :
  LogShipper.slept (snd (sample.send_all sample.failing "{}" sample.shipper))
  = [1 * Second; 2 * Second; 4 * Second; 8 * Second]
  /\ LogShipper.slept (snd (sample.send_all sample.failing "{}" sample.shipper))
     <> [1 * Second; 2 * Second; 4 * Second; 8 * Second; 16 * Second]
  /\ ~ In (16 * Second)
         (LogShipper.slept
            (snd (sample.send_all sample.failing "{}" sample.shipper)))
  /\ LogShipper.posts (snd (sample.send_all sample.failing "{}" sample.shipper))
     = 5%nat
  /\ fst (sample.send_all sample.failing "{}" sample.shipper)
     = Some "server error: "%string.
Proof.
  assert (Hs : LogShipper.slept
                 (snd (sample.send_all sample.failing "{}" sample.shipper))
               = [1 * Second; 2 * Second; 4 * Second; 8 * Second])
    by (vm_compute; reflexivity).
  rewrite Hs. conjs.
  - reflexivity.
  - discriminate.
  - vm_compute. intros [H | [H | [H | [H | []]]]]; discriminate.
  - vm_compute. reflexivity.
  - vm_compute. reflexivity.
Qed.

Example second_attempt_succeeds :
  sample.send_all
    (fun k _ _ => if (k =? 0)%nat then Some "server error: "%string else None)
    "{}" sample.shipper
  = (None,
     LogShipper.posted
       (LogShipper.Sleep (1 * Second) (LogShipper.posted sample.shipper))).
Proof. vm_compute. reflexivity. Qed.


(** While the circuit is open a shipment posts nothing and sleeps not. *)
Example open_circuit_rebuffers :
  (s ← sample.ship sample.failing ["e"%string] (sample.after_failures 10);
   Some (LogShipper.posts s =? LogShipper.posts (sample.after_failures 10))%nat)
  = Some true
  /\ LogShipper.posts (sample.after_failures 10) = 50%nat.
Proof. split; vm_compute; reflexivity. Qed.


(** ** The token manager *)

Module api_props.

Lemma refresh_keeps_latch (now : Time) (r : api.BootstrapResult)
    (tm : api.TokenManager) :
  api.deploymentDeleted tm = true ->
  api.deploymentDeleted (fst (api.refresh now r tm)) = true.
Proof. intros Hd. destruct r; simpl; auto. Qed.

Lemma loop_keeps_latch (firings : list (Time * api.BootstrapResult)) :
  forall tm : api.TokenManager,
    api.deploymentDeleted tm = true ->
    api.deploymentDeleted (api.loop firings tm) = true.
Proof.
  induction firings as [| [now r] rest IH]; intros tm Hd; simpl; [exact Hd|].
  unfold api.fire. rewrite Hd. exact Hd.
Qed.

Lemma apply_keeps_latch (o : api.op) (tm : api.TokenManager) :
  api.deploymentDeleted tm = true ->
  api.deploymentDeleted (api.apply o tm) = true.
Proof.
  intros Hd.
  destruct o as [now r | now r | firings | firings | now d r | now r]; simpl.
  - destruct r; simpl; auto.
  - apply refresh_keeps_latch, Hd.
  - unfold api.StartRefreshLoop. rewrite Hd. exact Hd.
  - apply loop_keeps_latch, Hd.
  - unfold api.GetTokenWithMinValidity.
    destruct (Sub (api.tokenExpiry tm) now >? d); simpl; [exact Hd|].
    pose proof (refresh_keeps_latch now r tm Hd) as Hr.
    destruct (api.refresh now r tm); exact Hr.
  - apply refresh_keeps_latch, Hd.
Qed.

(** C8. Once [IsDeploymentDeleted] answers [true] it answers [true]
    after any sequence of [Initialize], [refresh], [StartRefreshLoop],
    firings of a running refresh loop, [GetTokenWithMinValidity] and
    [ForceRefresh], whatever the bootstrap endpoint replies. *)
Theorem deployment_deleted_is_terminal (ops : list api.op)
    (tm : api.TokenManager) :
  api.IsDeploymentDeleted tm = true ->
  api.IsDeploymentDeleted (api.run ops tm) = true.
Proof.
  unfold api.IsDeploymentDeleted, api.run. revert tm.
  induction ops as [| o rest IH]; intros tm Hd; simpl; [exact Hd|].
  apply IH, apply_keeps_latch, Hd.
Qed.

End api_props.

(** A manager latched by a 410 stays latched through a bootstrap that
    would succeed, a forced refresh, a refresh loop and a token request
    past the expiry. *)
Lemma deployment_deleted_is_terminal_witness :
  api.IsDeploymentDeleted sample.gone = true
  /\ api.IsDeploymentDeleted (api.run sample.manager_ops sample.gone) = true.
Proof.
  split; [reflexivity|].
  exact (api_props.deployment_deleted_is_terminal sample.manager_ops
           sample.gone eq_refl).
Defined.

(** ** Shared facts on strings and machine integers *)

Lemma is_empty_eq (s : string) : strs.is_empty s = true <-> s = EmptyString.
Proof. destruct s; simpl; split; intros; congruence. Qed.

Lemma is_empty_false (s : string) : strs.is_empty s = false <-> s <> EmptyString.
Proof. destruct s; simpl; split; intros; congruence. Qed.

Lemma substring_length_le (n : nat) :
  forall s : string, (String.length (String.substring 0 n s) <= n)%nat.
Proof.
  induction n as [| n IH]; intros s; destruct s; simpl; try lia.
  specialize (IH s). lia.
Qed.

Lemma wrap64_range (z : Z) : min_int64 <= wrap64 z <= max_int64.
Proof.
  unfold wrap64, min_int64, max_int64.
  pose proof (Z.mod_pos_bound (z + 2 ^ 63) (2 ^ 64) ltac:(lia)). lia.
Qed.

(** ** The bootstrap client and the config client *)

Module client_props.
Section WithControlPlane.
Context {plane : client.ControlPlane}.

(** X1. [Bootstrap] returns the permanent error exactly when the request
    could be prepared and was answered with status 410, and its message
    is the first 1024 bytes of the body at most; it returns a response
    exactly when the answer has status 200 and decodes. *)
Theorem bootstrap_permanent_only_on_gone (token : string) :
  (forall msg,
      client.Bootstrap token = api.PermanentError msg
      <-> exists url payload body,
          client.bootstrapRequest token = Ok (url, payload)
          /\ client.Do "POST" url EmptyString payload = Response 410 body
          /\ msg = client.limited body)
  /\ (forall resp,
         client.Bootstrap token = api.Bootstrapped resp
         <-> exists url payload body,
             client.bootstrapRequest token = Ok (url, payload)
             /\ client.Do "POST" url EmptyString payload = Response 200 body
             /\ client.decodeBootstrapResponse body = Ok resp)
  /\ (forall msg,
         client.Bootstrap token = api.PermanentError msg ->
         (String.length msg <= 1024)%nat).
Proof.
  assert (Hperm : forall msg,
      client.Bootstrap token = api.PermanentError msg
      <-> exists url payload body,
          client.bootstrapRequest token = Ok (url, payload)
          /\ client.Do "POST" url EmptyString payload = Response 410 body
          /\ msg = client.limited body).
  { intros msg. unfold client.Bootstrap.
    destruct (client.bootstrapRequest token) as [[url payload] | e].
    - destruct (client.Do "POST" url EmptyString payload) as [e | status body] eqn:HDo.
      + split; [discriminate|]. intros (u & p & b & Hreq & Hd & _).
        injection Hreq as <- <-. congruence.
      + unfold client.StatusOK, client.StatusGone.
        destruct (status =? 200) eqn:H200; simpl.
        * split.
          -- destruct (client.decodeBootstrapResponse body); discriminate.
          -- intros (u & p & b & Hreq & Hd & _). injection Hreq as <- <-.
             rewrite HDo in Hd. injection Hd as -> _. discriminate.
        * destruct (status =? 410) eqn:H410.
          -- apply Z.eqb_eq in H410. subst status. split.
             ++ intros [= <-]. exists url, payload, body. auto.
             ++ intros (u & p & b & Hreq & Hd & ->). injection Hreq as <- <-.
                rewrite HDo in Hd. injection Hd as <-. reflexivity.
          -- split; [discriminate|].
             intros (u & p & b & Hreq & Hd & _). injection Hreq as <- <-.
             rewrite HDo in Hd. injection Hd as -> _. discriminate.
    - split; [discriminate|]. intros (u & p & b & Hreq & _). discriminate. }
  split; [exact Hperm|]. split.
  - intros resp. unfold client.Bootstrap.
    destruct (client.bootstrapRequest token) as [[url payload] | e].
    + destruct (client.Do "POST" url EmptyString payload) as [e | status body] eqn:HDo.
      * split; [discriminate|]. intros (u & p & b & Hreq & Hd & _).
        injection Hreq as <- <-. congruence.
      * unfold client.StatusOK, client.StatusGone.
        destruct (status =? 200) eqn:H200; simpl.
        -- apply Z.eqb_eq in H200. subst status. split.
           ++ destruct (client.decodeBootstrapResponse body) as [r | e] eqn:Hdec;
                [|discriminate].
              intros [= <-]. exists url, payload, body. auto.
           ++ intros (u & p & b & Hreq & Hd & Hdec). injection Hreq as <- <-.
              rewrite HDo in Hd. injection Hd as <-. rewrite Hdec. reflexivity.
        -- split.
           ++ destruct (status =? 410); discriminate.
           ++ intros (u & p & b & Hreq & Hd & _). injection Hreq as <- <-.
              rewrite HDo in Hd. injection Hd as -> _. discriminate.
    + split; [discriminate|]. intros (u & p & b & Hreq & _). discriminate.
  - intros msg Hm. apply Hperm in Hm as (u & p & b & _ & _ & ->).
    apply substring_length_le.
Qed.

Lemma GetEDLConfig_needs_credentials (tm : api.TokenManager) :
  (forall e, client.GetEDLConfig tm <> client.ConfigError e) ->
  api.configURL tm <> EmptyString /\ api.currentToken tm <> EmptyString.
Proof.
  unfold client.GetEDLConfig. intros Hne.
  destruct (strs.is_empty (api.configURL tm)) eqn:Hurl.
  { exfalso. eapply Hne. reflexivity. }
  destruct (client.NewRequest "GET" (api.configURL tm)).
  { exfalso. eapply Hne. reflexivity. }
  destruct (strs.is_empty (api.currentToken tm)) eqn:Htok.
  { exfalso. eapply Hne. reflexivity. }
  split; apply is_empty_false; assumption.
Qed.

(** X2. [GetEDLConfig] returns an enabled config only for a response with
    status 200, and then whatever the body says of [enabled]; it reports
    the deployment as disabled only for a 403, 404 or 410 whose body
    carries one of the two codes; it returns the permanent error exactly
    for a 410 without such a code; without a config URL or a token it
    returns an error. *)
Theorem config_enabled_only_from_ok (tm : api.TokenManager) :
  let answer :=
    client.Do "GET" (api.configURL tm) (api.currentToken tm) EmptyString in
  (forall c,
      client.GetEDLConfig tm = client.Config c ->
      (client.Enabled c = true
       /\ exists body c0,
           answer = Response 200 body
           /\ failure body = None
           /\ client.decodeEDLConfig (read body) = Ok c0
           /\ client.Purpose c = client.Purpose c0
           /\ client.UpdateFrequencySeconds c = client.UpdateFrequencySeconds c0
           /\ client.Combined c = client.Combined c0)
      \/ (c = client.allow_all
          /\ exists status body,
              answer = Response status body
              /\ (status = 403 \/ status = 404 \/ status = 410)
              /\ client.disabled_code (read body) = true))
  /\ (forall msg,
         client.GetEDLConfig tm = client.ConfigGone msg
         <-> api.configURL tm <> EmptyString
             /\ api.currentToken tm <> EmptyString
             /\ client.NewRequest "GET" (api.configURL tm) = None
             /\ exists body,
                 answer = Response 410 body
                 /\ failure body = None
                 /\ client.disabled_code (read body) = false
                 /\ msg = read body)
  /\ (api.configURL tm = EmptyString \/ api.currentToken tm = EmptyString ->
      exists e, client.GetEDLConfig tm = client.ConfigError e).
Proof.
  intros answer. subst answer. unfold client.GetEDLConfig.
  unfold client.StatusNotFound, client.StatusForbidden, client.StatusGone,
    client.StatusOK.
  destruct (strs.is_empty (api.configURL tm)) eqn:Hurl.
  { apply is_empty_eq in Hurl. repeat split; try discriminate.
    - intros (Hn & _). congruence.
    - intros _. eexists. reflexivity. }
  apply is_empty_false in Hurl.
  destruct (client.NewRequest "GET" (api.configURL tm)) as [e |] eqn:Hreq.
  { repeat split; try discriminate.
    - intros (_ & _ & Hn & _). congruence.
    - intros _. eexists. reflexivity. }
  destruct (strs.is_empty (api.currentToken tm)) eqn:Htok.
  { apply is_empty_eq in Htok. repeat split; try discriminate.
    - intros (_ & Hn & _). congruence.
    - intros _. eexists. reflexivity. }
  apply is_empty_false in Htok.
  destruct (client.Do "GET" (api.configURL tm) (api.currentToken tm) EmptyString)
    as [e | status body] eqn:HDo.
  { repeat split; try discriminate.
    - intros (_ & _ & _ & b & Hb & _). discriminate.
    - intros [? | ?]; congruence. }
  destruct (failure body) as [e |] eqn:Hfail.
  { repeat split; try discriminate.
    - intros (_ & _ & _ & b & Hb & Hf & _). injection Hb as _ <-. congruence.
    - intros [? | ?]; congruence. }
  assert (Hthird :
    api.configURL tm = EmptyString \/ api.currentToken tm = EmptyString ->
    forall r : client.ConfigResult, exists e, r = client.ConfigError e).
  { intros [? | ?]; congruence. }
  destruct ((status =? 404) || (status =? 403) || (status =? 410)) eqn:Hgate.
  - assert (Hs : status = 403 \/ status = 404 \/ status = 410).
    { apply orb_true_iff in Hgate as [Hg | Hg];
        [apply orb_true_iff in Hg as [Hg | Hg] |]; apply Z.eqb_eq in Hg; lia. }
    destruct (client.disabled_code (read body)) eqn:Hcode.
    + split; [|split].
      * intros c [= <-]. right. split; [reflexivity|]. exists status, body. auto.
      * intros msg. split; [discriminate|].
        intros (_ & _ & _ & b & Hb & _ & Hd & _). injection Hb as _ <-. congruence.
      * intros H. apply Hthird, H.
    + destruct (status =? 410) eqn:H410.
      * apply Z.eqb_eq in H410. subst status. split; [|split].
        -- intros c; discriminate.
        -- intros msg. split.
           ++ intros [= <-]. repeat split; auto. exists body. auto.
           ++ intros (_ & _ & _ & b & Hb & _ & _ & ->). injection Hb as <-.
              reflexivity.
        -- intros H. apply Hthird, H.
      * apply Z.eqb_neq in H410. split; [|split].
        -- intros c; discriminate.
        -- intros msg. split; [discriminate|].
           intros (_ & _ & _ & b & Hb & _). injection Hb as Hst _. lia.
        -- intros H. apply Hthird, H.
  - assert (Hs : status <> 410).
    { apply orb_false_iff in Hgate as [_ Hg]. apply Z.eqb_neq in Hg. exact Hg. }
    assert (Hnot : forall msg,
      api.configURL tm <> EmptyString
      /\ api.currentToken tm <> EmptyString
      /\ @None error = None
      /\ (exists body0,
             Response status body = Response 410 body0
             /\ failure body0 = None
             /\ client.disabled_code (read body0) = false
             /\ msg = read body0) -> False).
    { intros msg (_ & _ & _ & b & Hb & _). injection Hb as Hst _. lia. }
    destruct (status =? 200) eqn:H200; simpl.
    + apply Z.eqb_eq in H200. subst status.
      destruct (client.decodeEDLConfig (read body)) as [c0 | e] eqn:Hdec.
      * split; [|split].
        -- intros c [= <-]. left. split; [reflexivity|]. exists body, c0. repeat split; auto.
        -- intros msg. split; [discriminate|]. intros H. destruct (Hnot msg H).
        -- intros H. apply Hthird, H.
      * split; [|split].
        -- intros c; discriminate.
        -- intros msg. split; [discriminate|]. intros H. destruct (Hnot msg H).
        -- intros H. apply Hthird, H.
    + split; [|split].
      * intros c; discriminate.
      * intros msg. split; [discriminate|]. intros H. destruct (Hnot msg H).
      * intros H. apply Hthird, H.
Qed.

End WithControlPlane.
End client_props.

(** ** Startup: the configuration and the handler built from it *)

Module config_props.
Section WithControlPlane.
Context {env : Env} {plane : client.ControlPlane}.

Lemma parseBootstrapToken_frame (cfg : config.Config) :
  let cfg' := config.parseBootstrapToken cfg in
  config.BootstrapToken cfg' = config.BootstrapToken cfg
  /\ config.EDLURL cfg' = config.EDLURL cfg
  /\ config.TokenManager cfg' = config.TokenManager cfg
  /\ config.IPHeaderOverride cfg' = config.IPHeaderOverride cfg.
Proof.
  unfold config.parseBootstrapToken.
  destruct (client.ProtectedID _); simpl; auto.
Qed.

Lemma setDeploymentDisabled_policy (cfg : config.Config) :
  config.disabled_policy (config.setDeploymentDisabled cfg).
Proof. repeat split. Qed.

Lemma applyEDLConfig_policy (edlConfig : client.EDLConfig)
    (cfg : config.Config) :
  let cfg' := config.applyEDLConfig edlConfig cfg in
  (client.Enabled edlConfig = false /\ config.disabled_policy cfg')
  \/ (client.Enabled edlConfig = true
      /\ config.enabled_policy cfg'
      /\ (config.EDLMode cfg' = "allowlist"%string
          <-> client.Purpose edlConfig = "allowlist"%string)
      /\ config.EDLURL cfg'
         = match client.Combined edlConfig with
           | first :: _ => first
           | [] => config.EDLURL cfg
           end).
Proof.
  unfold config.applyEDLConfig.
  destruct (client.Enabled edlConfig); simpl.
  - right. split; [reflexivity|]. split; [|split].
    + split; [reflexivity|]. split.
      * destruct (String.eqb _ _); auto.
      * pose proof (wrap64_range
                      (client.UpdateFrequencySeconds edlConfig * Second)) as Hr.
        destruct (wrap64 _ <=? 0) eqn:Hle.
        -- change (0 < 5 * Minute <= max_int64).
           unfold Minute, Second, max_int64. lia.
        -- apply Z.leb_gt in Hle.
           change (0 < wrap64 (client.UpdateFrequencySeconds edlConfig * Second)
                   <= max_int64). lia.
    + destruct (String.eqb (client.Purpose edlConfig) "allowlist") eqn:Hp.
      * apply String.eqb_eq in Hp. tauto.
      * apply String.eqb_neq in Hp. split; [discriminate | tauto].
    + reflexivity.
  - left. split; [reflexivity|]. apply setDeploymentDisabled_policy.
Qed.

(** X3. [InitializeServices] returns no error exactly when the bootstrap
    token is set, the bootstrap is answered with a token, and the fetch of
    the config does not end in an error that is not permanent.  A 410 at
    the bootstrap ends the startup with an error, the manager latched:
    the branch that would turn it into a disabled deployment is not
    reachable. *)
Theorem startup_fails_on_gone_bootstrap (now : Time)
    (firings : list (Time * api.BootstrapResult)) (cfg : config.Config) :
  let out := config.InitializeServices now firings cfg in
  (snd out = None
   <-> config.BootstrapToken cfg <> EmptyString
       /\ exists resp,
           client.Bootstrap (config.BootstrapToken cfg) = api.Bootstrapped resp
           /\ forall e,
               client.GetEDLConfig
                 (api.StartRefreshLoop firings
                    (api.store now resp api.NewTokenManager))
               <> client.ConfigError e)
  /\ (forall msg,
         config.BootstrapToken cfg <> EmptyString ->
         client.Bootstrap (config.BootstrapToken cfg) = api.PermanentError msg ->
         snd out
         = Some ("failed to bootstrap: initial bootstrap failed: permanent error: "
                 ++ msg)%string
         /\ config.TokenManager (fst out) = Some (api.latch api.NewTokenManager)
         /\ config.DeploymentEnabled (fst out) = config.DeploymentEnabled cfg
         /\ config.EDLMode (fst out) = config.EDLMode cfg).
Proof.
  intros out. subst out. unfold config.InitializeServices.
  destruct (strs.is_empty (config.BootstrapToken cfg)) eqn:Htok.
  { apply is_empty_eq in Htok. split.
    - split; [discriminate|]. intros [Hn _]. congruence.
    - intros msg Hn. congruence. }
  apply is_empty_false in Htok.
  destruct (parseBootstrapToken_frame cfg) as (Hbt & _).
  rewrite Hbt.
  destruct (client.Bootstrap (config.BootstrapToken cfg)) as [resp | m | m] eqn:HB;
    simpl.
  - split; [|intros msg _; discriminate].
    destruct (client.GetEDLConfig _) as [c | m | e] eqn:HG; simpl.
    + split; [|reflexivity]. intros _. split; [exact Htok|].
      exists resp. split; [reflexivity|]. intros e. rewrite HG. discriminate.
    + split; [|reflexivity]. intros _. split; [exact Htok|].
      exists resp. split; [reflexivity|]. intros e. rewrite HG. discriminate.
    + split; [discriminate|]. intros (_ & resp' & [= <-] & Hne).
      exfalso. apply (Hne e). exact HG.
  - split.
    + split; [discriminate|]. intros (_ & resp & Hr & _). discriminate.
    + intros msg _ [= <-]. repeat split.
      * unfold config.parseBootstrapToken.
        destruct (client.ProtectedID _); reflexivity.
      * unfold config.parseBootstrapToken.
        destruct (client.ProtectedID _); reflexivity.
  - split.
    + split; [discriminate|]. intros (_ & resp & Hr & _). discriminate.
    + intros msg _. discriminate.
Qed.

Lemma applyEDLConfig_frame (edlConfig : client.EDLConfig)
    (cfg : config.Config) :
  let cfg' := config.applyEDLConfig edlConfig cfg in
  config.BootstrapToken cfg' = config.BootstrapToken cfg
  /\ config.TokenManager cfg' = config.TokenManager cfg
  /\ config.MaxRetryAttempts cfg' = config.MaxRetryAttempts cfg
  /\ config.RetryDelay cfg' = config.RetryDelay cfg
  /\ config.IPHeaderOverride cfg' = config.IPHeaderOverride cfg
  /\ config.DeviceID cfg' = config.DeviceID cfg.
Proof.
  unfold config.applyEDLConfig.
  destruct (client.Enabled edlConfig); simpl; repeat split.
Qed.

(** X4. A configuration that [Load] returns carries the bootstrap token of
    the environment, a token manager that holds an access token and a
    config URL, and one of two policies: the disabled one (mode
    [disabled], no URL, one hour), or an enabled one whose mode is
    [allowlist] or [blocklist] and whose update period is positive. *)
Theorem loaded_config_profile (now : Time)
    (firings : list (Time * api.BootstrapResult)) (cfg : config.Config) :
  config.Load now firings = Ok cfg ->
  config.BootstrapToken cfg = Getenv "ELLIO_BOOTSTRAP"
  /\ config.BootstrapToken cfg <> EmptyString
  /\ (exists tm,
         config.TokenManager cfg = Some tm
         /\ api.currentToken tm <> EmptyString
         /\ api.configURL tm <> EmptyString)
  /\ (config.disabled_policy cfg \/ config.enabled_policy cfg)
  /\ config.MaxRetryAttempts cfg = utils.GetEnvAsInt "MAX_RETRY_ATTEMPTS" 3
  /\ config.RetryDelay cfg = utils.GetEnvAsDuration "RETRY_DELAY" (30 * Second).
Proof.
  unfold config.Load, config.InitializeServices.
  destruct (strs.is_empty (config.BootstrapToken config.LoadFromEnv)) eqn:Htok;
    [discriminate|].
  apply is_empty_false in Htok.
  destruct (parseBootstrapToken_frame config.LoadFromEnv) as (Hbt & _).
  rewrite Hbt.
  assert (Hget : config.BootstrapToken config.LoadFromEnv = Getenv "ELLIO_BOOTSTRAP").
  { simpl. unfold utils.GetEnv.
    destruct (strs.is_empty (Getenv "ELLIO_BOOTSTRAP")) eqn:He; simpl; [|reflexivity].
    apply is_empty_eq in He. congruence. }
  assert (Hframe : forall id,
    config.MaxRetryAttempts (config.with_device id config.LoadFromEnv)
    = utils.GetEnvAsInt "MAX_RETRY_ATTEMPTS" 3
    /\ config.RetryDelay (config.with_device id config.LoadFromEnv)
       = utils.GetEnvAsDuration "RETRY_DELAY" (30 * Second)
    /\ config.BootstrapToken (config.with_device id config.LoadFromEnv)
       = config.BootstrapToken config.LoadFromEnv).
  { intros id. repeat split. }
  destruct (client.Bootstrap (config.BootstrapToken config.LoadFromEnv))
    as [resp | m | m]; simpl; try discriminate.
  set (tm := api.StartRefreshLoop firings (api.store now resp api.NewTokenManager)).
  set (cfg1 := config.with_manager tm
                 (config.with_manager (api.store now resp api.NewTokenManager)
                    (config.parseBootstrapToken config.LoadFromEnv))).
  assert (Hcfg1 :
    config.BootstrapToken cfg1 = config.BootstrapToken config.LoadFromEnv
    /\ config.TokenManager cfg1 = Some tm
    /\ config.MaxRetryAttempts cfg1 = utils.GetEnvAsInt "MAX_RETRY_ATTEMPTS" 3
    /\ config.RetryDelay cfg1 = utils.GetEnvAsDuration "RETRY_DELAY" (30 * Second)).
  { subst cfg1. unfold config.parseBootstrapToken.
    destruct (client.ProtectedID _); repeat split. }
  destruct Hcfg1 as (H1 & H2 & H3 & H4).
  destruct (client.GetEDLConfig tm) as [c | m | e] eqn:HG; [| |discriminate].
  - intros [= <-].
    destruct (client_props.GetEDLConfig_needs_credentials tm) as [Hurl Htk].
    { intros e. rewrite HG. discriminate. }
    destruct (applyEDLConfig_frame c cfg1) as (F1 & F2 & F3 & F4 & _).
    rewrite F1, F2, F3, F4, H1, H2, H3, H4, <- Hget.
    repeat split; auto.
    + exists tm. auto.
    + destruct (applyEDLConfig_policy c cfg1) as [[_ Hp] | (_ & Hp & _)]; auto.
  - intros [= <-].
    destruct (client_props.GetEDLConfig_needs_credentials tm) as [Hurl Htk].
    { intros e. rewrite HG. discriminate. }
    change (config.BootstrapToken (config.setDeploymentDisabled cfg1))
      with (config.BootstrapToken cfg1).
    change (config.TokenManager (config.setDeploymentDisabled cfg1))
      with (config.TokenManager cfg1).
    change (config.MaxRetryAttempts (config.setDeploymentDisabled cfg1))
      with (config.MaxRetryAttempts cfg1).
    change (config.RetryDelay (config.setDeploymentDisabled cfg1))
      with (config.RetryDelay cfg1).
    rewrite H1, H2, H3, H4, <- Hget.
    repeat split; auto.
    + exists tm. auto.
    + left. apply setDeploymentDisabled_policy.
Qed.

End WithControlPlane.
End config_props.

(** The startup against a control plane that answers the config request
    with 200: the policy is the enabled one. *)
Lemma loaded_config_profile_witness :
  scenario.loaded 200 = Ok (scenario.started 200)
  /\ config.enabled_policy (scenario.started 200).
Proof.
  split; [reflexivity|].
  destruct (config_props.loaded_config_profile (env := scenario.env)
              (plane := scenario.plane 200) sample.an_instant []
              (scenario.started 200) eq_refl)
    as (_ & _ & _ & [Hp | Hp] & _); [|exact Hp].
  destruct Hp as [Hp _]. discriminate Hp.
Defined.

Module main_props.
Section WithNetIP.
Context {netip : NetIP}.
Variable CanonicalMIMEHeaderKey : string -> string.
Variable SplitHostPort : string -> option (string * string).

Local Abbreviation extractClientIP :=
  (auth.extractClientIP CanonicalMIMEHeaderKey SplitHostPort).
Local Abbreviation ServeHTTP :=
  (auth.ServeHTTP CanonicalMIMEHeaderKey SplitHostPort).

Lemma initAuthHandler_fields (cfg : config.Config) (m : ipmatcher.Matcher)
    (h : auth.Handler) :
  main.initAuthHandler cfg m = Some h ->
  auth.matcher h = m
  /\ auth.ipHeaderOverride h = config.IPHeaderOverride cfg
  /\ auth.deploymentEnabled h = config.DeploymentEnabled cfg
  /\ auth.isBlocklist h = String.eqb (config.EDLMode cfg) "blocklist"
  /\ exists tm,
      config.TokenManager cfg = Some tm
      /\ auth.logShipper h = negb (strs.is_empty (api.logsURL tm))
      /\ auth.deviceID h
         = if auth.logShipper h then config.DeviceID cfg else EmptyString.
Proof.
  unfold main.initAuthHandler.
  destruct (config.TokenManager cfg) as [tm |]; [|discriminate]. simpl.
  destruct (strs.is_empty (config.IPHeaderOverride cfg)) eqn:Ho;
    destruct (strs.is_empty (api.logsURL tm)) eqn:Hl; simpl;
    intros [= <-]; simpl; repeat split; auto;
    try (apply is_empty_eq in Ho; auto);
    exists tm; rewrite Hl; auto.
Qed.

Lemma serve_disabled (h : auth.Handler) (page : option string)
    (r : auth.Request) :
  auth.deploymentEnabled h = false ->
  extractClientIP h r <> EmptyString ->
  auth.status (ServeHTTP h page r) = 200.
Proof.
  intros Hd Hip. unfold auth.ServeHTTP, auth.evaluateAccess.
  apply is_empty_false in Hip. rewrite Hip, Hd. reflexivity.
Qed.

(** X5. The handler that [initAuthHandler] builds from a configuration to
    which [applyEDLConfig] has been applied follows the control plane: it
    is enabled exactly when the config is; enabled, it is an allowlist
    handler exactly when the purpose is [allowlist], and a blocklist
    handler for every other purpose; disabled, it answers 200 to every
    request whose client address it can read; a shipper is attached
    exactly when the manager holds a logs URL. *)
Theorem handler_follows_control_plane (edlConfig : client.EDLConfig)
    (cfg : config.Config) (m : ipmatcher.Matcher) (h : auth.Handler) :
  main.initAuthHandler (config.applyEDLConfig edlConfig cfg) m = Some h ->
  auth.matcher h = m
  /\ auth.ipHeaderOverride h = config.IPHeaderOverride cfg
  /\ auth.deploymentEnabled h = client.Enabled edlConfig
  /\ (client.Enabled edlConfig = true ->
      (auth.mode h = auth.Allowlist
       <-> client.Purpose edlConfig = "allowlist"%string))
  /\ (client.Enabled edlConfig = false ->
      forall page r,
        extractClientIP h r <> EmptyString ->
        auth.status (ServeHTTP h page r) = 200)
  /\ (auth.logShipper h = true
      <-> exists tm,
          config.TokenManager cfg = Some tm /\ api.logsURL tm <> EmptyString)
  /\ config.AllowsAllTraffic
       (config.GetDeploymentState (config.applyEDLConfig edlConfig cfg))
     = negb (auth.deploymentEnabled h).
Proof.
  intros Hinit.
  destruct (initAuthHandler_fields _ _ _ Hinit)
    as (Hm & Ho & He & Hb & tm & Htm & Hl & _).
  destruct (config_props.applyEDLConfig_frame edlConfig cfg)
    as (_ & Ftm & _ & _ & Fo & _).
  rewrite Ftm in Htm. rewrite Fo in Ho.
  assert (Hen : auth.deploymentEnabled h = client.Enabled edlConfig).
  { rewrite He.
    destruct (config_props.applyEDLConfig_policy edlConfig cfg)
      as [[H1 (H2 & _)] | (H1 & (H2 & _) & _)]; congruence. }
  split; [exact Hm|]. split; [exact Ho|]. split; [exact Hen|].
  split; [|split; [|split]].
  - intros Htrue.
    destruct (config_props.applyEDLConfig_policy edlConfig cfg)
      as [[H1 _] | (_ & (_ & Hmode & _) & Hiff & _)]; [congruence|].
    unfold auth.mode. rewrite Hb. rewrite <- Hiff.
    destruct Hmode as [Hmode | Hmode]; rewrite Hmode; simpl;
      split; intros; congruence.
  - intros Hfalse page r Hip. apply serve_disabled; [congruence | exact Hip].
  - rewrite Hl. split.
    + intros Hs. exists tm. split; [exact Htm|].
      apply is_empty_false. destruct (strs.is_empty (api.logsURL tm)); auto;
        discriminate.
    + intros (tm' & Htm' & Hne). rewrite Htm in Htm'. injection Htm' as <-.
      apply is_empty_false in Hne. rewrite Hne. reflexivity.
  - unfold config.GetDeploymentState. rewrite <- He.
    destruct (auth.deploymentEnabled h); simpl; [reflexivity|].
    destruct (config.TokenManager (config.applyEDLConfig edlConfig cfg))
      as [tm' |]; [|reflexivity].
    destruct (api.IsDeploymentDeleted tm'); reflexivity.
Qed.

End WithNetIP.
End main_props.

(** The handler of a startup whose config request was answered with the
    config of a disabled deployment lets every address through. *)
Lemma handler_follows_control_plane_witness :
  main.initAuthHandler (netip := sample.ipv4)
    (config.applyEDLConfig client.allow_all (scenario.started 200))
    sample.ten_slash_eight
  = Some (auth.SetDeviceID "machine-of-d-1"
            (auth.SetLogShipper (sample.handler "disabled" false)))
  /\ auth.status
       (sample.serve
          (auth.SetDeviceID "machine-of-d-1"
             (auth.SetLogShipper (sample.handler "disabled" false)))
          (sample.request "10.1.2.3")) = 200.
Proof.
  split; [reflexivity|].
  destruct (main_props.handler_follows_control_plane (netip := sample.ipv4)
              sample.canonical sample.split_host_port
              client.allow_all (scenario.started 200) sample.ten_slash_eight
              _ eq_refl)
    as (_ & _ & _ & _ & Hserve & _).
  apply (Hserve eq_refl None (sample.request "10.1.2.3")).
  discriminate.
Defined.

(** ** The token manager: what a request and the refresh loop leave *)

Module token_props.

Lemma Sub_add_l (now w : Z) :
  min_int64 <= w <= max_int64 -> Sub (now + w) now = w.
Proof. intros Hw. unfold Sub. replace (now + w - now) with w by lia. lia. Qed.

(** X6. [GetTokenWithMinValidity] hands out the token the manager holds
    when it returns.  A token with more than [minValidity] left is handed
    out without a refresh.  Otherwise the reply of the bootstrap decides:
    a new token is stored and handed out without an error, and is valid
    for more than [minValidity] only if the lifetime granted is; any
    error leaves the token, its expiry and the two URLs as they were and
    is returned together with the old token. *)
Theorem min_validity_request (now : Time) (minValidity : Duration)
    (r : api.BootstrapResult) (tm : api.TokenManager) :
  let out := api.GetTokenWithMinValidity now minValidity r tm in
  let tm' := fst out in
  let token := fst (snd out) in
  let err := snd (snd out) in
  token = api.currentToken tm'
  /\ (Sub (api.tokenExpiry tm) now > minValidity ->
      tm' = tm /\ err = None)
  /\ (Sub (api.tokenExpiry tm) now <= minValidity ->
      match r with
      | api.Bootstrapped resp =>
          token = api.AccessToken resp
          /\ err = None
          /\ Sub (api.tokenExpiry tm') now = wrap64 (api.ExpiresIn resp * Second)
      | _ =>
          token = api.currentToken tm
          /\ err <> None
          /\ api.tokenExpiry tm' = api.tokenExpiry tm
          /\ api.configURL tm' = api.configURL tm
          /\ api.logsURL tm' = api.logsURL tm
      end)
  /\ (err = None ->
      Sub (api.tokenExpiry tm') now > minValidity
      \/ exists resp,
          r = api.Bootstrapped resp
          /\ wrap64 (api.ExpiresIn resp * Second) <= minValidity).
Proof.
  intros out tm' token err. subst out tm' token err.
  unfold api.GetTokenWithMinValidity.
  destruct (Sub (api.tokenExpiry tm) now >? minValidity) eqn:Hv.
  - apply Z.gtb_lt in Hv. simpl.
    repeat split; auto; try lia; try (intros _; left; lia).
  - assert (Hle : Sub (api.tokenExpiry tm) now <= minValidity).
    { destruct (Z.gtb_spec (Sub (api.tokenExpiry tm) now) minValidity);
        [discriminate | lia]. }
    destruct r as [resp | msg | msg]; simpl.
    + pose proof (wrap64_range (api.ExpiresIn resp * Second)) as Hr.
      rewrite (Sub_add_l now _ Hr).
      split; [reflexivity|]. split; [lia|]. split; [auto|].
      intros _.
      destruct (Z_lt_le_dec minValidity (wrap64 (api.ExpiresIn resp * Second)));
        [left; lia | right; exists resp; auto].
    + repeat split; auto; try lia; discriminate.
    + repeat split; auto; try lia; discriminate.
Qed.

Lemma fire_live (now : Time) (r : api.BootstrapResult) (tm : api.TokenManager) :
  api.deploymentDeleted tm = false ->
  api.fire now r tm = (fst (api.refresh now r tm), true).
Proof. intros Hd. unfold api.fire. rewrite Hd. reflexivity. Qed.

Lemma loop_deleted (firings : list (Time * api.BootstrapResult))
    (tm : api.TokenManager) :
  api.deploymentDeleted tm = true -> api.loop firings tm = tm.
Proof.
  intros Hd. destruct firings as [| [now r] rest]; simpl; [reflexivity|].
  unfold api.fire. rewrite Hd. reflexivity.
Qed.

Lemma loop_app (pre : list (Time * api.BootstrapResult)) :
  forall (rest : list (Time * api.BootstrapResult)) (tm : api.TokenManager),
    api.deploymentDeleted tm = false ->
    Forall (fun f => api.IsPermanentError (snd f) = false) pre ->
    api.deploymentDeleted (api.loop pre tm) = false
    /\ api.loop (pre ++ rest) tm = api.loop rest (api.loop pre tm).
Proof.
  induction pre as [| [now r] pre IH]; intros rest tm Hd Hpre; simpl.
  - auto.
  - apply Forall_cons in Hpre as [Hr Hpre]. simpl in Hr.
    rewrite (fire_live now r tm Hd).
    assert (Hd' : api.deploymentDeleted (fst (api.refresh now r tm)) = false).
    { destruct r; simpl in *; auto; discriminate. }
    apply (IH rest _ Hd' Hpre).
Qed.

(** X7. The refresh loop stores every token it is issued, leaves the
    manager as it is when a refresh fails, and stops at the first 410:
    the manager is latched and no later reply, not even a new token, is
    stored. *)
Theorem refresh_loop_stops_at_gone
    (pre post : list (Time * api.BootstrapResult)) (now : Time) (msg : string)
    (tm : api.TokenManager) :
  api.deploymentDeleted tm = false ->
  Forall (fun f => api.IsPermanentError (snd f) = false) pre ->
  api.StartRefreshLoop (pre ++ (now, api.PermanentError msg) :: post) tm
  = api.latch (api.loop pre tm)
  /\ api.currentToken
       (api.StartRefreshLoop (pre ++ (now, api.PermanentError msg) :: post) tm)
     = api.currentToken (api.StartRefreshLoop pre tm)
  /\ (forall at_time resp,
         api.StartRefreshLoop (pre ++ [(at_time, api.Bootstrapped resp)]) tm
         = api.store at_time resp (api.StartRefreshLoop pre tm))
  /\ (forall at_time e,
         api.StartRefreshLoop (pre ++ [(at_time, api.OtherError e)]) tm
         = api.StartRefreshLoop pre tm).
Proof.
  intros Hd Hpre. unfold api.StartRefreshLoop. rewrite Hd.
  assert (Hgone :
    api.loop (pre ++ (now, api.PermanentError msg) :: post) tm
    = api.latch (api.loop pre tm)).
  { destruct (loop_app pre ((now, api.PermanentError msg) :: post) tm Hd Hpre)
      as [Hd' ->].
    simpl. rewrite (fire_live _ _ _ Hd'). simpl.
    apply loop_deleted. reflexivity. }
  split; [exact Hgone|]. split; [rewrite Hgone; reflexivity|]. split.
  - intros at_time resp.
    destruct (loop_app pre [(at_time, api.Bootstrapped resp)] tm Hd Hpre)
      as [Hd' ->].
    simpl. rewrite (fire_live _ _ _ Hd'). reflexivity.
  - intros at_time e.
    destruct (loop_app pre [(at_time, api.OtherError e)] tm Hd Hpre)
      as [Hd' ->].
    simpl. rewrite (fire_live _ _ _ Hd'). reflexivity.
Qed.

End token_props.

(** A loop that is issued a token, then told 410, then issued another
    token: the manager is latched with the first token. *)
Lemma refresh_loop_stops_at_gone_witness :
  api.deploymentDeleted api.NewTokenManager = false
  /\ api.StartRefreshLoop
       ([(sample.an_instant, api.Bootstrapped sample.fresh_token)]
        ++ (sample.an_instant + Hour, api.PermanentError "gone")
           :: [(sample.an_instant + 2 * Hour,
                api.Bootstrapped scenario.second_token)])
       api.NewTokenManager
     = api.latch
         (api.store sample.an_instant sample.fresh_token api.NewTokenManager).
Proof.
  split; [reflexivity|].
  refine (proj1 (token_props.refresh_loop_stops_at_gone
                  [(sample.an_instant, api.Bootstrapped sample.fresh_token)]
                  [(sample.an_instant + 2 * Hour,
                    api.Bootstrapped scenario.second_token)]
                  (sample.an_instant + Hour) "gone" api.NewTokenManager
                  eq_refl _)).
  repeat constructor.
Defined.

(** ** The fetcher *)

Module fetcher_props.
Section WithNetIP.
Context {netip : NetIP}.
Variable NewRequest : string -> option error.
Variable Do : nat -> string -> Exchange.
Variable Done : nat -> option error.

Local Abbreviation fetch := (fetcher.fetch NewRequest Do).
Local Abbreviation attempts := (fetcher.attempts NewRequest Do Done).
Local Abbreviation FetchWithRetry := (fetcher.FetchWithRetry NewRequest Do Done).

Lemma parseEDL_fit (text : string) :
  edl.lines_fit text ->
  edl.parseEDL text
  = Ok (edl.accepted_entries text,
        Z.of_nat (length (edl.accepted_entries text))).
Proof.
  intros Hfit. unfold edl.parseEDL, edl.Scan.
  rewrite (edl_props.scan_lines_fit _ Hfit).
  rewrite edl_props.parse_lines_accepted. reflexivity.
Qed.

(** X8. [fetch] returns a set exactly when the request can be made, the
    response has status 200, its body is read to the end, and the parser
    accepts it; the set and the count are then those of the parser, and
    for a body whose lines fit the scanner they are the accepted entries
    and their number.  Any other status gives an error whose message
    quotes 1024 bytes of the body at most. *)
Theorem fetch_set_only_on_ok (cfg : config.Config) (k : nat) :
  (forall ipset count,
      fetch cfg k = Ok (ipset, count)
      <-> NewRequest (config.EDLURL cfg) = None
          /\ exists body,
              Do k (config.EDLURL cfg) = Response 200 body
              /\ failure body = None
              /\ edl.parseEDL (read body) = Ok (ipset, count))
  /\ (forall status body,
         NewRequest (config.EDLURL cfg) = None ->
         Do k (config.EDLURL cfg) = Response status body ->
         status <> 200 ->
         fetch cfg k = Err ("unexpected status: " ++ client.limited body)%string
         /\ (String.length (client.limited body) <= 1024)%nat)
  /\ (forall body,
         NewRequest (config.EDLURL cfg) = None ->
         Do k (config.EDLURL cfg) = Response 200 body ->
         failure body = None ->
         edl.lines_fit (read body) ->
         fetch cfg k
         = Ok (edl.accepted_entries (read body),
               Z.of_nat (length (edl.accepted_entries (read body))))).
Proof.
  unfold fetcher.fetch, fetcher.parseEDL, fetcher.StatusOK.
  split; [|split].
  - intros ipset count.
    destruct (NewRequest (config.EDLURL cfg)) as [e |] eqn:Hreq.
    { split; [discriminate|]. intros [Hn _]. discriminate. }
    destruct (Do k (config.EDLURL cfg)) as [e | status body] eqn:HDo.
    { split; [discriminate|]. intros (_ & b & Hb & _). discriminate. }
    destruct (status =? 200) eqn:H200; simpl.
    + apply Z.eqb_eq in H200. subst status.
      destruct (edl.parseEDL (read body)) as [parsed | e] eqn:Hp.
      * destruct (failure body) as [e |] eqn:Hf.
        -- split; [discriminate|].
           intros (_ & b & [= <-] & Hf' & _). congruence.
        -- split.
           ++ intros [= ->]. split; [reflexivity|]. exists body. auto.
           ++ intros (_ & b & [= <-] & _ & Hp'). congruence.
      * split; [discriminate|].
        intros (_ & b & [= <-] & _ & Hp'). congruence.
    + apply Z.eqb_neq in H200. split; [discriminate|].
      intros (_ & b & [= Hs _] & _). lia.
  - intros status body -> -> Hs.
    apply Z.eqb_neq in Hs. rewrite Hs. simpl.
    split; [reflexivity | apply substring_length_le].
  - intros body -> -> Hf Hfit. simpl.
    rewrite (parseEDL_fit _ Hfit), Hf. reflexivity.
Qed.

Local Abbreviation delay cfg i :=
  (wrap64 (config.RetryDelay cfg * Z.of_nat i)).

Lemma attempts_first_set (cfg : config.Config) (k : nat) :
  forall (left a : nat) (lastErr : option error) (waited : list Duration)
         (ipset : netipx.IPSet) (count : Z),
    (1 <= a)%nat -> (k < left)%nat ->
    (forall j, (j < k)%nat -> exists e, fetch cfg (a + j) = Err e) ->
    (forall j, (j <= k)%nat -> Done (a + j) = None) ->
    fetch cfg (a + k) = Ok (ipset, count) ->
    attempts cfg left a lastErr waited
    = ({| fetcher.ipset := Some ipset; fetcher.count := count;
          fetcher.err := None |},
       waited ++ map (fun i => delay cfg i) (seq a (S k))).
Proof.
  induction k as [| k IH]; intros left a lastErr waited ipset count Ha Hk Hfail
    Hwait Hok; (destruct left as [| left]; [lia|]); simpl.
  - pose proof (Hwait 0%nat ltac:(lia)) as Hw. rewrite Nat.add_0_r in Hw, Hok.
    destruct (Nat.ltb_spec 0 a); [|lia]. rewrite Hw, Hok. reflexivity.
  - pose proof (Hwait 0%nat ltac:(lia)) as Hw. rewrite Nat.add_0_r in Hw.
    destruct (Nat.ltb_spec 0 a); [|lia]. rewrite Hw.
    destruct (Hfail 0%nat ltac:(lia)) as [e He]. rewrite Nat.add_0_r in He.
    rewrite He.
    rewrite (IH left (S a) (Some e) _ ipset count); try lia.
    + rewrite <- app_assoc. reflexivity.
    + intros j Hj. destruct (Hfail (S j) ltac:(lia)) as [e' He'].
      exists e'. rewrite <- He'. f_equal. lia.
    + intros j Hj. rewrite <- (Hwait (S j) ltac:(lia)). f_equal. lia.
    + rewrite <- Hok. f_equal. lia.
Qed.

Lemma attempts_exhausted (cfg : config.Config) (left : nat) :
  forall (a : nat) (lastErr : option error) (waited : list Duration)
         (e : error),
    (1 <= a)%nat ->
    (forall j, (j < left)%nat -> exists e', fetch cfg (a + j) = Err e') ->
    (forall j, (j < left)%nat -> Done (a + j) = None) ->
    (match left with
     | O => lastErr = Some e
     | S last => fetch cfg (a + last) = Err e
     end) ->
    attempts cfg left a lastErr waited
    = ({| fetcher.ipset := None; fetcher.count := 0; fetcher.err := Some e |},
       waited ++ map (fun i => delay cfg i) (seq a left)).
Proof.
  induction left as [| left IH]; intros a lastErr waited e Ha Hfail Hwait Hlast;
    simpl.
  - rewrite Hlast, app_nil_r. reflexivity.
  - pose proof (Hwait 0%nat ltac:(lia)) as Hw. rewrite Nat.add_0_r in Hw.
    destruct (Nat.ltb_spec 0 a); [|lia]. rewrite Hw.
    destruct (Hfail 0%nat ltac:(lia)) as [e0 He0]. rewrite Nat.add_0_r in He0.
    rewrite He0.
    rewrite (IH (S a) (Some e0) _ e); try lia.
    + rewrite <- app_assoc. reflexivity.
    + intros j Hj. destruct (Hfail (S j) ltac:(lia)) as [e' He'].
      exists e'. rewrite <- He'. f_equal. lia.
    + intros j Hj. rewrite <- (Hwait (S j) ltac:(lia)). f_equal. lia.
    + destruct left as [| last].
      * rewrite Nat.add_0_r in Hlast. congruence.
      * rewrite <- Hlast. f_equal. lia.
Qed.

Lemma attempts_cancelled (cfg : config.Config) (k : nat) :
  forall (left a : nat) (lastErr : option error) (waited : list Duration)
         (e : error),
    (1 <= a)%nat -> (k < left)%nat ->
    (forall j, (j < k)%nat -> exists e', fetch cfg (a + j) = Err e') ->
    (forall j, (j < k)%nat -> Done (a + j) = None) ->
    Done (a + k) = Some e ->
    attempts cfg left a lastErr waited
    = ({| fetcher.ipset := None; fetcher.count := 0; fetcher.err := Some e |},
       waited ++ map (fun i => delay cfg i) (seq a k)).
Proof.
  induction k as [| k IH]; intros left a lastErr waited e Ha Hk Hfail Hwait
    Hdone; (destruct left as [| left]; [lia|]); simpl.
  - rewrite Nat.add_0_r in Hdone.
    destruct (Nat.ltb_spec 0 a); [|lia]. rewrite Hdone, app_nil_r. reflexivity.
  - pose proof (Hwait 0%nat ltac:(lia)) as Hw. rewrite Nat.add_0_r in Hw.
    destruct (Nat.ltb_spec 0 a); [|lia]. rewrite Hw.
    destruct (Hfail 0%nat ltac:(lia)) as [e0 He0]. rewrite Nat.add_0_r in He0.
    rewrite He0.
    rewrite (IH left (S a) (Some e0) _ e); try lia.
    + rewrite <- app_assoc. reflexivity.
    + intros j Hj. destruct (Hfail (S j) ltac:(lia)) as [e' He'].
      exists e'. rewrite <- He'. f_equal. lia.
    + intros j Hj. rewrite <- (Hwait (S j) ltac:(lia)). f_equal. lia.
    + rewrite <- Hdone. f_equal. lia.
Qed.

Lemma attempts_shape (cfg : config.Config) (left : nat) :
  forall (a : nat) (lastErr : option error) (waited : list Duration),
    lastErr <> None ->
    let out := attempts cfg left a lastErr waited in
    ((fetcher.ipset (fst out) <> None /\ fetcher.err (fst out) = None)
     \/ (fetcher.ipset (fst out) = None /\ fetcher.count (fst out) = 0
         /\ fetcher.err (fst out) <> None))
    /\ (length (snd out) <= length waited + left)%nat.
Proof.
  induction left as [| left IH]; intros a lastErr waited Hlast; simpl.
  - split; [right; auto | lia].
  - destruct (if (0 <? a)%nat then Done a else None) as [e |]; simpl.
    { split; [right; repeat split; auto; discriminate | lia]. }
    destruct (fetch cfg a) as [[ipset count] | e]; simpl.
    + split; [left; split; [discriminate | reflexivity]|].
      destruct (0 <? a)%nat; rewrite ?length_app; simpl; lia.
    + destruct (IH (S a) (Some e)
                  (if (0 <? a)%nat then waited ++ [delay cfg a] else waited)
                  ltac:(discriminate)) as [Hs Hl].
      split; [exact Hs|].
      destruct (0 <? a)%nat; rewrite ?length_app in Hl; simpl in Hl; lia.
Qed.

(** X9. [FetchWithRetry] makes the attempts in order.  The first attempt
    that fetches a list ends the call with its set and count; when every
    attempt fails the call returns the error of the last one; when the
    context is done during a wait the call returns its error at once.
    The wait before the attempt of index [i] is [RetryDelay] times [i].
    With [MaxRetryAttempts] at zero or below no attempt is made and the
    call returns neither a set nor an error; otherwise it returns a set
    without an error or an error without a set. *)
Theorem fetch_retry_schedule (cfg : config.Config) :
  let limit := Z.to_nat (config.MaxRetryAttempts cfg) in
  let out := FetchWithRetry cfg in
  (config.MaxRetryAttempts cfg <= 0 ->
   out = ({| fetcher.ipset := None; fetcher.count := 0; fetcher.err := None |},
          []))
  /\ (forall k ipset count,
         (k < limit)%nat ->
         (forall j, (j < k)%nat -> exists e, fetch cfg j = Err e) ->
         (forall i, (1 <= i <= k)%nat -> Done i = None) ->
         fetch cfg k = Ok (ipset, count) ->
         out = ({| fetcher.ipset := Some ipset; fetcher.count := count;
                   fetcher.err := None |},
                fetcher.delays cfg k))
  /\ (forall e,
         (0 < limit)%nat ->
         (forall j, (j < limit - 1)%nat -> exists e', fetch cfg j = Err e') ->
         (forall i, (1 <= i <= limit - 1)%nat -> Done i = None) ->
         fetch cfg (limit - 1) = Err e ->
         out = ({| fetcher.ipset := None; fetcher.count := 0;
                   fetcher.err := Some e |},
                fetcher.delays cfg (limit - 1)))
  /\ (forall k e,
         (1 <= k < limit)%nat ->
         (forall j, (j < k)%nat -> exists e', fetch cfg j = Err e') ->
         (forall i, (1 <= i < k)%nat -> Done i = None) ->
         Done k = Some e ->
         out = ({| fetcher.ipset := None; fetcher.count := 0;
                   fetcher.err := Some e |},
                fetcher.delays cfg (k - 1)))
  /\ (0 < config.MaxRetryAttempts cfg ->
      ((fetcher.ipset (fst out) <> None /\ fetcher.err (fst out) = None)
       \/ (fetcher.ipset (fst out) = None /\ fetcher.count (fst out) = 0
           /\ fetcher.err (fst out) <> None))
      /\ (length (snd out) < limit)%nat).
Proof.
  intros limit out. subst out. unfold fetcher.FetchWithRetry.
  fold limit. unfold fetcher.delays.
  split; [|split; [|split; [|split]]].
  - intros Hle. subst limit. replace (Z.to_nat _) with 0%nat by lia.
    reflexivity.
  - intros k ipset count Hk Hfail Hwait Hok.
    destruct limit as [| left]; [lia|]. simpl.
    destruct k as [| k].
    + rewrite Hok. reflexivity.
    + destruct (Hfail 0%nat ltac:(lia)) as [e He]. rewrite He.
      apply (attempts_first_set cfg k left 1 (Some e) [] ipset count);
        try lia; auto.
      * intros j Hj. apply Hfail. lia.
      * intros j Hj. apply Hwait. lia.
  - intros e Hpos Hfail Hwait Hlast.
    destruct limit as [| left]; [lia|]. simpl.
    replace (S left - 1)%nat with left in * by lia.
    destruct left as [| last].
    + rewrite Hlast. reflexivity.
    + destruct (Hfail 0%nat ltac:(lia)) as [e0 He0]. rewrite He0.
      apply (attempts_exhausted cfg (S last) 1 (Some e0) [] e); try lia.
      * intros j Hj.
        destruct (Nat.eq_dec j last) as [-> | Hne].
        -- exists e. exact Hlast.
        -- apply Hfail. lia.
      * intros j Hj. apply Hwait. lia.
      * exact Hlast.
  - intros k e Hk Hfail Hwait Hdone.
    destruct limit as [| left]; [lia|]. simpl.
    destruct (Hfail 0%nat ltac:(lia)) as [e0 He0]. rewrite He0.
    destruct k as [| k]; [lia|].
    replace (S k - 1)%nat with k by lia.
    apply (attempts_cancelled cfg k left 1 (Some e0) [] e); try lia; auto.
    + intros j Hj. apply Hfail. lia.
    + intros j Hj. apply Hwait. lia.
  - intros Hpos.
    destruct limit as [| left] eqn:Hlimit; [subst limit; lia|]. simpl.
    destruct (fetch cfg 0) as [[ipset count] | e]; simpl.
    + split; [left; split; [discriminate | reflexivity] | lia].
    + destruct (attempts_shape cfg left 1 (Some e) [] ltac:(discriminate))
        as [Hs Hl].
      split; [exact Hs | simpl in Hl; lia].
Qed.

End WithNetIP.
End fetcher_props.

(** ** The updater: its start and its loop *)

Module updater_props.
Section WithNetIP.
Context {netip : NetIP}.
Variable CanonicalMIMEHeaderKey : string -> string.
Variable SplitHostPort : string -> option (string * string).

Local Abbreviation extractClientIP :=
  (auth.extractClientIP CanonicalMIMEHeaderKey SplitHostPort).
Local Abbreviation ServeHTTP :=
  (auth.ServeHTTP CanonicalMIMEHeaderKey SplitHostPort).
Local Abbreviation tick := (Time * result (netipx.IPSet * Z))%type.

Lemma wrap64_idem (z : Z) : wrap64 (wrap64 z) = wrap64 z.
Proof. pose proof (wrap64_add_l z 0) as H. rewrite !Z.add_0_r in H. exact H. Qed.








End WithNetIP.
End updater_props.


(** ** The access handler: the client address and the events *)

Module handler_props.
Section WithNetIP.
Context {netip : NetIP}.
Variable CanonicalMIMEHeaderKey : string -> string.
Variable SplitHostPort : string -> option (string * string).

Local Abbreviation Get := (auth.Get CanonicalMIMEHeaderKey).
Local Abbreviation from_header := (auth.from_header CanonicalMIMEHeaderKey).
Local Abbreviation extractClientIP :=
  (auth.extractClientIP CanonicalMIMEHeaderKey SplitHostPort).
Local Abbreviation ServeHTTP :=
  (auth.ServeHTTP CanonicalMIMEHeaderKey SplitHostPort).

Lemma split_go_first (sep : ascii) (s : string) :
  forall cur, exists first rest, strs.split_go sep cur s = first :: rest.
Proof.
  induction s as [| c s IH]; intros cur; simpl.
  - eauto.
  - destruct (Ascii.eqb c sep); [eauto | apply IH].
Qed.

Lemma from_header_first (r : auth.Request) (name : string) :
  Get (auth.Header r) name <> EmptyString ->
  exists first rest,
    strs.Split (Get (auth.Header r) name) "," = first :: rest
    /\ from_header r name = Some (strs.TrimSpace first).
Proof.
  intros Hne. unfold auth.from_header, auth.first_value.
  apply is_empty_false in Hne. rewrite Hne.
  destruct (split_go_first "," (Get (auth.Header r) name) EmptyString)
    as (first & rest & Hs).
  unfold strs.Split. rewrite Hs. eauto.
Qed.

Lemma from_header_absent (r : auth.Request) (name : string) :
  Get (auth.Header r) name = EmptyString -> from_header r name = None.
Proof. intros He. unfold auth.from_header. rewrite He. reflexivity. Qed.

(** The part of a request that decides the client address when the
    header [name] is the first one to hold a value. *)
Lemma override_decides (h : auth.Handler) (r : auth.Request) :
  auth.ipHeaderOverride h <> EmptyString ->
  Get (auth.Header r) (auth.ipHeaderOverride h) <> EmptyString ->
  exists first rest,
    strs.Split (Get (auth.Header r) (auth.ipHeaderOverride h)) ","
    = first :: rest
    /\ extractClientIP h r = strs.TrimSpace first.
Proof.
  intros Ho Hv. unfold auth.extractClientIP.
  apply is_empty_false in Ho. rewrite Ho.
  destruct (from_header_first r _ Hv) as (first & rest & Hs & ->). eauto.
Qed.

Lemma forwarded_decides (h : auth.Handler) (r : auth.Request) :
  auth.ipHeaderOverride h = EmptyString
  \/ Get (auth.Header r) (auth.ipHeaderOverride h) = EmptyString ->
  Get (auth.Header r) "X-Forwarded-For" <> EmptyString ->
  exists first rest,
    strs.Split (Get (auth.Header r) "X-Forwarded-For") "," = first :: rest
    /\ extractClientIP h r = strs.TrimSpace first.
Proof.
  intros Ho Hv. unfold auth.extractClientIP.
  assert (Hnone :
    (if strs.is_empty (auth.ipHeaderOverride h) then None
     else from_header r (auth.ipHeaderOverride h)) = None).
  { destruct Ho as [Ho | Ho].
    - rewrite Ho. reflexivity.
    - destruct (strs.is_empty (auth.ipHeaderOverride h)); [reflexivity|].
      apply from_header_absent, Ho. }
  rewrite Hnone.
  destruct (from_header_first r _ Hv) as (first & rest & Hs & ->). eauto.
Qed.

(** X12. The client address is the first comma-separated value, trimmed,
    of the override header when one is configured and the request holds a
    value for it, whatever the other headers and the remote address are;
    failing that, of [X-Forwarded-For] when it holds a value; failing
    that, [X-Real-IP] trimmed; failing that, the host of the remote
    address, or the remote address itself when it does not split into
    host and port.  A header that holds a value is never passed over: when its
    first value is blank the request is answered 400 and the headers
    after it are not consulted. *)
Theorem client_address_precedence (h : auth.Handler) (r : auth.Request) :
  let override := Get (auth.Header r) (auth.ipHeaderOverride h) in
  let forwarded := Get (auth.Header r) "X-Forwarded-For" in
  let real := Get (auth.Header r) "X-Real-IP" in
  (auth.ipHeaderOverride h <> EmptyString ->
   override <> EmptyString ->
   (exists first rest,
       strs.Split override "," = first :: rest
       /\ extractClientIP h r = strs.TrimSpace first)
   /\ forall r',
       Get (auth.Header r') (auth.ipHeaderOverride h) = override ->
       extractClientIP h r' = extractClientIP h r)
  /\ (auth.ipHeaderOverride h = EmptyString \/ override = EmptyString ->
      forwarded <> EmptyString ->
      (exists first rest,
          strs.Split forwarded "," = first :: rest
          /\ extractClientIP h r = strs.TrimSpace first)
      /\ forall r',
          Get (auth.Header r') (auth.ipHeaderOverride h) = override ->
          Get (auth.Header r') "X-Forwarded-For" = forwarded ->
          extractClientIP h r' = extractClientIP h r)
  /\ (auth.ipHeaderOverride h = EmptyString \/ override = EmptyString ->
      forwarded = EmptyString ->
      extractClientIP h r
      = if negb (strs.is_empty real) then strs.TrimSpace real
        else match SplitHostPort (auth.RemoteAddr r) with
             | Some (host, _) => host
             | None => auth.RemoteAddr r
             end)
  /\ (forall page,
         extractClientIP h r = EmptyString ->
         auth.status (ServeHTTP h page r) = 400
         /\ auth.emitted (ServeHTTP h page r) = None).
Proof.
  intros override forwarded real. subst override forwarded real.
  split; [|split; [|split]].
  - intros Ho Hv.
    destruct (override_decides h r Ho Hv) as (first & rest & Hs & Hip).
    split; [eauto|].
    intros r' Hsame.
    assert (Hv' : Get (auth.Header r') (auth.ipHeaderOverride h) <> EmptyString)
      by congruence.
    destruct (override_decides h r' Ho Hv') as (first' & rest' & Hs' & Hip').
    rewrite Hsame, Hs in Hs'. injection Hs' as <- _. congruence.
  - intros Ho Hv.
    destruct (forwarded_decides h r Ho Hv) as (first & rest & Hs & Hip).
    split; [eauto|].
    intros r' Hsame Hsame'.
    assert (Ho' : auth.ipHeaderOverride h = EmptyString
                  \/ Get (auth.Header r') (auth.ipHeaderOverride h) = EmptyString).
    { destruct Ho as [Ho | Ho]; [left; exact Ho | right; congruence]. }
    assert (Hv' : Get (auth.Header r') "X-Forwarded-For" <> EmptyString)
      by congruence.
    destruct (forwarded_decides h r' Ho' Hv') as (first' & rest' & Hs' & Hip').
    rewrite Hsame', Hs in Hs'. injection Hs' as <- _. congruence.
  - intros Ho Hf. unfold auth.extractClientIP.
    assert (Hnone :
      (if strs.is_empty (auth.ipHeaderOverride h) then None
       else from_header r (auth.ipHeaderOverride h)) = None).
    { destruct Ho as [Ho | Ho].
      - rewrite Ho. reflexivity.
      - destruct (strs.is_empty (auth.ipHeaderOverride h)); [reflexivity|].
        apply from_header_absent, Ho. }
    rewrite Hnone, (from_header_absent r _ Hf). reflexivity.
  - intros page Hip. unfold auth.ServeHTTP. rewrite Hip. split; reflexivity.
Qed.


End WithNetIP.
End handler_props.

(** ** The ring buffer: round trips and vacated slots *)

Module queue_props.
Section WithEvent.
Context {E : Type} (nil : E).

Local Abbreviation t := (RingBuffer.t (E := E)).
Local Abbreviation contents := (RingBuffer.contents nil).
Local Abbreviation well_formed := (RingBuffer.well_formed (E := E)).
Local Abbreviation vacated := (slots.vacated nil).
Local Abbreviation room rb :=
  (Z.to_nat (RingBuffer.capacity rb - RingBuffer.size rb)).

Lemma run_adds (events : list E) :
  forall (rb : t) (c : RingBuffer.tally),
    well_formed rb ->
    exists rb',
      RingBuffer.run nil (map RingBuffer.OpAdd events) (rb, c)
      = Some (rb',
              {| RingBuffer.added :=
                   RingBuffer.added c
                   + Z.of_nat (Nat.min (room rb) (length events));
                 RingBuffer.returned := RingBuffer.returned c |})
      /\ well_formed rb'
      /\ contents rb' = contents rb ++ firstn (room rb) events
      /\ RingBuffer.capacity rb' = RingBuffer.capacity rb.
Proof.
  induction events as [| event rest IH]; intros rb c Hwf.
  - exists rb. simpl. rewrite Nat.min_0_r, Z.add_0_r, firstn_nil, app_nil_r.
    destruct c. auto.
  - pose proof Hwf as (_ & Hsz & _).
    cbn [map RingBuffer.run RingBuffer.step].
    destruct (Z_lt_le_dec (RingBuffer.size rb) (RingBuffer.capacity rb))
      as [Hroom | Hfull].
    + destruct (ring_props.add_room nil event rb Hwf Hroom)
        as (rb1 & Ha & Hwf1 & Hc1 & Hcap1 & Hsz1).
      rewrite Ha. simpl.
      destruct (IH rb1 {| RingBuffer.added := RingBuffer.added c + 1;
                          RingBuffer.returned := RingBuffer.returned c |} Hwf1)
        as (rb' & Hrun & Hwf' & Hc' & Hcap').
      exists rb'. rewrite Hrun. simpl.
      replace (room rb) with (S (room rb1)) by lia.
      split; [|split; [exact Hwf'|split; [|lia]]].
      * do 2 f_equal. f_equal. simpl. lia.
      * rewrite Hc', Hc1, <- app_assoc. reflexivity.
    + rewrite (ring_props.add_full event rb Hfull). simpl.
      destruct (IH rb {| RingBuffer.added := RingBuffer.added c + 0;
                         RingBuffer.returned := RingBuffer.returned c |} Hwf)
        as (rb' & Hrun & Hwf' & Hc' & Hcap').
      exists rb'. rewrite Hrun. simpl.
      replace (room rb) with 0%nat in * by lia.
      split; [|split; [exact Hwf'|split; [|lia]]].
      * do 2 f_equal. f_equal. simpl. lia.
      * rewrite Hc'. reflexivity.
Qed.

(** X14. Events added one after the other to a buffer are queued in the
    order given until the buffer is full; the later ones are refused and
    leave the queue as it is.  [DrainAll] then hands out the queue, oldest
    first, and leaves the buffer empty: [Get] finds nothing in it. *)
Theorem adds_then_drain_all (events : list E) (rb : t)
    (c : RingBuffer.tally) :
  well_formed rb ->
  exists rb' rb'',
    RingBuffer.run nil (map RingBuffer.OpAdd events) (rb, c)
    = Some (rb',
            {| RingBuffer.added :=
                 RingBuffer.added c
                 + Z.of_nat (Nat.min (room rb) (length events));
               RingBuffer.returned := RingBuffer.returned c |})
    /\ contents rb' = contents rb ++ firstn (room rb) events
    /\ RingBuffer.DrainAll nil rb'
       = Some (contents rb ++ firstn (room rb) events, rb'')
    /\ RingBuffer.IsEmpty rb'' = true
    /\ RingBuffer.Get nil rb'' = Some (None, rb'')
    /\ RingBuffer.Capacity rb'' = RingBuffer.Capacity rb.
Proof.
  intros Hwf.
  destruct (run_adds events rb c Hwf) as (rb' & Hrun & Hwf' & Hc' & Hcap').
  destruct (ring_props.drain_all_front nil rb' Hwf')
    as (rb'' & Hd & Hwf'' & Hc'' & Hcap'' & Hsz'').
  exists rb', rb''. rewrite Hrun, Hd, Hc'.
  unfold RingBuffer.IsEmpty, RingBuffer.Get, RingBuffer.Capacity.
  rewrite Hsz''. simpl. repeat split; auto. lia.
Qed.

Lemma take_vacated (rb rb' : t) (event : E) :
  well_formed rb -> vacated rb -> 0 < RingBuffer.size rb ->
  RingBuffer.take nil rb = Some (event, rb') ->
  well_formed rb' /\ vacated rb'
  /\ RingBuffer.capacity rb' = RingBuffer.capacity rb
  /\ RingBuffer.size rb' = RingBuffer.size rb - 1.
Proof.
  intros Hwf Hv Hpos Ht.
  destruct (ring_props.take_front nil rb Hwf Hpos)
    as (event0 & rb0 & Ht0 & Hwf0 & _ & Hcap0 & Hsz0).
  rewrite Ht in Ht0. injection Ht0 as <- <-.
  split; [exact Hwf0|]. split; [|split; [exact Hcap0 | exact Hsz0]].
  clear Hcap0.
  destruct rb as [buf cap hd tl sz].
  unfold RingBuffer.well_formed in Hwf. simpl in Hwf, Hpos.
  destruct Hwf as (Hlen & Hsz & Hhd & Htl).
  destruct Hhd as [Hc | Hhd]; [lia|].
  revert Ht. unfold RingBuffer.take, RingBuffer.load, RingBuffer.store,
    RingBuffer.remainder. simpl. rewrite Hlen.
  destruct (Z.ltb_spec hd 0); [lia|].
  destruct (lookup_lt_is_Some_2 buf (Z.to_nat hd)) as [x Hx]; [lia|].
  rewrite Hx. simpl.
  destruct (Z.leb_spec 0 hd); [|lia].
  destruct (Z.ltb_spec hd cap); [|lia]. simpl.
  destruct (Z.eqb_spec cap 0); [lia|]. simpl.
  intros [= _ <-]. intros i Hi Hnot. simpl in *.
  destruct (Z.eq_dec i hd) as [-> | Hne].
  - apply list_lookup_insert_eq. lia.
  - rewrite list_lookup_insert_ne by lia.
    apply Hv; [exact Hi|]. simpl.
    intros (j & Hj & Hij). simpl in Hj, Hij. apply Hnot.
    assert (Hj0 : j <> 0).
    { intros ->. rewrite Z.add_0_r, Z.mod_small in Hij by lia. lia. }
    exists (j - 1). simpl. split; [lia|].
    rewrite ring_props.rem_next by lia.
    rewrite Z.add_mod_idemp_l by lia. rewrite Hij. f_equal. lia.
Qed.

Lemma add_vacated (rb rb' : t) (event : E) (ok : bool) :
  well_formed rb -> vacated rb ->
  RingBuffer.Add event rb = Some (ok, rb') ->
  well_formed rb' /\ vacated rb'
  /\ RingBuffer.capacity rb' = RingBuffer.capacity rb.
Proof.
  intros Hwf Hv Ha.
  destruct (Z_lt_le_dec (RingBuffer.size rb) (RingBuffer.capacity rb))
    as [Hroom | Hfull].
  - destruct (ring_props.add_room nil event rb Hwf Hroom)
      as (rb1 & Ha1 & Hwf1 & _ & Hcap1 & _).
    rewrite Ha in Ha1. injection Ha1 as -> <-.
    split; [exact Hwf1|]. split; [|exact Hcap1]. clear Hcap1.
    destruct rb as [buf cap hd tl sz].
    unfold RingBuffer.well_formed in Hwf. simpl in Hwf, Hroom.
    destruct Hwf as (Hlen & Hsz & Hhd & Htl).
    destruct Hhd as [Hc | Hhd]; [lia|].
    assert (Htl' : 0 <= tl < cap) by (subst tl; apply Z.mod_pos_bound; lia).
    revert Ha. unfold RingBuffer.Add, RingBuffer.store, RingBuffer.remainder.
    simpl. rewrite Hlen.
    destruct (Z.geb_spec sz cap) as [? | _]; [lia|].
    destruct (Z.leb_spec 0 tl); [|lia].
    destruct (Z.ltb_spec tl cap); [|lia]. simpl.
    destruct (Z.eqb_spec cap 0); [lia|]. simpl.
    intros [= <-]. intros i Hi Hnot. simpl in *.
    assert (Hne : i <> tl).
    { intros ->. apply Hnot. exists sz. simpl. split; [lia | exact Htl]. }
    rewrite list_lookup_insert_ne by lia.
    apply Hv; [exact Hi|]. simpl.
    intros (j & Hj & Hij). simpl in Hj, Hij. apply Hnot.
    exists j. simpl. split; [lia | exact Hij].
  - rewrite (ring_props.add_full event rb Hfull) in Ha.
    injection Ha as _ <-. auto.
Qed.

Lemma drain_loop_vacated (count : nat) :
  forall (events events' : list E) (rb rb' : t),
    well_formed rb -> vacated rb ->
    Z.of_nat count <= RingBuffer.size rb ->
    RingBuffer.drain_loop nil count events rb = Some (events', rb') ->
    well_formed rb' /\ vacated rb'
    /\ RingBuffer.capacity rb' = RingBuffer.capacity rb.
Proof.
  induction count as [| count IH]; intros events events' rb rb' Hwf Hv Hle;
    cbn [RingBuffer.drain_loop].
  - intros [= _ <-]. auto.
  - destruct (RingBuffer.take nil rb) as [[event rb1] |] eqn:Ht; [|discriminate].
    simpl. intros Hd.
    destruct (take_vacated rb rb1 event Hwf Hv ltac:(lia) Ht)
      as (Hwf1 & Hv1 & Hcap1 & Hsz1).
    rewrite <- Hcap1. apply (IH _ _ rb1 rb' Hwf1 Hv1 ltac:(lia) Hd).
Qed.

Lemma drain_while_vacated (fuel : nat) :
  forall (events events' : list E) (rb rb' : t),
    well_formed rb -> vacated rb ->
    RingBuffer.drain_while nil fuel events rb = Some (events', rb') ->
    well_formed rb' /\ vacated rb'
    /\ RingBuffer.capacity rb' = RingBuffer.capacity rb.
Proof.
  induction fuel as [| fuel IH]; intros events events' rb rb' Hwf Hv;
    cbn [RingBuffer.drain_while];
    destruct (Z.gtb_spec (RingBuffer.size rb) 0) as [Hpos | Hnpos];
    try discriminate; try (intros [= _ <-]; auto; fail).
  destruct (RingBuffer.take nil rb) as [[event rb1] |] eqn:Ht; [|discriminate].
  simpl. intros Hd.
  destruct (take_vacated rb rb1 event Hwf Hv ltac:(lia) Ht)
    as (Hwf1 & Hv1 & Hcap1 & Hsz1).
  rewrite <- Hcap1. apply (IH _ _ rb1 rb' Hwf1 Hv1 Hd).
Qed.

Lemma step_vacated (o : RingBuffer.op) (rb rb' : t)
    (c c' : RingBuffer.tally) :
  well_formed rb -> vacated rb ->
  RingBuffer.step nil o (rb, c) = Some (rb', c') ->
  well_formed rb' /\ vacated rb'
  /\ RingBuffer.capacity rb' = RingBuffer.capacity rb.
Proof.
  intros Hwf Hv. pose proof Hwf as (_ & Hsz & _).
  destruct o as [event | | maxItems | |]; cbn [RingBuffer.step].
  - destruct (RingBuffer.Add event rb) as [[ok rb1] |] eqn:Ha; [|discriminate].
    simpl. intros [= <- _]. apply (add_vacated rb rb1 event ok Hwf Hv Ha).
  - unfold RingBuffer.Get.
    destruct (Z.eqb_spec (RingBuffer.size rb) 0) as [Hz | Hnz]; simpl.
    + intros [= <- _]. auto.
    + destruct (RingBuffer.take nil rb) as [[event rb1] |] eqn:Ht;
        [|discriminate].
      simpl. intros [= <- _].
      destruct (take_vacated rb rb1 event Hwf Hv ltac:(lia) Ht)
        as (? & ? & ? & _).
      auto.
  - unfold RingBuffer.Drain.
    destruct (Z.eqb_spec (RingBuffer.size rb) 0) as [Hz | Hnz]; simpl.
    + intros [= <- _]. auto.
    + set (count := if RingBuffer.size rb >? maxItems then maxItems
                    else RingBuffer.size rb).
      assert (Hcount : count <= RingBuffer.size rb).
      { subst count. destruct (Z.gtb_spec (RingBuffer.size rb) maxItems); lia. }
      destruct (Z.ltb_spec count 0); [discriminate|].
      destruct (RingBuffer.drain_loop nil (Z.to_nat count) [] rb)
        as [[events rb1] |] eqn:Hd; [|discriminate].
      simpl. intros [= <- _].
      apply (drain_loop_vacated (Z.to_nat count) [] events rb rb1 Hwf Hv
               ltac:(lia) Hd).
  - unfold RingBuffer.DrainAll.
    destruct (Z.eqb_spec (RingBuffer.size rb) 0) as [Hz | Hnz]; simpl.
    + intros [= <- _]. auto.
    + destruct (RingBuffer.drain_while nil _ [] rb)
        as [[events rb1] |] eqn:Hd; [|discriminate].
      simpl. intros [= <- _].
      apply (drain_while_vacated _ [] events rb rb1 Hwf Hv Hd).
  - intros [= <- _]. auto.
Qed.

Lemma run_vacated (ops : list RingBuffer.op) :
  forall (rb rb' : t) (c c' : RingBuffer.tally),
    well_formed rb -> vacated rb ->
    RingBuffer.run nil ops (rb, c) = Some (rb', c') ->
    well_formed rb' /\ vacated rb'
    /\ RingBuffer.capacity rb' = RingBuffer.capacity rb.
Proof.
  induction ops as [| o rest IH]; intros rb rb' c c' Hwf Hv;
    cbn [RingBuffer.run].
  - intros [= <- _]. auto.
  - destruct (RingBuffer.step nil o (rb, c)) as [[rb1 c1] |] eqn:Hs;
      [|discriminate].
    simpl. intros Hrun.
    destruct (step_vacated o rb rb1 c c1 Hwf Hv Hs) as (Hwf1 & Hv1 & Hcap1).
    rewrite <- Hcap1. apply (IH rb1 rb' c1 c' Hwf1 Hv1 Hrun).
Qed.

(** X15. In a buffer made by [NewRingBuffer], whatever has been done to
    it since, every slot that holds no event of the queue holds the nil
    reference: an event handed out by [Get], [Drain] or [DrainAll] is no
    longer referred to by the buffer.  An empty buffer is all nil. *)
Theorem handed_out_slots_are_nil (cap : Z) (rb0 rb : t)
    (ops : list RingBuffer.op) (c0 c : RingBuffer.tally) :
  RingBuffer.NewRingBuffer nil cap = Some rb0 ->
  RingBuffer.run nil ops (rb0, c0) = Some (rb, c) ->
  vacated rb
  /\ RingBuffer.capacity rb = cap
  /\ (RingBuffer.size rb = 0 ->
      RingBuffer.buffer rb = replicate (Z.to_nat cap) nil).
Proof.
  intros Hnew Hrun.
  destruct (ring_props.new_well_formed nil cap rb0 Hnew)
    as (Hwf0 & _ & Hcap0 & Hsz0).
  assert (Hv0 : vacated rb0).
  { revert Hnew. unfold RingBuffer.NewRingBuffer.
    destruct (Z.ltb_spec cap 0); [discriminate|]. intros [= <-].
    intros i Hi _. simpl in *. apply lookup_replicate_2. lia. }
  destruct (run_vacated ops rb0 rb c0 c Hwf0 Hv0 Hrun) as (Hwf & Hv & Hcap).
  rewrite Hcap0 in Hcap.
  split; [exact Hv|]. split; [exact Hcap|].
  intros Hz. destruct Hwf as (Hlen & _).
  apply list_eq. intros n.
  destruct (Nat.lt_ge_cases n (Z.to_nat cap)) as [Hn | Hn].
  - rewrite lookup_replicate_2 by exact Hn.
    rewrite <- (Nat2Z.id n). apply Hv; [lia|].
    intros (j & Hj & _). lia.
  - rewrite (proj2 (lookup_ge_None _ _)) by lia.
    symmetry. apply lookup_ge_None. rewrite length_replicate. lia.
Qed.

End WithEvent.
End queue_props.

(** Two events offered to the empty buffer of two slots come back in
    order, and the buffer is empty again. *)
Lemma adds_then_drain_all_witness :
  RingBuffer.well_formed sample.two_slots
  /\ exists rb' rb'',
      RingBuffer.run EmptyString
        (map RingBuffer.OpAdd ["a"; "b"; "c"]%string)
        (sample.two_slots, sample.no_tally)
      = Some (rb', {| RingBuffer.added := 2; RingBuffer.returned := 0 |})
      /\ RingBuffer.DrainAll EmptyString rb' = Some (["a"; "b"]%string, rb'').
Proof.
  assert (Hwf : RingBuffer.well_formed sample.two_slots).
  { unfold RingBuffer.well_formed. simpl. repeat split; auto; lia. }
  split; [exact Hwf|].
  destruct (queue_props.adds_then_drain_all EmptyString ["a"; "b"; "c"]%string
              sample.two_slots sample.no_tally Hwf)
    as (rb' & rb'' & Hrun & _ & Hd & _).
  exists rb', rb''. split; [exact Hrun | exact Hd].
Defined.

(** After [sample.ring_ops] and a [Drain] of one event the slot that
    held the event is nil. *)
Lemma handed_out_slots_are_nil_witness :
  RingBuffer.NewRingBuffer EmptyString 2 = Some sample.two_slots
  /\ RingBuffer.run EmptyString (sample.ring_ops ++ [RingBuffer.OpDrain 1])
       (sample.two_slots, sample.no_tally)
     = Some (scenario.two_slots_drained, scenario.tally_drained)
  /\ slots.vacated EmptyString scenario.two_slots_drained.
Proof.
  split; [reflexivity|]. split; [reflexivity|].
  exact (proj1 (queue_props.handed_out_slots_are_nil EmptyString 2
                  sample.two_slots scenario.two_slots_drained
                  (sample.ring_ops ++ [RingBuffer.OpDrain 1])
                  sample.no_tally scenario.tally_drained eq_refl eq_refl)).
Defined.

(** ** The leaky bucket: the rate it enforces *)

Module rate_props.
Section WithFloat.
Context {float64 : Float64}.

Local Abbreviation t := LeakyBucket.t.







End WithFloat.


End rate_props.


(** ** The shipper: where every event ends up *)

Lemma wrap64_congr (a b c : Z) :
  wrap64 a = wrap64 b -> wrap64 (a + c) = wrap64 (b + c).
Proof.
  intros H. rewrite <- (wrap64_add_l a c), <- (wrap64_add_l b c), H.
  reflexivity.
Qed.

Lemma wrap64_unwrap (z : Z) : exists k, wrap64 z = z + k * 2 ^ 64.
Proof.
  unfold wrap64. exists (- ((z + 2 ^ 63) / 2 ^ 64)).
  pose proof (Z.div_mod (z + 2 ^ 63) (2 ^ 64) ltac:(lia)). lia.
Qed.

Lemma wrap64_eq_iff (a b : Z) :
  wrap64 a = wrap64 b <-> exists k, a = b + k * 2 ^ 64.
Proof.
  split.
  - intros H. destruct (wrap64_unwrap a) as [ka Ha].
    destruct (wrap64_unwrap b) as [kb Hb].
    exists (kb - ka). lia.
  - intros [k ->]. unfold wrap64. f_equal.
    replace (b + k * 2 ^ 64 + 2 ^ 63) with (b + 2 ^ 63 + k * 2 ^ 64) by lia.
    apply Z_mod_plus_full.
Qed.

Module worker_props.
Section WithWorld.
Context {float64 : Float64} {provider : TokenProvider} {E : Type} (nil : E).
Variable eventsToJSONL : list E -> option string.
Variable compressPayload : string -> option string.
Variable post : nat -> string -> bool -> option error.

Local Abbreviation shipper_t := (LogShipper.t (E := E)).
Local Abbreviation t := (worker.t (E := E)).
Local Abbreviation send := (LogShipper.send compressPayload post).
Local Abbreviation retry := (LogShipper.retry compressPayload post).
Local Abbreviation sendWithRetry :=
  (LogShipper.sendWithRetry compressPayload post).
Local Abbreviation shipBatch :=
  (LogShipper.shipBatch eventsToJSONL compressPayload post).
Local Abbreviation well_formed := (RingBuffer.well_formed (E := E)).
Local Abbreviation shipped s :=
  (LogShipper.EventsShipped (LogShipper.metrics s)).
Local Abbreviation dropped s :=
  (LogShipper.EventsDropped (LogShipper.metrics s)).
Local Abbreviation held s := (RingBuffer.size (LogShipper.buffer s)).
Local Abbreviation capacity s := (RingBuffer.capacity (LogShipper.buffer s)).

Lemma send_untouched (payload : string) (s : shipper_t) :
  worker.untouched s (snd (send payload s)).
Proof.
  unfold LogShipper.send, worker.untouched.
  destruct (strs.is_empty GetLogsURL); [simpl; auto|].
  destruct (strs.is_empty GetToken); [simpl; auto|].
  destruct (1024 <? Z.of_nat (String.length payload));
    [destruct (compressPayload payload)|]; simpl; auto.
Qed.

Lemma retry_untouched (left : nat) :
  forall (attempt : Z) (backoff : Duration) (lastErr : option error)
         (payload : string) (s : shipper_t),
    worker.untouched s (snd (retry left attempt backoff lastErr payload s)).
Proof.
  induction left as [| left IH]; intros attempt backoff lastErr payload s;
    cbn [LogShipper.retry].
  - unfold worker.untouched. auto.
  - destruct (attempt >? 0).
    + pose proof (send_untouched payload (LogShipper.Sleep backoff s)) as Hs.
      destruct (send payload (LogShipper.Sleep backoff s)) as [[err |] s1].
      * simpl in Hs. unfold LogShipper.isRetryableError. simpl.
        pose proof (IH (attempt + 1)
                      (MinDuration (wrap64 (backoff * 2)) LogShipper.maxBackoff)
                      (Some err) payload s1) as Hr.
        unfold worker.untouched in *. simpl in *.
        destruct Hs as (A1 & A2 & A3), Hr as (B1 & B2 & B3).
        repeat split; congruence.
      * exact Hs.
    + pose proof (send_untouched payload s) as Hs.
      destruct (send payload s) as [[err |] s1].
      * simpl in Hs. unfold LogShipper.isRetryableError. simpl.
        pose proof (IH (attempt + 1) backoff (Some err) payload s1) as Hr.
        unfold worker.untouched in *.
        destruct Hs as (A1 & A2 & A3), Hr as (B1 & B2 & B3).
        repeat split; congruence.
      * exact Hs.
Qed.

(** Re-buffering settles each event: into the buffer, or counted as
    dropped. *)
Lemma rebuffer_settles (events : list E) :
  forall s : shipper_t,
    well_formed (LogShipper.buffer s) ->
    exists s',
      LogShipper.rebuffer events s = Some s'
      /\ well_formed (LogShipper.buffer s')
      /\ capacity s' = capacity s
      /\ LogShipper.batchSize s' = LogShipper.batchSize s
      /\ shipped s' = shipped s
      /\ held s <= held s'
      /\ wrap64 (dropped s' + held s')
         = wrap64 (dropped s + held s + Z.of_nat (length events)).
Proof.
  induction events as [| event rest IH]; intros s Hwf.
  - exists s. simpl. rewrite Z.add_0_r. conjs; auto. lia.
  - cbn [LogShipper.rebuffer].
    destruct (Z.lt_ge_cases (held s) (capacity s)) as [Hroom | Hfull].
    + destruct (ring_props.add_room nil event _ Hwf Hroom)
        as (b & Ha & Hwfb & _ & Hcapb & Hszb).
      rewrite Ha. simpl.
      destruct (IH (LogShipper.with_buffer b s) Hwfb)
        as (s' & Hr & Hwf' & Hcap' & Hbs' & Hsh' & Hle' & Hsum').
      exists s'. rewrite Hr. simpl in *.
      conjs; auto; try lia.
      rewrite Hsum', Hszb. f_equal. lia.
    + rewrite (ring_props.add_full event _ Hfull). simpl.
      assert (Hwf1 : well_formed
                       (LogShipper.buffer
                          (LogShipper.dropped 1
                             (LogShipper.with_buffer (LogShipper.buffer s) s))))
        by exact Hwf.
      destruct (IH _ Hwf1)
        as (s' & Hr & Hwf' & Hcap' & Hbs' & Hsh' & Hle' & Hsum').
      exists s'. rewrite Hr. simpl in *.
      conjs; auto.
      apply wrap64_eq_iff in Hsum' as [k Hk].
      destruct (wrap64_unwrap (dropped s + 1)) as [k1 Hk1].
      rewrite Hk1 in Hk. apply wrap64_eq_iff. exists (k + k1). lia.
Qed.

(** [shipBatch] settles each event of its batch. *)
Lemma shipBatch_settles (events : list E) (s : shipper_t) :
  well_formed (LogShipper.buffer s) ->
  exists s',
    shipBatch events s = Some s'
    /\ well_formed (LogShipper.buffer s')
    /\ capacity s' = capacity s
    /\ LogShipper.batchSize s' = LogShipper.batchSize s
    /\ wrap64 (shipped s' + dropped s' + held s')
       = wrap64 (shipped s + dropped s + held s + Z.of_nat (length events))
    /\ held s <= held s'
    /\ (shipped s' = shipped s
        \/ (shipped s' = wrap64 (shipped s + Z.of_nat (length events))
            /\ LogShipper.buffer s' = LogShipper.buffer s
            /\ dropped s' = dropped s)).
Proof.
  intros Hwf. unfold LogShipper.shipBatch.
  assert (Hre : forall s0 : shipper_t,
    LogShipper.buffer s0 = LogShipper.buffer s ->
    LogShipper.batchSize s0 = LogShipper.batchSize s ->
    shipped s0 = shipped s -> dropped s0 = dropped s ->
    exists s',
      LogShipper.rebuffer events s0 = Some s'
      /\ well_formed (LogShipper.buffer s')
      /\ capacity s' = capacity s
      /\ LogShipper.batchSize s' = LogShipper.batchSize s
      /\ wrap64 (shipped s' + dropped s' + held s')
         = wrap64 (shipped s + dropped s + held s + Z.of_nat (length events))
      /\ held s <= held s'
      /\ (shipped s' = shipped s
          \/ (shipped s' = wrap64 (shipped s + Z.of_nat (length events))
              /\ LogShipper.buffer s' = LogShipper.buffer s
              /\ dropped s' = dropped s))).
  { intros s0 Hb Hbs Hsh Hdr.
    assert (Hwf0 : well_formed (LogShipper.buffer s0)) by (rewrite Hb; exact Hwf).
    destruct (rebuffer_settles events s0 Hwf0)
      as (s' & Hr & Hwf' & Hcap' & Hbs' & Hsh' & Hle' & Hsum').
    exists s'. rewrite Hb in *. conjs; auto; try congruence.
    - apply wrap64_eq_iff in Hsum' as [k Hk]. apply wrap64_eq_iff.
      exists k. lia.
    - left. congruence. }
  destruct (LogShipper.isCircuitOpen s) as [open s1] eqn:Hopen.
  assert (Hs1 : LogShipper.buffer s1 = LogShipper.buffer s
                /\ LogShipper.batchSize s1 = LogShipper.batchSize s
                /\ LogShipper.metrics s1 = LogShipper.metrics s
                /\ LogShipper.clock s1 = LogShipper.clock s).
  { revert Hopen. unfold LogShipper.isCircuitOpen.
    destruct (negb (LogShipper.circuitOpen s)); [intros [= _ <-]; auto|].
    destruct (Since _ _ >? _); intros [= _ <-]; auto. }
  destruct Hs1 as (Hb1 & Hbs1 & Hm1 & _).
  destruct open.
  { apply Hre; congruence. }
  destruct (LeakyBucket.WaitTime (LogShipper.clock s1) 1 (LogShipper.bucket s1))
    as [waitTime b].
  set (s2 := if waitTime >? 0
             then LogShipper.Sleep waitTime (LogShipper.with_bucket b s1)
             else LogShipper.with_bucket b s1).
  assert (Hs2 : LogShipper.buffer s2 = LogShipper.buffer s
                /\ LogShipper.batchSize s2 = LogShipper.batchSize s
                /\ LogShipper.metrics s2 = LogShipper.metrics s).
  { subst s2. destruct (waitTime >? 0); simpl; auto. }
  destruct Hs2 as (Hb2 & Hbs2 & Hm2).
  destruct (LeakyBucket.Allow (LogShipper.clock s2) 1 (LogShipper.bucket s2))
    as [ok b'].
  destruct ok; simpl.
  2:{ apply Hre; simpl; congruence. }
  destruct (eventsToJSONL events) as [payload |].
  2:{ eexists. split; [reflexivity|]. simpl. rewrite Hb2, Hbs2, Hm2.
      conjs; auto; try lia.
      destruct (wrap64_unwrap (dropped s + Z.of_nat (length events))) as [k Hk].
      rewrite Hk. apply wrap64_eq_iff. exists k. lia. }
  pose proof (retry_untouched (Z.to_nat LogShipper.maxRetries) 0
                LogShipper.initialBackoff None payload
                (LogShipper.with_bucket b' s2)) as Hsent.
  fold (sendWithRetry payload (LogShipper.with_bucket b' s2)) in Hsent.
  destruct (sendWithRetry payload (LogShipper.with_bucket b' s2))
    as [[err |] s3]; unfold worker.untouched in Hsent; simpl in Hsent;
    destruct Hsent as (Hbs3 & Hb3 & Hm3).
  - destruct (Hre (LogShipper.with_metrics
                     {| LogShipper.EventsShipped :=
                          shipped (LogShipper.recordFailure s3);
                        LogShipper.EventsDropped :=
                          dropped (LogShipper.recordFailure s3);
                        LogShipper.ShippingErrors :=
                          wrap64 (LogShipper.ShippingErrors
                                    (LogShipper.metrics
                                       (LogShipper.recordFailure s3)) + 1);
                        LogShipper.BatchesSent :=
                          LogShipper.BatchesSent
                            (LogShipper.metrics (LogShipper.recordFailure s3)) |}
                     (LogShipper.recordFailure s3)))
      as (s' & Hr & Hrest); simpl; try congruence.
    exists s'. split; [exact Hr | exact Hrest].
  - eexists. split; [reflexivity|]. simpl. rewrite Hb3, Hbs3, Hm3, Hb2, Hbs2, Hm2.
    conjs; auto; try lia.
    destruct (wrap64_unwrap (shipped s + Z.of_nat (length events))) as [k Hk].
    rewrite Hk. apply wrap64_eq_iff. exists k. lia.
Qed.

Local Abbreviation ship := (worker.ship eventsToJSONL compressPayload post).
Local Abbreviation turn := (worker.turn nil eventsToJSONL compressPayload post).
Local Abbreviation run := (worker.run nil eventsToJSONL compressPayload post).
Local Abbreviation flush_loop :=
  (worker.flush_loop eventsToJSONL compressPayload post).
Local Abbreviation flushBuffer :=
  (worker.flushBuffer nil eventsToJSONL compressPayload post).
Local Abbreviation Stop := (worker.Stop nil eventsToJSONL compressPayload post).

Local Abbreviation carried := (worker.carried (E := E)).
Local Abbreviation conserved := (worker.conserved (E := E)).

Lemma ship_carried (events : list E) (st : t) :
  well_formed (LogShipper.buffer (worker.shipper st)) ->
  exists st',
    ship events st = Some st'
    /\ carried (Z.of_nat (length events)) st st'
    /\ worker.eventChan st' = worker.eventChan st
    /\ worker.batch st' = worker.batch st
    /\ worker.running st' = worker.running st.
Proof.
  intros Hwf. unfold worker.ship.
  destruct (shipBatch_settles events (worker.shipper st) Hwf)
    as (s' & Hs & Hwf' & _ & Hbs & Hsum & _).
  rewrite Hs. simpl. eexists. split; [reflexivity|].
  unfold worker.carried, worker.settled. simpl. conjs; auto.
Qed.

Lemma ship_pending_carried (st : t) :
  well_formed (LogShipper.buffer (worker.shipper st)) ->
  exists st',
    worker.ship_pending eventsToJSONL compressPayload post st = Some st'
    /\ carried (Z.of_nat (length (worker.batch st))) st st'
    /\ worker.eventChan st' = worker.eventChan st
    /\ worker.batch st' = []
    /\ worker.running st' = worker.running st.
Proof.
  intros Hwf. unfold worker.ship_pending.
  destruct (worker.batch st) as [| event rest] eqn:Hbatch.
  - exists st. simpl. unfold worker.carried. rewrite Z.add_0_r. conjs; auto.
  - change (0 <? length (event :: rest))%nat with true. cbv iota.
    destruct (ship_carried (event :: rest) st Hwf)
      as (st1 & Hs & Hc & Hch & _ & Hr).
    rewrite Hs. simpl. eexists. split; [reflexivity|].
    unfold worker.carried in *. simpl. conjs; try tauto.
Qed.

Lemma processBufferedEvents_carried (st : t) :
  well_formed (LogShipper.buffer (worker.shipper st)) ->
  0 <= LogShipper.batchSize (worker.shipper st) ->
  exists st',
    worker.processBufferedEvents nil eventsToJSONL compressPayload post st
    = Some st'
    /\ carried 0 st st'
    /\ worker.eventChan st' = worker.eventChan st
    /\ worker.batch st' = worker.batch st
    /\ worker.running st' = worker.running st.
Proof.
  intros Hwf Hbs. unfold worker.processBufferedEvents.
  destruct (ring_props.drain_front nil _ _ Hwf Hbs)
    as (b & Hd & Hwfb & _ & _ & Hsz).
  rewrite Hd. simpl.
  set (k := Z.to_nat (Z.min (LogShipper.batchSize (worker.shipper st))
                        (held (worker.shipper st)))) in *.
  set (events := firstn k (RingBuffer.contents nil
                             (LogShipper.buffer (worker.shipper st)))).
  assert (Hlen : length events = k).
  { subst events. rewrite length_firstn, ring_props.contents_length. lia. }
  set (st1 := worker.with_shipper
                (LogShipper.with_buffer b (worker.shipper st)) st).
  destruct (0 <? length events)%nat eqn:Hpos.
  - destruct (ship_carried events st1 Hwfb)
      as (st' & Hs & Hc & Hch & Hba & Hr).
    exists st'. split; [exact Hs|].
    unfold worker.carried, worker.settled in *. simpl in *.
    destruct Hc as (C1 & C2 & C3 & C4 & C5 & C6).
    conjs; auto.
    apply wrap64_eq_iff in C6 as [j Hj]. apply wrap64_eq_iff. exists j. lia.
  - apply Nat.ltb_ge in Hpos.
    exists st1. split; [reflexivity|].
    unfold worker.carried, worker.settled. simpl. conjs; auto.
    f_equal. lia.
Qed.

Lemma conserved_refl (st : t) : worker.sound st -> conserved st st.
Proof.
  intros Hs. unfold worker.conserved. conjs; auto. exists 0%nat. reflexivity.
Qed.

Lemma conserved_trans (st1 st2 st3 : t) :
  conserved st1 st2 -> conserved st2 st3 -> conserved st1 st3.
Proof.
  unfold worker.conserved.
  intros (_ & A2 & A3 & A4 & (k & A5) & A6) (B1 & B2 & B3 & B4 & (j & B5) & B6).
  conjs; auto; try congruence.
  exists (k + j)%nat. rewrite B5, A5, skipn_skipn. f_equal. lia.
Qed.

Lemma turn_conserved (c : worker.choice) (st : t) :
  worker.sound st ->
  exists st', turn c st = Some st' /\ conserved st st'.
Proof.
  intros Hsound.
  pose proof Hsound as (Hwf & Hbs & Hfl & Hbatch & Hchan & Hidle).
  unfold worker.turn.
  destruct (worker.running st) eqn:Hrun; simpl;
    [|exists st; split; [reflexivity | apply conserved_refl, Hsound]].
  assert (Hexit :
    exists st',
      (st1 ← worker.ship_pending eventsToJSONL compressPayload post st;
       Some (worker.with_running false st1)) = Some st'
      /\ conserved st st').
  { destruct (ship_pending_carried st Hwf)
      as (st1 & Hs & (C1 & C2 & C3 & C4 & C5 & C6) & Hch & Hba & Hr).
    rewrite Hs. simpl. eexists. split; [reflexivity|].
    unfold worker.settled in C6.
    unfold worker.conserved, worker.sound, worker.on_the_way, worker.settled.
    simpl. rewrite Hba, Hch, C2, C3. simpl.
    split; [|split; [exact C4|split; [exact C5|split; [|split]]]].
    - conjs; auto; lia.
    - apply wrap64_eq_iff in C6 as [j Hj]. apply wrap64_eq_iff.
      exists j. lia.
    - exists 0%nat. reflexivity.
    - discriminate. }
  destruct c.
  - destruct (worker.cancelled st); [exact Hexit|].
    exists st. split; [reflexivity | apply conserved_refl, Hsound].
  - destruct (worker.eventChan st) as [| event rest] eqn:Hec.
    + destruct (worker.closed st); [exact Hexit|].
      exists st. split; [reflexivity | apply conserved_refl, Hsound].
    + clear Hexit.
      cbn [worker.batch worker.with_batch worker.with_chan worker.shipper].
      rewrite length_app. cbn [length].
      destruct (Z.geb_spec (Z.of_nat (length (worker.batch st) + 1))
                  (LogShipper.batchSize (worker.shipper st))) as [Hfull | Hnot].
      * destruct (ship_carried (worker.batch st ++ [event])
                    (worker.with_batch (worker.batch st ++ [event])
                       (worker.with_chan rest st)) Hwf)
          as (st1 & Hs & (C1 & C2 & C3 & C4 & C5 & C6) & Hch & Hba & Hr).
        rewrite Hs. simpl. eexists. split; [reflexivity|].
        unfold worker.settled in C6. simpl in C2, C3, C4, C5, C6, Hch.
        rewrite length_app in C6. simpl in C6.
        unfold worker.conserved, worker.sound, worker.on_the_way,
          worker.settled.
        simpl. rewrite Hch, C2, C3, Hec. simpl in Hchan |- *.
        split; [|split; [exact C4|split; [exact C5|split; [|split]]]].
        -- conjs; auto; lia.
        -- apply wrap64_eq_iff in C6 as [j Hj]. apply wrap64_eq_iff.
           exists j. lia.
        -- exists 1%nat. reflexivity.
        -- intros _. exact Hrun.
      * eexists. split; [reflexivity|].
        unfold worker.conserved, worker.sound, worker.on_the_way,
          worker.settled.
        simpl. rewrite Hec, Hrun, length_app. simpl in Hchan |- *.
        split; [|split; [reflexivity|split; [reflexivity|split; [|split]]]].
        -- conjs; auto; try lia; try discriminate.
        -- f_equal. lia.
        -- exists 1%nat. reflexivity.
        -- intros _. reflexivity.
  - clear Hexit.
    destruct (ship_pending_carried st Hwf)
      as (st1 & Hs & (C1 & C2 & C3 & C4 & C5 & C6) & Hch & Hba & Hr).
    rewrite Hs. simpl.
    destruct (processBufferedEvents_carried st1 C1 ltac:(lia))
      as (st2 & Hp & (D1 & D2 & D3 & D4 & D5 & D6) & Hch2 & Hba2 & Hr2).
    exists st2. split; [exact Hp|].
    unfold worker.settled in C6, D6.
    unfold worker.conserved, worker.sound, worker.on_the_way, worker.settled.
    rewrite Hba2, Hba, Hch2, Hch, D2, C2, D3, C3. simpl.
    split; [|split; [congruence|split; [congruence|split; [|split]]]].
    + conjs; auto; lia.
    + apply wrap64_eq_iff in C6 as [j Hj]. apply wrap64_eq_iff in D6 as [i Hi].
      apply wrap64_eq_iff. exists (i + j). lia.
    + exists 0%nat. reflexivity.
    + intros _. exact Hrun.
Qed.

Lemma run_conserved (choices : list worker.choice) :
  forall st : t,
    worker.sound st ->
    exists st', run choices st = Some st' /\ conserved st st'.
Proof.
  induction choices as [| c rest IH]; intros st Hsound; cbn [worker.run].
  - exists st. split; [reflexivity | apply conserved_refl, Hsound].
  - destruct (turn_conserved c st Hsound) as (st1 & Ht & Hc1).
    rewrite Ht. simpl.
    destruct (IH st1 (proj1 Hc1)) as (st' & Hr & Hc').
    exists st'. split; [exact Hr | exact (conserved_trans _ _ _ Hc1 Hc')].
Qed.
Lemma flush_loop_carried (fuel : nat) :
  forall (events : list E) (st : t),
    well_formed (LogShipper.buffer (worker.shipper st)) ->
    1 <= LogShipper.batchSize (worker.shipper st) ->
    (length events <= fuel)%nat ->
    exists st',
      flush_loop fuel events st = Some st'
      /\ carried (Z.of_nat (length events)) st st'
      /\ worker.eventChan st' = worker.eventChan st
      /\ worker.batch st' = worker.batch st
      /\ worker.running st' = worker.running st.
Proof.
  assert (Hnone : forall st : t,
    well_formed (LogShipper.buffer (worker.shipper st)) ->
    carried (Z.of_nat 0) st st).
  { intros st Hwf. unfold worker.carried. simpl. rewrite Z.add_0_r.
    conjs; auto. }
  induction fuel as [| fuel IH]; intros events st Hwf Hbs Hlen;
    cbn [worker.flush_loop].
  - destruct events; [|simpl in Hlen; lia]. simpl.
    exists st. split; [reflexivity|]. split; [apply Hnone, Hwf | auto].
  - destruct events as [| event rest] eqn:Hev.
    { simpl. exists st. split; [reflexivity|].
      split; [apply Hnone, Hwf | auto]. }
    rewrite <- Hev in *.
    assert (Hpos : (0 < length events)%nat) by (subst events; simpl; lia).
    destruct (Nat.ltb_spec 0 (length events)); [|lia].
    set (size := MinInt (Z.of_nat (length events))
                   (LogShipper.batchSize (worker.shipper st))).
    assert (Hsize : 1 <= size <= Z.of_nat (length events)).
    { subst size. unfold MinInt.
      destruct (Z.ltb_spec (Z.of_nat (length events))
                  (LogShipper.batchSize (worker.shipper st))); lia. }
    destruct (Z.ltb_spec size 0); [lia|].
    destruct (ship_carried (firstn (Z.to_nat size) events) st Hwf)
      as (st1 & Hs & (C1 & C2 & C3 & C4 & C5 & C6) & Hch & Hba & Hr).
    rewrite Hs. simpl.
    rewrite length_firstn in C6.
    destruct (IH (skipn (Z.to_nat size) events) st1 C1 ltac:(lia))
      as (st' & Hf & (D1 & D2 & D3 & D4 & D5 & D6) & Hch' & Hba' & Hr').
    { rewrite length_skipn. lia. }
    exists st'. split; [exact Hf|].
    rewrite length_skipn in D6.
    split; [|split; [congruence|split; [congruence|congruence]]].
    unfold worker.carried. conjs; try congruence.
    apply wrap64_eq_iff in C6 as [j Hj]. apply wrap64_eq_iff in D6 as [i Hi].
    apply wrap64_eq_iff. exists (i + j). lia.
Qed.

Lemma flushBuffer_carried (st : t) :
  well_formed (LogShipper.buffer (worker.shipper st)) ->
  1 <= LogShipper.batchSize (worker.shipper st) ->
  exists st',
    flushBuffer st = Some st'
    /\ carried 0 st st'
    /\ worker.eventChan st' = worker.eventChan st
    /\ worker.batch st' = worker.batch st
    /\ worker.running st' = worker.running st.
Proof.
  intros Hwf Hbs. unfold worker.flushBuffer.
  destruct (ring_props.drain_all_front nil _ Hwf)
    as (b & Hd & Hwfb & _ & _ & Hsz).
  rewrite Hd. simpl.
  set (events := RingBuffer.contents nil
                   (LogShipper.buffer (worker.shipper st))).
  assert (Hlen : Z.of_nat (length events) = held (worker.shipper st)).
  { subst events. rewrite ring_props.contents_length.
    destruct Hwf as (_ & Hs & _). lia. }
  destruct (flush_loop_carried (length events) events
              (worker.with_shipper
                 (LogShipper.with_buffer b (worker.shipper st)) st)
              Hwfb Hbs ltac:(lia))
    as (st' & Hf & (C1 & C2 & C3 & C4 & C5 & C6) & Hch & Hba & Hr).
  exists st'. split; [exact Hf|].
  unfold worker.carried, worker.settled in *. simpl in *.
  conjs; auto.
  apply wrap64_eq_iff in C6 as [j Hj]. apply wrap64_eq_iff. exists j. lia.
Qed.


(** X18. [SendEvent] on a closed channel panics.  On an open channel it
    returns, and the event goes one way: to the back of the channel when
    the channel has room; otherwise to the back of the overflow buffer
    when that has room; otherwise nowhere, and it is counted as dropped.
    Nothing else changes, and the events in all, settled or on their
    way, are one more. *)
Theorem send_event_goes_one_way (event : E) (st : t) :
  worker.sound st ->
  (worker.closed st = true -> worker.SendEvent event st = None)
  /\ (worker.closed st = false ->
      exists st',
        worker.SendEvent event st = Some st'
        /\ worker.sound st'
        /\ wrap64 (worker.settled st' + worker.on_the_way st')
           = wrap64 (worker.settled st + worker.on_the_way st + 1)
        /\ (Z.of_nat (length (worker.eventChan st)) < worker.chanCapacity ->
            worker.eventChan st' = worker.eventChan st ++ [event]
            /\ worker.shipper st' = worker.shipper st)
        /\ (Z.of_nat (length (worker.eventChan st)) = worker.chanCapacity ->
            worker.eventChan st' = worker.eventChan st
            /\ ((held (worker.shipper st) < capacity (worker.shipper st)
                 /\ RingBuffer.contents nil
                      (LogShipper.buffer (worker.shipper st'))
                    = RingBuffer.contents nil
                        (LogShipper.buffer (worker.shipper st)) ++ [event]
                 /\ dropped (worker.shipper st') = dropped (worker.shipper st))
                \/ (held (worker.shipper st) = capacity (worker.shipper st)
                    /\ LogShipper.buffer (worker.shipper st')
                       = LogShipper.buffer (worker.shipper st)
                    /\ dropped (worker.shipper st')
                       = wrap64 (dropped (worker.shipper st) + 1))))
        /\ worker.batch st' = worker.batch st
        /\ worker.running st' = worker.running st).
Proof.
  intros (Hwf & Hbs & Hfl & Hbatch & Hchan & Hidle).
  unfold worker.SendEvent. split.
  - intros ->. reflexivity.
  - intros ->.
    destruct (Z.ltb_spec (Z.of_nat (length (worker.eventChan st)))
                worker.chanCapacity) as [Hroom | Hfull].
    + eexists. split; [reflexivity|].
      unfold worker.sound, worker.settled, worker.on_the_way. simpl.
      rewrite length_app. simpl.
      split; [conjs; auto; lia|]. split; [f_equal; lia|].
      split; [auto|]. split; [lia | auto].
    + assert (Hlen : Z.of_nat (length (worker.eventChan st))
                     = worker.chanCapacity) by lia.
      pose proof Hwf as (_ & Hsz & _).
      destruct (Z.lt_ge_cases (held (worker.shipper st))
                  (capacity (worker.shipper st))) as [Hr | Hf].
      * destruct (ring_props.add_room nil event _ Hwf Hr)
          as (b & Ha & Hwfb & Hcb & Hcapb & Hszb).
        rewrite Ha. simpl. eexists. split; [reflexivity|].
        unfold worker.sound, worker.settled, worker.on_the_way. simpl.
        split; [conjs; auto; lia|]. split; [rewrite Hszb; f_equal; lia|].
        split; [lia|]. split; [|auto].
        intros _. split; [reflexivity|]. left. auto.
      * rewrite (ring_props.add_full event _ Hf). simpl.
        eexists. split; [reflexivity|].
        unfold worker.sound, worker.settled, worker.on_the_way. simpl.
        split; [conjs; auto; lia|]. split.
        { destruct (wrap64_unwrap (dropped (worker.shipper st) + 1)) as [k Hk].
          rewrite Hk. apply wrap64_eq_iff. exists k. lia. }
        split; [lia|]. split; [|auto].
        intros _. split; [reflexivity|]. right. split; [lia | auto].
Qed.

(** X19. [shipBatch] does not panic on a buffer in shape, and it settles
    every event of its batch: the events shipped, dropped and held in
    the overflow buffer are, in all, as many more as the batch has
    events.  The batch is counted as shipped as a whole or not at all,
    and no event leaves the overflow buffer. *)
Theorem ship_batch_settles_every_event (events : list E) (s : shipper_t) :
  well_formed (LogShipper.buffer s) ->
  exists s',
    shipBatch events s = Some s'
    /\ well_formed (LogShipper.buffer s')
    /\ capacity s' = capacity s
    /\ LogShipper.batchSize s' = LogShipper.batchSize s
    /\ wrap64 (shipped s' + dropped s' + held s')
       = wrap64 (shipped s + dropped s + held s + Z.of_nat (length events))
    /\ held s <= held s' <= capacity s
    /\ (shipped s' = shipped s
        \/ (shipped s' = wrap64 (shipped s + Z.of_nat (length events))
            /\ LogShipper.buffer s' = LogShipper.buffer s
            /\ dropped s' = dropped s)).
Proof.
  intros Hwf.
  destruct (shipBatch_settles events s Hwf)
    as (s' & Hs & Hwf' & Hcap & Hbs & Hsum & Hle & Hcases).
  exists s'. conjs; auto.
  destruct Hwf' as (_ & Hsz & _). lia.
Qed.

(** X20. The goroutine of [processEvents] does not panic, whatever cases
    its [select] takes, and it loses no event: the events settled and on
    their way are in all as many after any number of turns as before.
    It takes events from the front of the channel only, keeps its batch
    below the batch size, and takes no further case once it has
    returned. *)
Theorem worker_loses_no_event (choices : list worker.choice) (st : t) :
  worker.sound st ->
  exists st',
    run choices st = Some st'
    /\ worker.sound st'
    /\ wrap64 (worker.settled st' + worker.on_the_way st')
       = wrap64 (worker.settled st + worker.on_the_way st)
    /\ (exists k, worker.eventChan st' = skipn k (worker.eventChan st))
    /\ worker.closed st' = worker.closed st
    /\ worker.cancelled st' = worker.cancelled st
    /\ (worker.running st = false -> st' = st)
    /\ (worker.running st' = false -> worker.batch st' = []).
Proof.
  intros Hsound.
  destruct (run_conserved choices st Hsound)
    as (st' & Hr & Hs' & Hcl & Hca & Hsum & Hk & Hrun).
  exists st'. conjs; auto.
  - intros Hidle. clear - Hr Hidle. revert st Hr Hidle.
    induction choices as [| c rest IH]; intros st Hr Hidle;
      cbn [worker.run] in Hr.
    + congruence.
    + unfold worker.turn in Hr. rewrite Hidle in Hr. simpl in Hr.
      apply (IH st Hr Hidle).
  - apply Hs'.
Qed.

(** X21. [Stop] panics on a shipper that has been stopped.  Otherwise it
    cancels the context and closes the channel; it returns the timeout
    error exactly when the goroutine has not returned in time, and
    otherwise flushes the overflow buffer, without a panic.  No event is
    lost from the count, but the events still in the channel stay there:
    they are neither shipped nor counted as dropped.  After [Stop],
    [SendEvent] panics. *)
Theorem stop_flushes_or_times_out (choices : list worker.choice) (st : t) :
  worker.sound st ->
  (worker.closed st = true -> Stop choices st = None)
  /\ (worker.closed st = false ->
      exists st' err,
        Stop choices st = Some (st', err)
        /\ worker.closed st' = true
        /\ worker.cancelled st' = true
        /\ wrap64 (worker.settled st' + worker.on_the_way st')
           = wrap64 (worker.settled st + worker.on_the_way st)
        /\ (err = None <-> worker.running st' = false)
        /\ (err = None ->
            worker.batch st' = []
            /\ worker.on_the_way st'
               = Z.of_nat (length (worker.eventChan st')))
        /\ (exists k, worker.eventChan st' = skipn k (worker.eventChan st))
        /\ (forall event, worker.SendEvent event st' = None)
        /\ (forall more, Stop more st' = None)).
Proof.
  intros Hsound. unfold worker.Stop. split.
  - intros ->. reflexivity.
  - intros Hopen. rewrite Hopen.
    set (st0 := {| worker.shipper := worker.shipper st;
                   worker.flushInterval := worker.flushInterval st;
                   worker.eventChan := worker.eventChan st;
                   worker.closed := true;
                   worker.cancelled := true;
                   worker.batch := worker.batch st;
                   worker.running := worker.running st |}).
    assert (Hsound0 : worker.sound st0) by exact Hsound.
    destruct (run_conserved choices st0 Hsound0)
      as (st1 & Hr & Hs1 & Hcl0 & Hca0 & Hsum0 & Hk0 & Hrun).
    assert (Hcl : worker.closed st1 = true) by exact Hcl0.
    assert (Hca : worker.cancelled st1 = true) by exact Hca0.
    assert (Hsum : wrap64 (worker.settled st1 + worker.on_the_way st1)
                   = wrap64 (worker.settled st + worker.on_the_way st))
      by exact Hsum0.
    assert (Hk : exists k, worker.eventChan st1 = skipn k (worker.eventChan st))
      by exact Hk0.
    clear Hcl0 Hca0 Hsum0 Hk0.
    rewrite Hr. simpl.
    assert (Hafter : forall st' : t,
      worker.closed st' = true ->
      (forall event, worker.SendEvent event st' = None)
      /\ (forall more,
             (if worker.closed st' then None
              else
                st2 ← run more
                        {| worker.shipper := worker.shipper st';
                           worker.flushInterval := worker.flushInterval st';
                           worker.eventChan := worker.eventChan st';
                           worker.closed := true;
                           worker.cancelled := true;
                           worker.batch := worker.batch st';
                           worker.running := worker.running st' |};
                if worker.running st2
                then Some (st2, Some "timeout waiting for log shipper to stop"%string)
                else st3 ← flushBuffer st2; Some (st3, None))
             = @None (t * option error))).
    { intros st' Hc. split.
      - intros event. unfold worker.SendEvent. rewrite Hc. reflexivity.
      - intros more. rewrite Hc. reflexivity. }
    destruct (worker.running st1) eqn:Hrun1.
    + exists st1, (Some "timeout waiting for log shipper to stop"%string).
      split; [reflexivity|].
      destruct (Hafter st1 Hcl) as [Hsend Hstop].
      split; [exact Hcl|]. split; [exact Hca|]. split; [exact Hsum|].
      split; [split; [discriminate | congruence]|].
      split; [discriminate|]. split; [exact Hk|].
      split; [exact Hsend | exact Hstop].
    + pose proof Hs1 as (Hwf1 & Hbs1 & _ & _ & _ & Hidle1).
      destruct (flushBuffer_carried st1 Hwf1 Hbs1)
        as (st2 & Hf & (C1 & C2 & C3 & C4 & C5 & C6) & Hch & Hba & Hr2).
      rewrite Hf. simpl. exists st2, None. split; [reflexivity|].
      assert (Hcl2 : worker.closed st2 = true) by (rewrite C4; exact Hcl).
      destruct (Hafter st2 Hcl2) as [Hsend Hstop].
      split; [exact Hcl2|]. split; [rewrite C5; exact Hca|]. split.
      { unfold worker.on_the_way in *. rewrite Hch, Hba.
        apply wrap64_eq_iff in C6 as [j Hj].
        apply wrap64_eq_iff in Hsum as [i Hi].
        apply wrap64_eq_iff. exists (i + j). lia. }
      split; [split; [congruence | reflexivity]|].
      split.
      { intros _. unfold worker.on_the_way. rewrite Hba, (Hidle1 Hrun1).
        split; [reflexivity | simpl; lia]. }
      split; [rewrite Hch; exact Hk|].
      split; [exact Hsend | exact Hstop].
Qed.

End WithWorld.
End worker_props.

Lemma sender_sound : worker.sound scenario.sender.
Proof.
  unfold worker.sound, RingBuffer.well_formed, worker.chanCapacity. simpl.
  unfold Second. repeat split; auto; lia.
Qed.

Lemma busy_sound : worker.sound scenario.busy.
Proof.
  unfold worker.sound, RingBuffer.well_formed, worker.chanCapacity. simpl.
  unfold Second. repeat split; auto; try lia; try discriminate.
Qed.

(** An event sent to the sample shipper goes into its channel. *)
Lemma send_event_goes_one_way_witness :
  worker.sound scenario.sender
  /\ worker.closed scenario.sender = false
  /\ exists st',
      worker.SendEvent "e"%string scenario.sender = Some st'
      /\ worker.eventChan st' = ["e"%string].
Proof.
  split; [exact sender_sound|]. split; [reflexivity|].
  destruct (proj2 (worker_props.send_event_goes_one_way EmptyString
                     "e"%string scenario.sender sender_sound) eq_refl)
    as (st' & Hs & _ & _ & Hchan & _).
  exists st'. split; [exact Hs|].
  apply Hchan. vm_compute. reflexivity.
Defined.

(** A batch of one event shipped to the accepting endpoint: the shipper
    does not panic. *)
Lemma ship_batch_settles_every_event_witness :
  RingBuffer.well_formed (LogShipper.buffer sample.shipper)
  /\ exists s', sample.ship sample.accepting ["e"%string] sample.shipper = Some s'.
Proof.
  assert (Hwf : RingBuffer.well_formed (LogShipper.buffer sample.shipper)).
  { unfold RingBuffer.well_formed. simpl. repeat split; auto; lia. }
  split; [exact Hwf|].
  destruct (worker_props.ship_batch_settles_every_event
              (float64 := sample.exact) (provider := sample.provider)
              EmptyString sample.jsonl sample.gzip sample.accepting
              ["e"%string] sample.shipper Hwf) as (s' & Hs & _).
  exists s'. exact Hs.
Defined.

(** The goroutine takes an event, a tick and finds the context not
    cancelled: it does not panic. *)
Lemma worker_loses_no_event_witness :
  worker.sound scenario.busy
  /\ exists st',
      scenario.work [worker.Received; worker.Ticked; worker.Cancelled]
        scenario.busy = Some st'
      /\ worker.sound st'.
Proof.
  split; [exact busy_sound|].
  destruct (worker_props.worker_loses_no_event
              (float64 := sample.exact) (provider := sample.provider)
              EmptyString sample.jsonl sample.gzip sample.accepting
              [worker.Received; worker.Ticked; worker.Cancelled]
              scenario.busy busy_sound) as (st' & Hr & Hs & _).
  exists st'. split; [exact Hr | exact Hs].
Defined.

(** [Stop] on a shipper whose goroutine takes the cancellation first:
    it returns no error, and the two events of the channel are still in
    the channel, neither shipped nor dropped. *)
Lemma stop_flushes_or_times_out_witness :
  worker.sound scenario.busy
  /\ worker.closed scenario.busy = false
  /\ exists st',
      scenario.stop [worker.Cancelled] scenario.busy = Some (st', None)
      /\ worker.eventChan st' = ["a"; "b"]%string
      /\ worker.settled st' = 0
      /\ forall event, worker.SendEvent event st' = None.
Proof.
  split; [exact busy_sound|]. split; [reflexivity|].
  destruct (proj2 (worker_props.stop_flushes_or_times_out
                     (float64 := sample.exact) (provider := sample.provider)
                     EmptyString sample.jsonl sample.gzip sample.accepting
                     [worker.Cancelled] scenario.busy busy_sound) eq_refl)
    as (st' & err & Hs & _ & _ & _ & _ & _ & _ & Hsend & _).
  assert (Hrun : scenario.stop [worker.Cancelled] scenario.busy
                 = Some (worker.with_running false
                           {| worker.shipper := sample.shipper;
                              worker.flushInterval := 10 * Second;
                              worker.eventChan := ["a"; "b"]%string;
                              worker.closed := true;
                              worker.cancelled := true;
                              worker.batch := [];
                              worker.running := true |}, None))
    by (vm_compute; reflexivity).
  unfold scenario.stop in Hrun. rewrite Hrun in Hs. injection Hs as <- <-.
  eexists. split; [exact Hrun|]. split; [reflexivity|].
  split; [reflexivity | exact Hsend].
Defined.

(** ** The process: requests follow the list last fetched *)

Module process_props.
Section WithNetIP.
Context {netip : NetIP}.
Variable CanonicalMIMEHeaderKey : string -> string.
Variable SplitHostPort : string -> option (string * string).

Local Abbreviation extractClientIP :=
  (auth.extractClientIP CanonicalMIMEHeaderKey SplitHostPort).
Local Abbreviation serve :=
  (process.serve CanonicalMIMEHeaderKey SplitHostPort).





End WithNetIP.
End process_props.


(** ** The shipper without a logs URL or a token *)

Module credentials_props.
Section WithWorld.
Context {float64 : Float64} {provider : TokenProvider} {E : Type}.
Variable compressPayload : string -> option string.
Variable post : nat -> string -> bool -> option error.

Local Abbreviation t := (LogShipper.t (E := E)).
Local Abbreviation send := (LogShipper.send compressPayload post).
Local Abbreviation sendWithRetry :=
  (LogShipper.sendWithRetry compressPayload post).

(** The error of [send] when the provider lacks the URL or the token. *)
Local Abbreviation missing :=
  (if strs.is_empty GetLogsURL then "logs URL not available"
   else "access token not available")%string.

Lemma send_missing (payload : string) (s : t) :
  GetLogsURL = EmptyString \/ GetToken = EmptyString ->
  send payload s = (Some missing, s).
Proof.
  intros Hm. unfold LogShipper.send.
  destruct (strs.is_empty GetLogsURL) eqn:Hu; [reflexivity|].
  destruct Hm as [Hm | Hm].
  - rewrite Hm in Hu. discriminate.
  - rewrite Hm. reflexivity.
Qed.

(** X23. Without a logs URL or an access token [send] makes no request,
    and [sendWithRetry] makes none either; yet it takes its five turns
    and sleeps 1, 2, 4 and 8 seconds between them before it returns the
    error: fifteen seconds for a batch that cannot be sent. *)
Theorem no_request_without_credentials (payload : string) (s : t) :
  GetLogsURL = EmptyString \/ GetToken = EmptyString ->
  let out := sendWithRetry payload s in
  fst out = Some missing
  /\ LogShipper.posts (snd out) = LogShipper.posts s
  /\ LogShipper.slept (snd out)
     = LogShipper.slept s ++ [1 * Second; 2 * Second; 4 * Second; 8 * Second]
  /\ LogShipper.clock (snd out) = LogShipper.clock s + 15 * Second
  /\ LogShipper.buffer (snd out) = LogShipper.buffer s
  /\ LogShipper.metrics (snd out) = LogShipper.metrics s.
Proof.
  intros Hm out. subst out.
  unfold LogShipper.sendWithRetry.
  change (Z.to_nat LogShipper.maxRetries) with 5%nat.
  cbn [LogShipper.retry]. change (0 >? 0) with false. cbv iota.
  rewrite (send_missing payload _ Hm).
  unfold LogShipper.isRetryableError. cbn [negb]. cbv iota.
  change (0 + 1 >? 0) with true. cbv iota.
  rewrite (send_missing payload _ Hm). cbv iota.
  change (0 + 1 + 1 >? 0) with true. cbv iota.
  rewrite (send_missing payload _ Hm). cbv iota.
  change (0 + 1 + 1 + 1 >? 0) with true. cbv iota.
  rewrite (send_missing payload _ Hm). cbv iota.
  change (0 + 1 + 1 + 1 + 1 >? 0) with true. cbv iota.
  rewrite (send_missing payload _ Hm). cbv iota.
  simpl. rewrite <- !app_assoc. simpl.
  repeat split.
  rewrite <- !Z.add_assoc.
  apply (f_equal (Z.add (LogShipper.clock s))). reflexivity.
Qed.

End WithWorld.
End credentials_props.

(** The sample shipper with a provider that holds no logs URL. *)
Lemma no_request_without_credentials_witness :
  GetLogsURL (TokenProvider := scenario.no_url) = EmptyString
  /\ LogShipper.posts
       (snd (LogShipper.sendWithRetry (provider := scenario.no_url)
               sample.gzip sample.accepting "{}" sample.shipper)) = 0%nat
  /\ fst (LogShipper.sendWithRetry (provider := scenario.no_url)
            sample.gzip sample.accepting "{}" sample.shipper)
     = Some "logs URL not available"%string.
Proof.
  split; [reflexivity|].
  destruct (credentials_props.no_request_without_credentials
              (provider := scenario.no_url) sample.gzip sample.accepting
              "{}" sample.shipper (or_introl eq_refl))
    as (Herr & Hposts & _).
  split; [exact Hposts | exact Herr].
Defined.
